(** * darkside-mcp: the trusted execution core of [server/index.js]

    A shallow embedding of the access guard, the backup-before-mutate file
    operations, the inline-code safety filter and the process runner, with
    the properties the specification states about them.

    Conventions of the embedding:
    - JavaScript strings are [string]: sequences of code units below 256.
      Where JavaScript leaves that range ([toUpperCase]) the value is a
      list of code units.
    - Numbers are [Z].
    - The file store maps a path to the text of the regular file there.
      Directories and permissions are not represented: a primitive fails
      where Node reports [ENOENT], and [unlink] fails on a file that a
      child of the call has left pinned.
    - Asynchronous functions are computations over a [State]; a tool call
      starts in a [World], a state in which nothing is pinned. An [await]
      on a promise that is never settled yields [Pending].
    - Time is a logical clock advanced by the events of the child:
      synchronous code takes no time, and a timer runs its callback as
      soon as its delay has passed on that clock.
    - [log] only writes to the diagnostic stream and is left out. *)

From Stdlib Require Import ZArith Ascii String List Lia Bool.
From stdpp Require Import base gmap strings list pretty.

Open Scope string_scope.
Open Scope Z_scope.

(* ===================================================================== *)
(** ** JavaScript string primitives *)
(* ===================================================================== *)

Module Js.

(** The UTF-16 code units of a string. A [string] holds code units
    below 256; a value that may leave that range is a list of units. *)
Definition code_units (s : string) : list N :=
  map N_of_ascii (list_ascii_of_string s).

(** [c.toUpperCase()] on one character. In the 8-bit range the small
    letters [a]-[z] and [0xE0]-[0xFE] (the division sign [0xF7] apart)
    have their capital 32 places before them, the sharp s [0xDF] becomes
    [SS], and the capitals of the micro sign [0xB5] and of [0xFF] lie
    outside the range, at [U+039C] and [U+0178]. *)
Definition upper_char (c : ascii) : list N :=
  let n := N_of_ascii c in
  if ((97 <=? n) && (n <=? 122))%N then [n - 32]%N
  else if (n =? 181)%N then [924%N]
  else if (n =? 223)%N then [83%N; 83%N]
  else if (n =? 255)%N then [376%N]
  else if ((224 <=? n) && (n <=? 254) && negb (n =? 247))%N then [n - 32]%N
  else [n].

(** [s.toUpperCase()] *)
Fixpoint toUpperCase (s : string) : list N :=
  match s with
  | EmptyString => []
  | String c s' => (upper_char c ++ toUpperCase s')%list
  end.

(** [c.toLowerCase()] on one character: the capitals [A]-[Z] and
    [0xC0]-[0xDE] (the multiplication sign [0xD7] apart) have their small
    letter 32 places after them. *)
Definition lower_char (c : ascii) : ascii :=
  let n := N_of_ascii c in
  if (((65 <=? n) && (n <=? 90)) ||
      ((192 <=? n) && (n <=? 222) && negb (n =? 215)))%N
  then ascii_of_N (n + 32) else c.

(** [s.toLowerCase()] *)
Fixpoint toLowerCase (s : string) : string :=
  match s with
  | EmptyString => EmptyString
  | String c s' => String (lower_char c) (toLowerCase s')
  end.

(** [Buffer.byteLength(s, 'utf8')]: a code unit below 128 takes one byte,
    the others of the 8-bit range two. *)
Fixpoint utf8_length (s : string) : Z :=
  match s with
  | EmptyString => 0
  | String c s' => (if (N_of_ascii c <? 128)%N then 1 else 2) + utf8_length s'
  end.

(** [s.charAt(i)]: the one-character string at [i], or the empty string
    when [i] is out of range. *)
Definition charAt (i : nat) (s : string) : string :=
  match String.get i s with
  | Some c => String c EmptyString
  | None => EmptyString
  end.

(** [s.startsWith(p)] *)
Definition startsWith (s p : string) : bool := String.prefix p s.

(** [l.includes(x)] *)
Definition includes (l : list string) (x : string) : bool :=
  existsb (String.eqb x) l.

(** [l.includes(x)] for a value [x] given by its code units. *)
Definition includes_units (l : list string) (x : list N) : bool :=
  existsb (fun entry => bool_decide (code_units entry = x)) l.

(** [l.join(sep)] *)
Definition join (sep : string) (l : list string) : string := String.concat sep l.

(** White space and line terminators, as [trim] and the [\s] class take
    them: in the 8-bit range the characters 9 to 13, the space and the
    no-break space [0xA0]. *)
Definition is_space (c : ascii) : bool :=
  let n := nat_of_ascii c in
  (((9 <=? n)%nat && (n <=? 13)%nat) || (n =? 32)%nat || (n =? 160)%nat)%bool.

Fixpoint trimStart (s : string) : string :=
  match s with
  | EmptyString => EmptyString
  | String c s' => if is_space c then trimStart s' else s
  end.

Fixpoint rev_string (s acc : string) : string :=
  match s with
  | EmptyString => acc
  | String c s' => rev_string s' (String c acc)
  end.

(** [s.trim()] *)
Definition trim (s : string) : string :=
  rev_string (trimStart (rev_string (trimStart s) "")) "".

(** Truthiness of a string value: [""] is falsy. *)
Definition truthy (s : string) : bool := negb (String.eqb s "").

(** Truthiness of a [string | null] value. *)
Definition truthy_opt (o : option string) : bool :=
  match o with Some s => truthy s | None => false end.

(** [s.slice(0, n)] *)
Definition slice0 (n : nat) (s : string) : string := String.substring 0 n s.

(** [s.includes(t)] on strings. *)
Fixpoint str_includes (s t : string) : bool :=
  String.prefix t s ||
  match s with
  | EmptyString => false
  | String _ s' => str_includes s' t
  end.

(** [s.split(sep)] for a non-empty separator. [cur] holds the current
    piece, last character first; [skip] counts the characters of a
    separator still to be passed over. *)
Fixpoint split_go (sep s cur : string) (skip : nat) : list string :=
  match s with
  | EmptyString => [rev_string cur ""]
  | String c s' =>
      match skip with
      | S n => split_go sep s' cur n
      | O =>
          if String.prefix sep s
          then rev_string cur "" :: split_go sep s' "" (String.length sep - 1)
          else split_go sep s' (String c cur) 0
      end
  end.

Definition split (sep s : string) : list string := split_go sep s "" 0.

(** [s.replace(/pat/g, rep)] for a literal, non-empty [pat]. *)
Fixpoint replace_go (pat rep s : string) (skip : nat) : string :=
  match s with
  | EmptyString => EmptyString
  | String c s' =>
      match skip with
      | S n => replace_go pat rep s' n
      | O =>
          if String.prefix pat s
          then rep +:+ replace_go pat rep s' (String.length pat - 1)
          else String c (replace_go pat rep s' 0)
      end
  end.

Definition replaceAll (pat rep s : string) : string := replace_go pat rep s 0.

Definition is_digit (c : ascii) : bool :=
  let n := nat_of_ascii c in ((48 <=? n)%nat && (n <=? 57)%nat)%bool.

(** The value of the leading digits of [s], given the value [acc] of the
    digits already read. *)
Fixpoint digits_value (s : string) (acc : Z) : Z :=
  match s with
  | String c s' =>
      if is_digit c
      then digits_value s' (10 * acc + Z.of_nat (nat_of_ascii c - 48))
      else acc
  | EmptyString => acc
  end.

Definition starts_with_digit (s : string) : bool :=
  match s with String c _ => is_digit c | EmptyString => false end.

(** [parseInt(s, 10)]; [None] stands for [NaN], which is also the value
    for [undefined]. *)
Definition parseInt (o : option string) : option Z :=
  match o with
  | None => None
  | Some s =>
      match trimStart s with
      | String "-" s' =>
          if starts_with_digit s' then Some (- digits_value s' 0) else None
      | String "+" s' =>
          if starts_with_digit s' then Some (digits_value s' 0) else None
      | s' => if starts_with_digit s' then Some (digits_value s' 0) else None
      end
  end.

End Js.

(* ===================================================================== *)
(** ** Errors and results *)
(* ===================================================================== *)

(** Values that the code throws: [new Error(message)], the system errors
    of the [fs] module, which carry a code, the failing call and the
    paths involved, and the errors with which Node refuses an argument:
    the name of their class ([RangeError], [TypeError]), their code and
    the argument concerned. *)
Inductive JsError : Type :=
| Error (message : string)
| SystemError (code syscall path : string) (dest : option string)
| ArgumentError (name code argument : string).

(** Outcome of a synchronous call. *)
Inductive result (A : Type) : Type :=
| Ok (a : A)
| Throw (e : JsError).
Arguments Ok {A} a.
Arguments Throw {A} e.

(* ===================================================================== *)
(** ** The host: [path], [os] and [process.env] *)
(* ===================================================================== *)

(** What the program takes from the Node runtime. The [path] functions are
    those of the platform the server runs on. *)
Record Host : Type := {
  path_normalize : string → string;
  path_join : string → string → string;
  path_dirname : string → string;
  os_tmpdir : string;
  os_homedir : string;
  process_env : gmap string string
}.

(** The module-level constants, read once from the environment. *)
Record Config : Type := {
  ALLOWED_DRIVES : list string;
  ALLOWED_PATHS : list string;
  PYTHON_PATH : string;
  PYTHON_TIMEOUT : Z;
  PYTHON_MAX_TIMEOUT : Z;
  POWERSHELL_PATH : string;
  POWERSHELL_TIMEOUT : Z;
  POWERSHELL_MAX_TIMEOUT : Z
}.

(** [(process.env.ALLOWED_DRIVES || 'C,F').split(',')] *)
Definition ALLOWED_DRIVES_of (v : option string) : list string :=
  Js.split "," (if Js.truthy_opt v then default "" v else "C,F").

(** [(process.env.ALLOWED_PATHS || '').split(',').filter(p => p)] *)
Definition ALLOWED_PATHS_of (v : option string) : list string :=
  List.filter Js.truthy (Js.split "," (if Js.truthy_opt v then default "" v else "")).

(* ===================================================================== *)
(** ** AccessGuard: [validatePath] *)
(* ===================================================================== *)

Section AccessGuard.
Context (host : Host) (cfg : Config).

(** The message of the error thrown on denial. *)
Definition access_denied_message (normalized : string) : string :=
  "Access denied: Path " +:+ normalized +:+
  " not in allowed list (drives: " +:+ Js.join ", " (ALLOWED_DRIVES cfg) +:+
  ", paths: " +:+
  (let ps := Js.join ", " (ALLOWED_PATHS cfg) in
   if Js.truthy ps then ps else "none") +:+ ")".

(** The [for (const allowedPath of ALLOWED_PATHS)] loop: [true] when some
    configured prefix matches. *)
Fixpoint matches_allowed_path (normalized : string) (paths : list string) : bool :=
  match paths with
  | [] => false
  | allowedPath :: rest =>
      if Js.startsWith normalized allowedPath then true
      else matches_allowed_path normalized rest
  end.

Definition validatePath (filePath : string) : result string :=
  let normalized := path_normalize host filePath in
  if (Js.startsWith normalized "/mnt/" &&
      Js.includes_units (ALLOWED_DRIVES cfg)
        (Js.toUpperCase (Js.charAt 5 normalized)))%bool
  then Ok normalized
  else if (Js.startsWith normalized "/home/" || Js.startsWith normalized "/tmp/")%bool
  then Ok normalized
  else if matches_allowed_path normalized (ALLOWED_PATHS cfg)
  then Ok normalized
  else
    let drive := Js.toUpperCase (Js.charAt 0 normalized) in
    if Js.includes_units (ALLOWED_DRIVES cfg) drive
    then Ok normalized
    else Throw (Error (access_denied_message normalized)).

(** The rule the code implements, stated declaratively. The character
    taken from the path is upper-cased; the configured entries are
    compared as they are. *)
Definition permitted (normalized : string) : Prop :=
  (Js.startsWith normalized "/mnt/" = true ∧
     Js.toUpperCase (Js.charAt 5 normalized) ∈ map Js.code_units (ALLOWED_DRIVES cfg))
  ∨ Js.startsWith normalized "/home/" = true
  ∨ Js.startsWith normalized "/tmp/" = true
  ∨ (∃ allowedPath, allowedPath ∈ ALLOWED_PATHS cfg ∧
       Js.startsWith normalized allowedPath = true)
  ∨ Js.toUpperCase (Js.charAt 0 normalized) ∈ map Js.code_units (ALLOWED_DRIVES cfg).

(** Equality of two strings up to the case of their letters. *)
Definition eq_ignore_case (a b : string) : bool :=
  bool_decide (Js.toUpperCase a = Js.toUpperCase b).

(** The rule as the specification words it: the drive character of the
    path is, case-insensitively, one of the configured drive letters,
    that is, equal to a configured entry up to case. *)
Definition spec_permitted (normalized : string) : bool :=
  (Js.startsWith normalized "/home/"
   || Js.startsWith normalized "/tmp/"
   || (Js.startsWith normalized "/mnt/" &&
       existsb (eq_ignore_case (Js.charAt 5 normalized)) (ALLOWED_DRIVES cfg))
   || existsb (Js.startsWith normalized) (ALLOWED_PATHS cfg)
   || existsb (eq_ignore_case (Js.charAt 0 normalized)) (ALLOWED_DRIVES cfg))%bool.

End AccessGuard.

(* ===================================================================== *)
(** ** A POSIX host *)
(* ===================================================================== *)

(** Node's [path.posix] functions, as documented, for running the model on
    concrete paths. *)
Module Posix.

(** The segment walk of [normalizeString]: empty and ["."] segments are
    dropped, [".."] removes the segment before it, or is kept when there
    is none and the path is relative. [stack] holds the kept segments,
    last first. *)
Fixpoint normalize_segments (allowAboveRoot : bool) (segs stack : list string)
  : list string :=
  match segs with
  | [] => rev stack
  | seg :: rest =>
      if (String.eqb seg "" || String.eqb seg ".")%bool then
        normalize_segments allowAboveRoot rest stack
      else if String.eqb seg ".." then
        match stack with
        | top :: below =>
            if String.eqb top ".." then
              normalize_segments allowAboveRoot rest
                (if allowAboveRoot then ".." :: stack else stack)
            else normalize_segments allowAboveRoot rest below
        | [] =>
            normalize_segments allowAboveRoot rest
              (if allowAboveRoot then [".."] else [])
        end
      else normalize_segments allowAboveRoot rest (seg :: stack)
  end.

Definition last_char (s : string) : option ascii :=
  String.get (String.length s - 1) s.

Definition is_slash (o : option ascii) : bool :=
  match o with Some c => Ascii.eqb c "/"%char | None => false end.

Definition normalize (p : string) : string :=
  if String.eqb p "" then "."
  else
    let isAbsolute := is_slash (String.get 0 p) in
    let trailingSeparator := is_slash (last_char p) in
    let body :=
      Js.join "/" (normalize_segments (negb isAbsolute) (Js.split "/" p) []) in
    if String.eqb body "" then
      if isAbsolute then "/" else if trailingSeparator then "./" else "."
    else
      (if isAbsolute then "/" else "") +:+ body +:+
      (if trailingSeparator then "/" else "").

Definition join (a b : string) : string :=
  let parts := List.filter Js.truthy [a; b] in
  match parts with
  | [] => "."
  | _ => normalize (Js.join "/" parts)
  end.

Fixpoint drop_while (f : ascii → bool) (s : string) : string :=
  match s with
  | EmptyString => EmptyString
  | String c s' => if f c then drop_while f s' else s
  end.

Definition dirname (p : string) : string :=
  match p with
  | EmptyString => "."
  | String c0 rest =>
      let hasRoot := Ascii.eqb c0 "/"%char in
      let slash := fun c => Ascii.eqb c "/"%char in
      let r := drop_while (fun c => negb (slash c))
                 (drop_while slash (Js.rev_string rest "")) in
      match r with
      | EmptyString => if hasRoot then "/" else "."
      | String _ before =>
          if (hasRoot && String.eqb before "")%bool then "//"
          else String c0 (Js.rev_string before "")
      end
  end.

Definition host (tmpdir homedir : string) (env : gmap string string) : Host :=
  {| path_normalize := normalize;
     path_join := join;
     path_dirname := dirname;
     os_tmpdir := tmpdir;
     os_homedir := homedir;
     process_env := env |}.

End Posix.

(* ===================================================================== *)
(** ** The world: files, clock, child processes *)
(* ===================================================================== *)

(** The arguments of one [spawn(command, args, options)] call. *)
Record SpawnRequest : Type := {
  sp_command : string;
  sp_args : list string;
  sp_cwd : string;
  sp_env : gmap string string;
  sp_stdio : list string;
  sp_timeout : option Z;
  sp_windowsHide : bool
}.

(** What the event loop delivers for a running child: the passing of time,
    chunks on the two pipes, the ['exit'] event (the process has ended),
    the ['close'] event (its pipes are closed too) with the exit code
    ([None] for [null], a child ended by a signal), and the ['error']
    event. *)
Inductive ProcEvent : Type :=
| Tick (dt : Z)
| StdoutData (data : string)
| StderrData (data : string)
| Exit
| Close (code : option Z)
| SpawnFailure (message : string).

(** A child process as the server sees it:
    - [refusal]: the error [spawn] itself raises for the request, if any
      (Node raises what the system reports other than [EACCES], [EAGAIN],
      [EMFILE], [ENFILE] and [ENOENT], which arrive as ['error'] events);
    - [events]: the events the child causes once started;
    - [fs_effect]: what it does to the file store while it runs;
    - [pins]: the files that cannot be removed after it ran (a handle
      still open, a changed permission), each with the error [unlink]
      then fails with. *)
Record Child : Type := {
  events : list ProcEvent;
  fs_effect : gmap string string → gmap string string;
  refusal : option JsError;
  pins : gmap string JsError
}.

(** The effects a call has on its environment, in the order performed:
    files copied, written and removed, calls of [spawn] with their
    arguments, and calls of [kill] on the child. *)
Inductive Effect : Type :=
| EvCopyFile (src dst : string)
| EvWriteFile (path content : string)
| EvUnlink (path : string)
| EvSpawn (req : SpawnRequest)
| EvKill (signal : string).

(** The state a call runs in: the file store, the clock read by
    [Date.now()], the effects performed so far, the behaviour of every
    child that may be spawned, the values [Math.random()] yields, and the
    files pinned by the children the call has run. *)
Record State : Type := {
  files : gmap string string;
  now : Z;
  effects : list Effect;
  children : SpawnRequest → Child;
  entropy : nat → string;
  draws : nat;
  pinned : gmap string JsError
}.

(** The state in which a tool call starts: the call has run no child
    yet, so nothing is pinned. *)
Record World : Type := {
  state :> State;
  nothing_pinned : pinned state = ∅
}.

(** A [World] may be written where the state after a call is expected. *)
Arguments pair {A B}%_type_scope & a b.

(** Outcome of an asynchronous call: a value, a thrown error (a rejected
    promise), or a promise that is never settled. *)
Inductive outcome (A : Type) : Type :=
| Returned (a : A)
| Threw (e : JsError)
| Pending.
Arguments Returned {A} a.
Arguments Threw {A} e.
Arguments Pending {A}.

Definition Async (A : Type) : Type := State → outcome A * State.

Definition ret {A} (a : A) : Async A := fun w => (Returned a, w).

Definition throw {A} (e : JsError) : Async A := fun w => (Threw e, w).

Definition bind {A B} (m : Async A) (k : A → Async B) : Async B :=
  fun w =>
    match m w with
    | (Returned a, w') => k a w'
    | (Threw e, w') => (Threw e, w')
    | (Pending, w') => (Pending, w')
    end.

Declare Scope async_scope.
Delimit Scope async_scope with async.
Notation "x <- m ;; k" := (bind m (fun x => k))
  (at level 100, m at next level, right associativity) : async_scope.
Notation "m ;;; k" := (bind m (fun _ => k))
  (at level 100, right associativity) : async_scope.
Open Scope async_scope.

(** A synchronous call inside an asynchronous function. *)
Definition lift {A} (r : result A) : Async A :=
  match r with
  | Ok a => ret a
  | Throw e => throw e
  end.

(** [try { body } catch (e) { handler(e) }] *)
Definition try_catch {A} (body : Async A) (handler : JsError → Async A) : Async A :=
  fun w =>
    match body w with
    | (Threw e, w') => handler e w'
    | other => other
    end.

(** [try { body } finally { fin }]: [fin] runs when [body] returns or
    throws, not while [body] is still waiting. *)
Definition try_finally {A} (body : Async A) (fin : Async unit) : Async A :=
  fun w =>
    match body w with
    | (Pending, w') => (Pending, w')
    | (o, w') =>
        match fin w' with
        | (Returned _, w'') => (o, w'')
        | (Threw e, w'') => (Threw e, w'')
        | (Pending, w'') => (Pending, w'')
        end
    end.

Definition record_effect (e : Effect) (w : State) : State :=
  {| files := files w; now := now w; effects := effects w ++ [e];
     children := children w; entropy := entropy w; draws := draws w;
     pinned := pinned w |}.

Definition set_files (fs : gmap string string) (w : State) : State :=
  {| files := fs; now := now w; effects := effects w;
     children := children w; entropy := entropy w; draws := draws w;
     pinned := pinned w |}.

(** [Date.now()] *)
Definition Date_now : Async Z := fun w => (Returned (now w), w).

(** [Math.random().toString(36).slice(2)] *)
Definition Math_random_36 : Async string :=
  fun w =>
    (Returned (entropy w (draws w)),
     {| files := files w; now := now w; effects := effects w;
        children := children w; entropy := entropy w; draws := S (draws w);
        pinned := pinned w |}).

(** *** The [fs] primitives *)

(** The store holds text: the content of a file is the string whose
    UTF-8 encoding the file consists of, which is what
    [fs.writeFile(p, content, 'utf8')] stores and [fs.readFile(p, 'utf8')]
    yields. *)

Definition ENOENT (syscall path : string) (dest : option string) : JsError :=
  SystemError "ENOENT" syscall path dest.

(** [fsSync.existsSync(p)] *)
Definition fs_existsSync (p : string) : Async bool :=
  fun w => (Returned (match files w !! p with Some _ => true | None => false end), w).

(** [fs.copyFile(src, dst)] *)
Definition fs_copyFile (src dst : string) : Async unit :=
  fun w =>
    match files w !! src with
    | Some content =>
        (Returned tt, record_effect (EvCopyFile src dst) (set_files (<[dst := content]> (files w)) w))
    | None => (Threw (ENOENT "copyfile" src (Some dst)), w)
    end.

(** [fs.writeFile(p, content, 'utf8')] *)
Definition fs_writeFile (p content : string) : Async unit :=
  fun w =>
    (Returned tt, record_effect (EvWriteFile p content) (set_files (<[p := content]> (files w)) w)).

(** [fs.readFile(p, 'utf8')] *)
Definition fs_readFile (p : string) : Async string :=
  fun w =>
    match files w !! p with
    | Some content => (Returned content, w)
    | None => (Threw (ENOENT "open" p None), w)
    end.

(** [(await fs.stat(p)).size]: the size in bytes. *)
Definition fs_stat_size (p : string) : Async Z :=
  fun w =>
    match files w !! p with
    | Some content => (Returned (Js.utf8_length content), w)
    | None => (Threw (ENOENT "stat" p None), w)
    end.

(** [fs.unlink(p)]: fails where nothing exists, and on a pinned file,
    which stays. *)
Definition fs_unlink (p : string) : Async unit :=
  fun w =>
    match files w !! p with
    | Some _ =>
        match pinned w !! p with
        | Some e => (Threw e, w)
        | None =>
            (Returned tt, record_effect (EvUnlink p) (set_files (delete p (files w)) w))
        end
    | None => (Threw (ENOENT "unlink" p None), w)
    end.

(** The file store after a sequence of effects. *)
Definition apply_effect (fs : gmap string string) (e : Effect) : gmap string string :=
  match e with
  | EvCopyFile src dst =>
      match fs !! src with Some c => <[dst := c]> fs | None => fs end
  | EvWriteFile p c => <[p := c]> fs
  | EvUnlink p => delete p fs
  | EvSpawn _ | EvKill _ => fs
  end.

Definition replay (es : list Effect) (fs : gmap string string) : gmap string string :=
  fold_left apply_effect es fs.

(* ===================================================================== *)
(** ** FileOperations with BackupVault: [writeFile], [deleteFile] *)
(* ===================================================================== *)

Record WriteResult : Type := {
  wr_success : bool;
  wr_path : string;
  wr_size : Z;
  backup_created : bool
}.

Record DeleteResult : Type := {
  dr_success : bool;
  dr_path : string;
  backup_path : option string
}.

Section FileOperations.
Context (host : Host) (cfg : Config).

(** The name of the backup made by [writeFile] at time [t]. *)
Definition write_backup_path (validated : string) (t : Z) : string :=
  validated +:+ ".backup_" +:+ pretty t.

(** The name of the backup made by [deleteFile] at time [t]. *)
Definition delete_backup_path (validated : string) (t : Z) : string :=
  validated +:+ ".deleted_" +:+ pretty t.

Definition writeFile (filePath content : string) (createBackup : bool)
  : Async WriteResult :=
  try_catch
    (validated <- lift (validatePath host cfg filePath) ;;
     present <- (if createBackup then fs_existsSync validated else ret false) ;;
     (if present then
        t <- Date_now ;;
        fs_copyFile validated (write_backup_path validated t)
      else ret tt) ;;;
     fs_writeFile validated content ;;;
     size <- fs_stat_size validated ;;
     made <- (if createBackup then fs_existsSync validated else ret false) ;;
     ret {| wr_success := true; wr_path := validated; wr_size := size;
            backup_created := made |})
    (fun error => throw error).

Definition deleteFile (filePath : string) (createBackup : bool)
  : Async DeleteResult :=
  try_catch
    (validated <- lift (validatePath host cfg filePath) ;;
     backupPath <-
       (if createBackup then
          t <- Date_now ;;
          let backupPath := delete_backup_path validated t in
          fs_copyFile validated backupPath ;;;
          ret (Some backupPath)
        else ret None) ;;
     fs_unlink validated ;;;
     ret {| dr_success := true; dr_path := validated; backup_path := backupPath |})
    (fun error => throw error).

End FileOperations.

(* ===================================================================== *)
(** ** CodeSafetyFilter: the patterns and [checkPythonCodeSafety] *)
(* ===================================================================== *)

Module Regex.

(** The fragment of regular expressions the patterns are written in. *)
Inductive regex : Type :=
| Lit (c : ascii)
| NotChar (c : ascii)
| OneOf (cs : list ascii)
| Space
| WordBoundary
| Cat (r1 r2 : regex)
| Or (r1 r2 : regex)
| Star (r : regex).

(** The characters of the [\w] class. *)
Definition is_word (c : ascii) : bool :=
  let n := nat_of_ascii c in
  (((48 <=? n) && (n <=? 57)) || ((65 <=? n) && (n <=? 90))
   || ((97 <=? n) && (n <=? 122)) || (n =? 95))%nat%bool.

Definition is_word_opt (o : option ascii) : bool :=
  match o with Some c => is_word c | None => false end.

Definition head_char (s : string) : option ascii :=
  match s with String c _ => Some c | EmptyString => None end.

(** The repetition of [body]: each round must consume input, so [fuel]
    rounds are enough when [fuel] is the length of the input. *)
Fixpoint star_loop (body : option ascii → string → (option ascii → string → bool) → bool)
         (k : option ascii → string → bool) (fuel : nat)
         (prev : option ascii) (s : string) {struct fuel} : bool :=
  match fuel with
  | O => k prev s
  | S fuel' =>
      body prev s
        (fun p s' => (String.length s' <? String.length s)%nat &&
                     star_loop body k fuel' p s')
      || k prev s
  end.

(** [accepts r prev s k]: [r] matches a prefix of [s], the character
    before [s] being [prev], and the continuation [k] accepts what is
    left. *)
Fixpoint accepts (r : regex) (prev : option ascii) (s : string)
         (k : option ascii → string → bool) {struct r} : bool :=
  match r with
  | Lit c =>
      match s with
      | String d s' => Ascii.eqb c d && k (Some d) s'
      | EmptyString => false
      end
  | NotChar c =>
      match s with
      | String d s' => negb (Ascii.eqb c d) && k (Some d) s'
      | EmptyString => false
      end
  | OneOf cs =>
      match s with
      | String d s' => existsb (Ascii.eqb d) cs && k (Some d) s'
      | EmptyString => false
      end
  | Space =>
      match s with
      | String d s' => Js.is_space d && k (Some d) s'
      | EmptyString => false
      end
  | WordBoundary =>
      xorb (is_word_opt prev) (is_word_opt (head_char s)) && k prev s
  | Cat r1 r2 => accepts r1 prev s (fun p s' => accepts r2 p s' k)
  | Or r1 r2 => accepts r1 prev s k || accepts r2 prev s k
  | Star r' => star_loop (accepts r') k (String.length s) prev s
  end.

(** What the expressions mean: [Matches r prev s prev' s'] when [r]
    matches the characters between [s] and its suffix [s'], [prev] being
    the character before [s] and [prev'] the character before [s']. *)
Inductive Matches : regex → option ascii → string → option ascii → string → Prop :=
| MLit (c : ascii) (prev : option ascii) (s : string) :
    Matches (Lit c) prev (String c s) (Some c) s
| MNotChar (c d : ascii) (prev : option ascii) (s : string) :
    c ≠ d → Matches (NotChar c) prev (String d s) (Some d) s
| MOneOf (cs : list ascii) (d : ascii) (prev : option ascii) (s : string) :
    In d cs → Matches (OneOf cs) prev (String d s) (Some d) s
| MSpace (d : ascii) (prev : option ascii) (s : string) :
    Js.is_space d = true → Matches Space prev (String d s) (Some d) s
| MWordBoundary (prev : option ascii) (s : string) :
    is_word_opt prev ≠ is_word_opt (head_char s) →
    Matches WordBoundary prev s prev s
| MCat (r1 r2 : regex) (p p1 p2 : option ascii) (s s1 s2 : string) :
    Matches r1 p s p1 s1 → Matches r2 p1 s1 p2 s2 → Matches (Cat r1 r2) p s p2 s2
| MOrL (r1 r2 : regex) (p p' : option ascii) (s s' : string) :
    Matches r1 p s p' s' → Matches (Or r1 r2) p s p' s'
| MOrR (r1 r2 : regex) (p p' : option ascii) (s s' : string) :
    Matches r2 p s p' s' → Matches (Or r1 r2) p s p' s'
| MStarDone (r : regex) (p : option ascii) (s : string) :
    Matches (Star r) p s p s
| MStarMore (r : regex) (p p1 p2 : option ascii) (s s1 s2 : string) :
    Matches r p s p1 s1 → Matches (Star r) p1 s1 p2 s2 → Matches (Star r) p s p2 s2.

(** The character before the end of [a], [prev] being the one before [a]. *)
Fixpoint last_before (prev : option ascii) (a : string) : option ascii :=
  match a with
  | EmptyString => prev
  | String c a' => last_before (Some c) a'
  end.

(** A match starting at some position of [s]. *)
Fixpoint search (r : regex) (prev : option ascii) (s : string) : bool :=
  accepts r prev s (fun _ _ => true) ||
  match s with
  | String c s' => search r (Some c) s'
  | EmptyString => false
  end.

(** [pattern.test(s)] for a pattern without flags. *)
Definition test (r : regex) (s : string) : bool := search r None s.

(** The concatenation of the characters of a word. *)
Fixpoint word (first : ascii) (rest : string) : regex :=
  match rest with
  | EmptyString => Lit first
  | String c rest' => Cat (Lit first) (word c rest')
  end.

(** A pattern object: the expression and its source text. *)
Record Pattern : Type := { re : regex; source : string }.

(** [pattern.toString()] *)
Definition toString (p : Pattern) : string := "/" +:+ source p +:+ "/".

End Regex.

Import Regex.

(** [\b] followed by a name, optional white space and an opening bracket:
    the shape of nine of the ten patterns. *)
Definition call_of (first : ascii) (rest : string) : regex :=
  Cat WordBoundary (Cat (word first rest) (Cat (Star Space) (Lit "("%char))).

Definition double_quote : ascii := "034"%char.

Definition DANGEROUS_PATTERNS : list Pattern :=
  [ {| re := call_of "o" "s.system"; source := "\bos\.system\s*\(" |};
    {| re := Cat WordBoundary
               (Cat (word "s" "ubprocess.")
                  (Cat (Or (word "c" "all") (Or (word "r" "un") (word "P" "open")))
                     (Cat (Star Space) (Lit "("%char))));
       source := "\bsubprocess\.(call|run|Popen)\s*\(" |};
    {| re := call_of "e" "val"; source := "\beval\s*\(" |};
    {| re := call_of "e" "xec"; source := "\bexec\s*\(" |};
    {| re := call_of "_" "_import__"; source := "\b__import__\s*\(" |};
    {| re := Cat (call_of "o" "pen")
               (Cat (Star (NotChar ")"%char))
                  (Cat (OneOf ["'"%char; double_quote])
                     (OneOf ["w"%char; "a"%char])));
       source := "\bopen\s*\([^)]*['" +:+ String double_quote "][wa]" |};
    {| re := call_of "s" "hutil.rmtree"; source := "\bshutil\.rmtree\s*\(" |};
    {| re := call_of "o" "s.remove"; source := "\bos\.remove\s*\(" |};
    {| re := call_of "o" "s.unlink"; source := "\bos\.unlink\s*\(" |};
    {| re := call_of "o" "s.rmdir"; source := "\bos\.rmdir\s*\(" |} ].

Record SafetyCheck : Type := { safe : bool; reason : option string }.

(** The loop of [checkPythonCodeSafety] over a list of patterns. *)
Fixpoint scan_patterns (code : string) (patterns : list Pattern) : SafetyCheck :=
  match patterns with
  | [] => {| safe := true; reason := None |}
  | pattern :: rest =>
      if test (re pattern) code then
        {| safe := false;
           reason := Some ("Dangerous pattern detected: " +:+ toString pattern) |}
      else scan_patterns code rest
  end.

Definition checkPythonCodeSafety (code : string) : SafetyCheck :=
  scan_patterns code DANGEROUS_PATTERNS.

(* ===================================================================== *)
(** ** ProcessRunner: the promise around [spawn] *)
(* ===================================================================== *)

Record ExecResult : Type := {
  success : bool;
  exit_code : option Z;
  stdout : string;
  stderr : string;
  duration_ms : Z;
  error : option string;
  script_path : option string;
  working_directory : string;
  code_preview : option string
}.

(** The variables the handlers close over. [l_noun] is the first word of
    the timeout message (the three runners differ in it and in whether
    the result names a script). *)
Record Launch : Type := {
  l_noun : string;
  l_script_path : option string;
  l_workDir : string;
  l_safeTimeout : Z
}.

(** The longest delay a timer takes. *)
Definition TIMEOUT_MAX : Z := 2147483647.

(** The delay [setTimeout(callback, after)] runs with: a delay below 1 or
    above [TIMEOUT_MAX] is replaced by 1. *)
Definition timer_delay (after : Z) : Z :=
  if ((1 <=? after) && (after <=? TIMEOUT_MAX))%bool then after else 1.

(** With a positive [timeout] option [spawn] arms a timer of its own,
    whose callback calls [kill] with the default signal and which the
    ['exit'] event clears. *)
Definition spawn_timer_armed (req : SpawnRequest) : bool :=
  match sp_timeout req with Some t => 0 <? t | None => false end.

Definition spawn_timer_delay (req : SpawnRequest) : Z :=
  timer_delay (default 0 (sp_timeout req)).

(** The state of one promise: the capture buffers, the [killed] flag, the
    timer of the code, the timer of [spawn], the settled value, the clock,
    and the [kill] calls made so far. *)
Record Proc : Type := {
  p_stdout : string;
  p_stderr : string;
  p_killed : bool;
  p_timer : bool;
  p_spawn_timer : bool;
  p_settled : option ExecResult;
  p_startTime : Z;
  p_clock : Z;
  p_signals : list string
}.

Definition proc_start (req : SpawnRequest) (t : Z) : Proc :=
  {| p_stdout := ""; p_stderr := ""; p_killed := false; p_timer := true;
     p_spawn_timer := spawn_timer_armed req;
     p_settled := None; p_startTime := t; p_clock := t; p_signals := [] |}.

(** [resolve(r)]: only the first call settles the promise. *)
Definition resolve (r : ExecResult) (p : Proc) : Proc :=
  match p_settled p with
  | Some _ => p
  | None =>
      {| p_stdout := p_stdout p; p_stderr := p_stderr p; p_killed := p_killed p;
         p_timer := p_timer p; p_spawn_timer := p_spawn_timer p;
         p_settled := Some r; p_startTime := p_startTime p;
         p_clock := p_clock p; p_signals := p_signals p |}
  end.

(** [clearTimeout(timeoutId)] *)
Definition clearTimeout (p : Proc) : Proc :=
  {| p_stdout := p_stdout p; p_stderr := p_stderr p; p_killed := p_killed p;
     p_timer := false; p_spawn_timer := p_spawn_timer p;
     p_settled := p_settled p; p_startTime := p_startTime p;
     p_clock := p_clock p; p_signals := p_signals p |}.

(** The [setTimeout] callback: [killed = true; proc.kill('SIGTERM')]. *)
Definition on_timeout (p : Proc) : Proc :=
  {| p_stdout := p_stdout p; p_stderr := p_stderr p; p_killed := true;
     p_timer := false; p_spawn_timer := p_spawn_timer p;
     p_settled := p_settled p; p_startTime := p_startTime p;
     p_clock := p_clock p; p_signals := p_signals p ++ ["SIGTERM"] |}.

(** The callback of the timer of [spawn]: [child.kill(killSignal)]. *)
Definition on_spawn_timeout (p : Proc) : Proc :=
  {| p_stdout := p_stdout p; p_stderr := p_stderr p; p_killed := p_killed p;
     p_timer := p_timer p; p_spawn_timer := false;
     p_settled := p_settled p; p_startTime := p_startTime p;
     p_clock := p_clock p; p_signals := p_signals p ++ ["SIGTERM"] |}.

(** Time passes; an armed timer runs its callback once its delay is over,
    the timer of [spawn], armed first, before the timer of the code. *)
Definition on_tick (L : Launch) (req : SpawnRequest) (dt : Z) (p : Proc) : Proc :=
  let p1 :=
    {| p_stdout := p_stdout p; p_stderr := p_stderr p; p_killed := p_killed p;
       p_timer := p_timer p; p_spawn_timer := p_spawn_timer p;
       p_settled := p_settled p; p_startTime := p_startTime p;
       p_clock := p_clock p + dt; p_signals := p_signals p |} in
  let elapsed := p_clock p1 - p_startTime p1 in
  let p2 :=
    if (p_spawn_timer p1 && (spawn_timer_delay req <=? elapsed))%bool
    then on_spawn_timeout p1 else p1 in
  if (p_timer p2 && (timer_delay (l_safeTimeout L) <=? elapsed))%bool
  then on_timeout p2 else p2.

(** [proc.stdout.on('data', ...)] *)
Definition on_stdout (data : string) (p : Proc) : Proc :=
  {| p_stdout := p_stdout p +:+ data; p_stderr := p_stderr p; p_killed := p_killed p;
     p_timer := p_timer p; p_spawn_timer := p_spawn_timer p;
     p_settled := p_settled p; p_startTime := p_startTime p;
     p_clock := p_clock p; p_signals := p_signals p |}.

(** [proc.stderr.on('data', ...)] *)
Definition on_stderr (data : string) (p : Proc) : Proc :=
  {| p_stdout := p_stdout p; p_stderr := p_stderr p +:+ data; p_killed := p_killed p;
     p_timer := p_timer p; p_spawn_timer := p_spawn_timer p;
     p_settled := p_settled p; p_startTime := p_startTime p;
     p_clock := p_clock p; p_signals := p_signals p |}.

(** The ['exit'] event: the code has no handler for it; [spawn] clears
    its timer. *)
Definition on_exit (p : Proc) : Proc :=
  {| p_stdout := p_stdout p; p_stderr := p_stderr p; p_killed := p_killed p;
     p_timer := p_timer p; p_spawn_timer := false;
     p_settled := p_settled p; p_startTime := p_startTime p;
     p_clock := p_clock p; p_signals := p_signals p |}.

(** The text of the timeout reason. *)
Definition timeout_message (L : Launch) : string :=
  l_noun L +:+ " killed after timeout (" +:+ pretty (l_safeTimeout L) +:+ "ms)".

(** [code === 0] *)
Definition is_zero (code : option Z) : bool :=
  match code with Some 0 => true | _ => false end.

(** [proc.on('close', ...)] *)
Definition on_close (L : Launch) (code : option Z) (p : Proc) : Proc :=
  let p := clearTimeout p in
  let duration := p_clock p - p_startTime p in
  if p_killed p then
    resolve {| success := false; exit_code := Some (-1);
               stdout := p_stdout p; stderr := p_stderr p;
               duration_ms := duration;
               error := Some (timeout_message L);
               script_path := l_script_path L;
               working_directory := l_workDir L;
               code_preview := None |} p
  else
    resolve {| success := is_zero code; exit_code := code;
               stdout := p_stdout p; stderr := p_stderr p;
               duration_ms := duration;
               error := None;
               script_path := l_script_path L;
               working_directory := l_workDir L;
               code_preview := None |} p.

(** [proc.on('error', ...)] *)
Definition on_error (L : Launch) (message : string) (p : Proc) : Proc :=
  let p := clearTimeout p in
  let duration := p_clock p - p_startTime p in
  resolve {| success := false; exit_code := Some (-1);
             stdout := p_stdout p; stderr := p_stderr p;
             duration_ms := duration;
             error := Some message;
             script_path := l_script_path L;
             working_directory := l_workDir L;
             code_preview := None |} p.

Definition on_event (L : Launch) (req : SpawnRequest) (p : Proc) (ev : ProcEvent)
  : Proc :=
  match ev with
  | Tick dt => on_tick L req dt p
  | StdoutData data => on_stdout data p
  | StderrData data => on_stderr data p
  | Exit => on_exit p
  | Close code => on_close L code p
  | SpawnFailure message => on_error L message p
  end.

(** The events are handled in order until the promise is settled: the
    caller resumes then, and what the child does later is not part of
    the call. *)
Fixpoint run_events (L : Launch) (req : SpawnRequest) (evs : list ProcEvent)
    (p : Proc) : Proc :=
  match evs with
  | [] => p
  | ev :: rest =>
      match p_settled p with
      | Some _ => p
      | None => run_events L req rest (on_event L req p ev)
      end
  end.

(** The body of [new Promise(...)] once [spawn] has returned the child,
    awaited: the events of the child are handled, and the caller resumes
    with the settled value, if there is one. *)
Definition spawn_and_wait (L : Launch) (req : SpawnRequest) : Async ExecResult :=
  fun w =>
    let child := children w req in
    let p := run_events L req (events child) (proc_start req (now w)) in
    let w' :=
      {| files := fs_effect child (files w);
         now := p_clock p;
         effects := effects w ++ EvSpawn req :: map EvKill (p_signals p);
         children := children w; entropy := entropy w; draws := draws w;
         pinned := pins child ∪ pinned w |} in
    (match p_settled p with Some r => Returned r | None => Pending end, w').

(** The error [spawn] raises instead of returning a child: a [timeout]
    option that is not an unsigned integer is out of range, and the
    system may refuse the request. *)
Definition spawn_refusal (w : State) (req : SpawnRequest) : option JsError :=
  match sp_timeout req with
  | Some t =>
      if t <? 0 then Some (ArgumentError "RangeError" "ERR_OUT_OF_RANGE" "timeout")
      else refusal (children w req)
  | None => refusal (children w req)
  end.

(** [new Promise((resolve, reject) => { ... })], awaited. An error raised
    by [spawn] inside the executor rejects the promise; no child exists
    then. *)
Definition spawn_promise (L : Launch) (req : SpawnRequest) : Async ExecResult :=
  fun w =>
    match spawn_refusal w req with
    | Some e => (Threw e, record_effect (EvSpawn req) w)
    | None => spawn_and_wait L req w
    end.

(** [Math.min(Math.max(timeout, 1000), max)] *)
Definition safe_timeout (timeout max : Z) : Z := Z.min (Z.max timeout 1000) max.

Definition stdio_ignore_pipe_pipe : list string := ["ignore"; "pipe"; "pipe"].

(* ===================================================================== *)
(** ** InterpreterFacade and the PowerShell runners *)
(* ===================================================================== *)

(** The three shapes [checkPythonSyntax] returns; [valid] is [true] for
    the first only. *)
Inductive SyntaxResult : Type :=
| SyntaxOk (message source : string)
| SyntaxInvalid (line_number offset : option Z) (error : string) (source : string)
| SyntaxUnchecked (errors : list string) (source : string).

Definition valid (r : SyntaxResult) : bool :=
  match r with SyntaxOk _ _ => true | _ => false end.

Definition newline : string := String "010"%char "".

Section Interpreters.
Context (host : Host) (cfg : Config).

(** [{...process.env, PYTHONUNBUFFERED: '1', PYTHONDONTWRITEBYTECODE: '1', ...env}]:
    later entries replace earlier ones. *)
Definition python_env (env : gmap string string) : gmap string string :=
  env ∪ (<["PYTHONDONTWRITEBYTECODE" := "1"]>
           (<["PYTHONUNBUFFERED" := "1"]> (process_env host))).

(** [cwd ? validatePath(cwd) : fallback] *)
Definition choose_workDir (cwd : option string) (fallback : string) : result string :=
  match cwd with
  | Some d => if Js.truthy d then validatePath host cfg d else Ok fallback
  | None => Ok fallback
  end.

(** The [spawn] call of [runPythonScript]. *)
Definition python_request (validated : string) (args : list string)
    (workDir : string) (safeTimeout : Z) (env : gmap string string) : SpawnRequest :=
  {| sp_command := PYTHON_PATH cfg;
     sp_args := validated :: args;
     sp_cwd := workDir;
     sp_env := python_env env;
     sp_stdio := stdio_ignore_pipe_pipe;
     sp_timeout := Some safeTimeout;
     sp_windowsHide := true |}.

(** The [spawn] call of the two PowerShell runners, which differ in the
    last arguments. *)
Definition powershell_request (tail : list string) (workDir : string) : SpawnRequest :=
  {| sp_command := POWERSHELL_PATH cfg;
     sp_args := ["-NoProfile"; "-NonInteractive"; "-ExecutionPolicy"; "Bypass"] ++ tail;
     sp_cwd := workDir;
     sp_env := process_env host;
     sp_stdio := stdio_ignore_pipe_pipe;
     sp_timeout := None;
     sp_windowsHide := true |}.

Definition script_not_found (validated : string) : JsError :=
  Error ("Script not found: " +:+ validated).

Definition runPythonScript (scriptPath : string) (args : list string)
    (cwd : option string) (timeout : Z) (env : gmap string string)
  : Async ExecResult :=
  validated <- lift (validatePath host cfg scriptPath) ;;
  present <- fs_existsSync validated ;;
  (if present then ret tt else throw (script_not_found validated)) ;;;
  workDir <- lift (choose_workDir cwd (path_dirname host validated)) ;;
  let safeTimeout := safe_timeout timeout (PYTHON_MAX_TIMEOUT cfg) in
  spawn_promise
    {| l_noun := "Script"; l_script_path := Some validated;
       l_workDir := workDir; l_safeTimeout := safeTimeout |}
    (python_request validated args workDir safeTimeout env).

(** [code.length > 200 ? code.slice(0, 200) + '...' : code] *)
Definition preview (code : string) : string :=
  if (200 <? String.length code)%nat then Js.slice0 200 code +:+ "..." else code.

Definition with_code_preview (r : ExecResult) (code : string) : ExecResult :=
  {| success := success r; exit_code := exit_code r; stdout := stdout r;
     stderr := stderr r; duration_ms := duration_ms r; error := error r;
     script_path := script_path r; working_directory := working_directory r;
     code_preview := Some (preview code) |}.

(** [!s || !s.trim()] *)
Definition blank (s : string) : bool :=
  (negb (Js.truthy s) || negb (Js.truthy (Js.trim s)))%bool.

(** The name of the file that stages inline code. *)
Definition python_temp_file (t : Z) (r : string) : string :=
  path_join host (os_tmpdir host)
    ("darkside_python_" +:+ pretty t +:+ "_" +:+ r +:+ ".py").

(** The cleanup in the [finally] blocks: a failing [unlink] is caught. *)
Definition unlink_quietly (p : string) : Async unit :=
  try_catch (fs_unlink p) (fun _ => ret tt).

Definition runPythonCode (code : string) (timeout : Z) (cwd : option string)
    (env : gmap string string) : Async ExecResult :=
  (if blank code then throw (Error "Code cannot be empty") else ret tt) ;;;
  let safetyCheck := checkPythonCodeSafety code in
  (if safe safetyCheck then ret tt
   else throw (Error ("Security check failed: " +:+
                      default "undefined" (reason safetyCheck)))) ;;;
  let tempDir := os_tmpdir host in
  t <- Date_now ;;
  r <- Math_random_36 ;;
  let tempFile := python_temp_file t r in
  try_finally
    (fs_writeFile tempFile code ;;;
     result <- runPythonScript tempFile []
                 (if Js.truthy_opt cwd then cwd else Some tempDir) timeout env ;;
     ret (with_code_preview result code))
    (unlink_quietly tempFile).

(** The driver that asks the interpreter to parse the code. *)
Definition syntax_driver (codeToCheck : string) : string :=
  newline +:+ "import sys" +:+ newline +:+ "import ast" +:+ newline +:+
  "try:" +:+ newline +:+ "    ast.parse('''" +:+
  Js.replaceAll "'''" "\'\'\'" (Js.replaceAll "\" "\\" codeToCheck) +:+
  "''')" +:+ newline +:+ "    print('SYNTAX_OK')" +:+ newline +:+
  "except SyntaxError as e:" +:+ newline +:+
  "    print(f'SYNTAX_ERROR:{e.lineno}:{e.offset}:{e.msg}')" +:+ newline.

Definition source_of (scriptPath : option string) : string :=
  if Js.truthy_opt scriptPath then "file" else "code".

(** The verdict read from the output of the driver. *)
Definition syntax_verdict (result : ExecResult) (scriptPath : option string)
  : SyntaxResult :=
  if Js.str_includes (stdout result) "SYNTAX_OK" then
    SyntaxOk "Syntax is valid" (source_of scriptPath)
  else if Js.str_includes (stdout result) "SYNTAX_ERROR:" then
    let parts :=
      Js.split ":" (Js.trim (nth 1 (Js.split "SYNTAX_ERROR:" (stdout result)) "")) in
    SyntaxInvalid (Js.parseInt (parts !! 0%nat)) (Js.parseInt (parts !! 1%nat))
      (Js.join ":" (drop 2 parts)) (source_of scriptPath)
  else
    SyntaxUnchecked
      [if Js.truthy (stderr result) then stderr result
       else "Unknown syntax check error"]
      (source_of scriptPath).

Definition checkPythonSyntax (code scriptPath : option string)
  : Async SyntaxResult :=
  (if (negb (Js.truthy_opt code) && negb (Js.truthy_opt scriptPath))%bool
   then throw (Error "Either code or script_path must be provided") else ret tt) ;;;
  (if (Js.truthy_opt code && Js.truthy_opt scriptPath)%bool
   then throw (Error "Provide either code or script_path, not both") else ret tt) ;;;
  let check (codeToCheck : string) : Async SyntaxResult :=
    let tempDir := os_tmpdir host in
    t <- Date_now ;;
    let tempFile := path_join host tempDir ("syntax_check_" +:+ pretty t +:+ ".py") in
    try_finally
      (fs_writeFile tempFile (syntax_driver codeToCheck) ;;;
       result <- runPythonScript tempFile [] (Some tempDir) 5000 ∅ ;;
       ret (syntax_verdict result scriptPath))
      (unlink_quietly tempFile) in
  if Js.truthy_opt scriptPath then
    validated <- lift (validatePath host cfg (default "" scriptPath)) ;;
    present <- fs_existsSync validated ;;
    if present then
      codeToCheck <- fs_readFile validated ;;
      check codeToCheck
    else
      ret (SyntaxUnchecked ["Script not found: " +:+ validated] "file")
  else check (default "" code).

Definition runPowerShell (command : string) (timeout : Z) (cwd : option string)
  : Async ExecResult :=
  (if blank command then throw (Error "Command cannot be empty") else ret tt) ;;;
  let safeTimeout := safe_timeout timeout (POWERSHELL_MAX_TIMEOUT cfg) in
  workDir <- lift (choose_workDir cwd (os_homedir host)) ;;
  spawn_promise
    {| l_noun := "Command"; l_script_path := None;
       l_workDir := workDir; l_safeTimeout := safeTimeout |}
    (powershell_request ["-Command"; command] workDir).

Definition runPowerShellScript (scriptPath : string) (args : list string)
    (timeout : Z) (cwd : option string) : Async ExecResult :=
  validated <- lift (validatePath host cfg scriptPath) ;;
  present <- fs_existsSync validated ;;
  (if present then ret tt else throw (script_not_found validated)) ;;;
  workDir <- lift (choose_workDir cwd (path_dirname host validated)) ;;
  let safeTimeout := safe_timeout timeout (POWERSHELL_MAX_TIMEOUT cfg) in
  spawn_promise
    {| l_noun := "Script"; l_script_path := Some validated;
       l_workDir := workDir; l_safeTimeout := safeTimeout |}
    (powershell_request ("-File" :: validated :: args) workDir).

End Interpreters.

(* ===================================================================== *)
(** ** Vocabulary of the specification *)
(* ===================================================================== *)

(** [clamp(t, MIN, MAX)] as the specification uses it. *)
Definition clamp (t lo hi : Z) : Z :=
  if t <? lo then lo else if hi <? t then hi else t.

(** The minimum every runner uses. *)
Definition MIN_TIMEOUT : Z := 1000.

(** No ['close'] and no ['error'] event: the child is still running. *)
Definition settles (ev : ProcEvent) : bool :=
  match ev with
  | Close _ | SpawnFailure _ => true
  | _ => false
  end.

Definition still_running (evs : list ProcEvent) : bool :=
  forallb (fun ev => negb (settles ev)) evs.

(** The child has been running for [bound] milliseconds or more at some
    moment of [evs], [elapsed] milliseconds having passed before. *)
Fixpoint runs_longer_than (bound elapsed : Z) (evs : list ProcEvent) : bool :=
  match evs with
  | [] => false
  | Tick dt :: rest =>
      (bound <=? elapsed + dt) || runs_longer_than bound (elapsed + dt) rest
  | _ :: rest => runs_longer_than bound elapsed rest
  end.

(** What the child wrote to its standard output during [evs]. *)
Fixpoint written_to_stdout (evs : list ProcEvent) : string :=
  match evs with
  | [] => ""
  | StdoutData d :: rest => d +:+ written_to_stdout rest
  | _ :: rest => written_to_stdout rest
  end.

Fixpoint written_to_stderr (evs : list ProcEvent) : string :=
  match evs with
  | [] => ""
  | StderrData d :: rest => d +:+ written_to_stderr rest
  | _ :: rest => written_to_stderr rest
  end.

(** The time that passes during [evs]. *)
Fixpoint time_passed (evs : list ProcEvent) : Z :=
  match evs with
  | [] => 0
  | Tick dt :: rest => dt + time_passed rest
  | _ :: rest => time_passed rest
  end.

(** The encoding of a process-level failure that the specification
    describes: no success, the sentinel exit code, an error message. *)
Definition failure_encoded (r : ExecResult) : Prop :=
  success r = false ∧ exit_code r = Some (-1) ∧ is_Some (error r).

(** The result of a timeout, as the specification describes it. *)
Definition timeout_result (L : Launch) (pre : list ProcEvent) : ExecResult :=
  {| success := false; exit_code := Some (-1);
     stdout := written_to_stdout pre; stderr := written_to_stderr pre;
     duration_ms := time_passed pre;
     error := Some (l_noun L +:+ " killed after timeout (" +:+
                    pretty (l_safeTimeout L) +:+ "ms)");
     script_path := l_script_path L;
     working_directory := l_workDir L;
     code_preview := None |}.

(** How a settled result encodes what happened to the child, [evs] being
    the events of the child and [safeTimeout] the timeout the timer is
    set with: the first ['error'] or ['close'] event decides, and a
    ['close'] that comes after the timer has run is reported as a
    timeout. *)
Definition encodes_outcome (safeTimeout : Z) (evs : list ProcEvent) (r : ExecResult)
  : Prop :=
  ∃ pre ev post,
    evs = (pre ++ ev :: post)%list ∧ still_running pre = true ∧
    match ev with
    | SpawnFailure m =>
        success r = false ∧ exit_code r = Some (-1) ∧ error r = Some m
    | Close code =>
        if runs_longer_than (timer_delay safeTimeout) 0 pre
        then success r = false ∧ exit_code r = Some (-1) ∧ is_Some (error r)
        else success r = is_zero code ∧ exit_code r = code ∧ error r = None
    | _ => False
    end.

(** No child exists in [w'], the state after [spawn] raised [e] for
    [req] in [w]: the call is on record and nothing else has changed. *)
Definition spawn_refused (w : State) (req : SpawnRequest) (e : JsError) (w' : State)
  : Prop :=
  spawn_refusal w req = Some e ∧ w' = record_effect (EvSpawn req) w.

(** What a runner may do, [w] being the state before the call and [why]
    the errors it may throw of its own: it throws one of these errors
    and leaves everything as it was, or [spawn] raises an error and no
    child exists, or it has started one child and returns a result that
    encodes what happened to it, or it waits for a child that never
    closes. *)
Definition runner_contract (w : State) (safeTimeout : Z) (why : JsError → Prop)
    (run : outcome ExecResult * State) : Prop :=
  match run with
  | (Threw e, w') => (w' = w ∧ why e) ∨ ∃ req, spawn_refused w req e w'
  | (Returned r, w') =>
      ∃ req signals,
        effects w' = (effects w ++ EvSpawn req :: map EvKill signals)%list ∧
        encodes_outcome safeTimeout (events (children w req)) r
  | (Pending, w') =>
      ∃ req, still_running (events (children w req)) = true
  end.

Section ThrownErrors.
Context (host : Host) (cfg : Config).

(** The errors the script runners throw: a denied script path, a missing
    script, a denied working directory. *)
Definition script_runner_throws (w : State) (scriptPath : string)
    (cwd : option string) (e : JsError) : Prop :=
  validatePath host cfg scriptPath = Throw e ∨
  ∃ validated,
    validatePath host cfg scriptPath = Ok validated ∧
    ((files w !! validated = None ∧ e = Error ("Script not found: " +:+ validated)) ∨
     (is_Some (files w !! validated) ∧
      choose_workDir host cfg cwd (path_dirname host validated) = Throw e)).

(** The errors [runPowerShell] throws: an empty or blank command, a
    denied working directory. *)
Definition command_runner_throws (command : string) (cwd : option string)
    (e : JsError) : Prop :=
  (blank command = true ∧ e = Error "Command cannot be empty") ∨
  (blank command = false ∧
   choose_workDir host cfg cwd (os_homedir host) = Throw e).

End ThrownErrors.

(** [t] is what is left of [s] after some characters. *)
Definition is_suffix (t s : string) : Prop := ∃ pre, s = pre +:+ t.

(** The character [c] occurs in [s]. *)
Fixpoint occurs (c : ascii) (s : string) : bool :=
  match s with
  | EmptyString => false
  | String d s' => Ascii.eqb c d || occurs c s'
  end.

(** Every match of [r] contains the character [c]. *)
Fixpoint requires_char (c : ascii) (r : regex) : bool :=
  match r with
  | Lit d => Ascii.eqb c d
  | Cat r1 r2 => requires_char c r1 || requires_char c r2
  | Or r1 r2 => requires_char c r1 && requires_char c r2
  | _ => false
  end.

(* ===================================================================== *)
(** ** A sample installation *)
(* ===================================================================== *)

Module Sample.

Definition host : Host :=
  Posix.host "/tmp" "/home/user" {[ "PATH" := "/usr/bin" ]}.

(** The configuration when no variable is set. *)
Definition cfg : Config :=
  {| ALLOWED_DRIVES := ALLOWED_DRIVES_of None;
     ALLOWED_PATHS := ALLOWED_PATHS_of None;
     PYTHON_PATH := "python";
     PYTHON_TIMEOUT := 30000;
     PYTHON_MAX_TIMEOUT := 300000;
     POWERSHELL_PATH := "powershell.exe";
     POWERSHELL_TIMEOUT := 60000;
     POWERSHELL_MAX_TIMEOUT := 600000 |}.

(** The configuration with [ALLOWED_DRIVES=c]. *)
Definition cfg_lowercase : Config :=
  {| ALLOWED_DRIVES := ALLOWED_DRIVES_of (Some "c");
     ALLOWED_PATHS := ALLOWED_PATHS_of None;
     PYTHON_PATH := "python";
     PYTHON_TIMEOUT := 30000;
     PYTHON_MAX_TIMEOUT := 300000;
     POWERSHELL_PATH := "powershell.exe";
     POWERSHELL_TIMEOUT := 60000;
     POWERSHELL_MAX_TIMEOUT := 600000 |}.

(** A child that is started, causes the events [evs], leaves the
    files alone and pins nothing. *)
Definition child_of (evs : list ProcEvent) : Child :=
  {| events := evs; fs_effect := fun fs => fs; refusal := None; pins := ∅ |}.

(** A state in which every request starts the child [child]. *)
Definition state_with (fs : gmap string string) (child : Child) : State :=
  {| files := fs; now := 1700000000000; effects := [];
     children := fun _ => child;
     entropy := fun _ => "k3x9q"; draws := 0; pinned := ∅ |}.

(** A state in which every child behaves as [evs]. *)
Definition world (fs : gmap string string) (evs : list ProcEvent) : State :=
  state_with fs (child_of evs).

(** The same, as the start of a call. *)
Definition start_with (fs : gmap string string) (child : Child) : World :=
  {| state := state_with fs child; nothing_pinned := eq_refl |}.

Definition start (fs : gmap string string) (evs : list ProcEvent) : World :=
  start_with fs (child_of evs).

End Sample.

(* ===================================================================== *)
(** ** Further operations and vocabulary *)
(* ===================================================================== *)

(** The names [Buffer.isEncoding] accepts, in lower case. *)
Definition ENCODINGS : list string :=
  ["utf8"; "utf-8"; "ucs2"; "ucs-2"; "utf16le"; "utf-16le"; "latin1"; "binary";
   "base64"; "base64url"; "hex"; "ascii"].

(** [Buffer.isEncoding(encoding)]: the name is compared without regard
    to case. *)
Definition Buffer_isEncoding (encoding : string) : bool :=
  Js.includes ENCODINGS (Js.toLowerCase encoding).

(** The check [fs.readFile] makes of its encoding before it opens the
    file: a name that is not empty, is not ['buffer'] and is not
    accepted by [Buffer.isEncoding] is refused. *)
Definition encoding_refused (encoding : string) : bool :=
  (Js.truthy encoding && negb (String.eqb encoding "buffer") &&
   negb (Buffer_isEncoding encoding))%bool.

(** The two names of UTF-8. *)
Definition names_utf8 (encoding : string) : bool :=
  Js.includes ["utf8"; "utf-8"] (Js.toLowerCase encoding).

(** What [fs.readFile(path, encoding)] yields: the text of the file when
    the encoding is UTF-8, and for the other encodings whatever
    [Buffer.toString] makes of the bytes (the [Buffer] itself when the
    encoding is the empty string), which is left to the runtime. *)
Inductive Content (D : Type) : Type :=
| Text (text : string)
| Decoded (d : D).
Arguments Text {D} text.
Arguments Decoded {D} d.

Record ReadResult (D : Type) : Type := {
  rr_success : bool;
  rr_path : string;
  rr_content : Content D;
  rr_size : Z;
  rr_encoding : string
}.
Arguments rr_success {D} r.
Arguments rr_path {D} r.
Arguments rr_content {D} r.
Arguments rr_size {D} r.
Arguments rr_encoding {D} r.

Section ReadFile.
Context (host : Host) (cfg : Config).

(** [decode encoding text]: what [Buffer.toString(encoding)] makes of the
    UTF-8 bytes of [text], for an encoding other than UTF-8. *)
Context {D : Type} (decode : string → string → D).

(** [fs.readFile(p, encoding)] for an encoding given as a string. A name
    that is neither empty, nor ['buffer'], nor accepted by
    [Buffer.isEncoding] is refused before the file is opened; ['buffer']
    passes that check and is refused by [Buffer.toString] once the file
    has been read. *)
Definition fs_readFile_as (p encoding : string) : Async (Content D) :=
  fun w =>
    if encoding_refused encoding
    then (Threw (ArgumentError "TypeError" "ERR_INVALID_ARG_VALUE" "encoding"), w)
    else
      match files w !! p with
      | None => (Threw (ENOENT "open" p None), w)
      | Some text =>
          if names_utf8 encoding then (Returned (Text text), w)
          else if String.eqb encoding "buffer"
          then (Threw (ArgumentError "TypeError" "ERR_UNKNOWN_ENCODING" "encoding"), w)
          else (Returned (Decoded (decode encoding text)), w)
      end.

(** [readFile(filePath, encoding)]; the caller passes ['utf8'] when no
    encoding is asked for. *)
Definition readFile (filePath encoding : string) : Async (ReadResult D) :=
  try_catch
    (validated <- lift (validatePath host cfg filePath) ;;
     content <- fs_readFile_as validated encoding ;;
     size <- fs_stat_size validated ;;
     ret {| rr_success := true; rr_path := validated; rr_content := content;
            rr_size := size; rr_encoding := encoding |})
    (fun error => throw error).

End ReadFile.

(** The state in which staged code is run: a value of [Math.random()]
    has been drawn and the code has been written to the temporary file. *)
Definition staged (w : State) (tempFile code : string) : State :=
  record_effect (EvWriteFile tempFile code)
    (set_files (<[tempFile := code]> (files w))
       {| files := files w; now := now w; effects := effects w;
          children := children w; entropy := entropy w; draws := S (draws w);
          pinned := pinned w |}).

(** An outcome with [f] applied to the value returned, if any. *)
Definition outcome_map {A B} (f : A → B) (o : outcome A) : outcome B :=
  match o with
  | Returned a => Returned (f a)
  | Threw e => Threw e
  | Pending => Pending
  end.

(** The paths a file operation on [validated] at time [t] may touch. *)
Definition touched_by_write (validated : string) (t : Z) (q : string) : Prop :=
  q = validated ∨ q = write_backup_path validated t.

Definition touched_by_delete (validated : string) (t : Z) (q : string) : Prop :=
  q = validated ∨ q = delete_backup_path validated t.

(** The events up to the first ['close'] or ['error'] event. *)
Fixpoint running_prefix (evs : list ProcEvent) : list ProcEvent :=
  match evs with
  | [] => []
  | ev :: rest => if settles ev then [] else ev :: running_prefix rest
  end.

(** The events up to the first ['exit'], ['close'] or ['error'] event. *)
Fixpoint exit_prefix (evs : list ProcEvent) : list ProcEvent :=
  match evs with
  | [] => []
  | Exit :: _ => []
  | ev :: rest => if settles ev then [] else ev :: exit_prefix rest
  end.

(** The timer of the code runs its callback during [evs]. *)
Definition timer_fires (L : Launch) (evs : list ProcEvent) : bool :=
  runs_longer_than (timer_delay (l_safeTimeout L)) 0 (running_prefix evs).

(** The timer of [spawn] runs its callback during [evs]. *)
Definition spawn_timer_fires (req : SpawnRequest) (evs : list ProcEvent) : bool :=
  spawn_timer_armed req &&
  runs_longer_than (spawn_timer_delay req) 0 (exit_prefix evs).

(** A child started with its standard input disconnected, its two output
    streams piped and its window hidden; effects other than [spawn] are
    not concerned. *)
Definition spawn_isolated (e : Effect) : Prop :=
  match e with
  | EvSpawn req =>
      sp_stdio req = ["ignore"; "pipe"; "pipe"] ∧ sp_windowsHide req = true
  | _ => True
  end.

(** [w'] has the effects of [w] followed by effects that start children
    in isolation only. *)
Definition adds_isolated (w w' : State) : Prop :=
  ∃ new, effects w' = (effects w ++ new)%list ∧ Forall spawn_isolated new.

(** The world after [m] is related by [R] to the world before, whatever
    the outcome. *)
Definition keeps {A} (R : State → State → Prop) (m : Async A) : Prop :=
  ∀ w, R w (m w).2.

(** The name of the file that stages the driver of a syntax check made
    at time [t]. *)
Definition syntax_temp_file (host : Host) (t : Z) : string :=
  path_join host (os_tmpdir host) ("syntax_check_" +:+ pretty t +:+ ".py").

(** An effect that writes or removes no file but [p], and copies none. *)
Definition confined_to (p : string) (e : Effect) : Prop :=
  match e with
  | EvWriteFile q _ => q = p
  | EvUnlink q => q = p
  | EvCopyFile _ _ => False
  | EvSpawn _ | EvKill _ => True
  end.

(** [w'] has the effects of [w] followed by effects confined to [p]. *)
Definition adds_confined (p : string) (w w' : State) : Prop :=
  ∃ new, effects w' = (effects w ++ new)%list ∧ Forall (confined_to p) new.

(** Every character of [s] is white space. *)
Fixpoint all_space (s : string) : bool :=
  match s with
  | EmptyString => true
  | String c s' => Js.is_space c && all_space s'
  end.

(** Every match of [r] takes at least one character. *)
Fixpoint consumes (r : regex) : bool :=
  match r with
  | Lit _ | NotChar _ | OneOf _ | Space => true
  | WordBoundary | Star _ => false
  | Cat r1 r2 => consumes r1 || consumes r2
  | Or r1 r2 => consumes r1 && consumes r2
  end.

(** In [r] every word boundary is followed at once by an expression
    that takes a character, so whether the boundary holds does not
    depend on what comes after the match. *)
Fixpoint boundaries_guarded (r : regex) : bool :=
  match r with
  | Lit _ | NotChar _ | OneOf _ | Space => true
  | WordBoundary => false
  | Cat WordBoundary r2 => consumes r2 && boundaries_guarded r2
  | Cat r1 r2 => boundaries_guarded r1 && boundaries_guarded r2
  | Or r1 r2 => boundaries_guarded r1 && boundaries_guarded r2
  | Star r' => boundaries_guarded r'
  end.

(** [s] is empty or ends with a character that is not a word character. *)
Definition ends_outside_word (s : string) : bool :=
  negb (is_word_opt (last_before None s)).

Module SampleRuns.

(** A decoder that hands over the text with the name of the encoding. *)
Definition decode (encoding text : string) : string * string := (encoding, text).

(** A child that exits normally and leaves the script it ran pinned. *)
Definition pinning_child (script : string) : Child :=
  {| events := [StdoutData "1"; Exit; Close (Some 0)];
     fs_effect := fun fs => fs;
     refusal := None;
     pins := {[ script := SystemError "EBUSY" "unlink" script None ]} |}.

(** A configuration with a negative maximum for the Python timeout. *)
Definition cfg_negative_max : Config :=
  {| ALLOWED_DRIVES := ALLOWED_DRIVES_of None;
     ALLOWED_PATHS := ALLOWED_PATHS_of None;
     PYTHON_PATH := "python";
     PYTHON_TIMEOUT := 30000;
     PYTHON_MAX_TIMEOUT := -5;
     POWERSHELL_PATH := "powershell.exe";
     POWERSHELL_TIMEOUT := 60000;
     POWERSHELL_MAX_TIMEOUT := 600000 |}.

Definition notes : gmap string string := {[ "/tmp/notes.txt" := "first" ]}.

Definition shelf : gmap string string :=
  <[ "/tmp/other.txt" := "second" ]> notes.

(** The text [caf] followed by the letter e with an acute accent. *)
Definition cafe : string := "caf" +:+ String (ascii_of_nat 233) "".



(** A host whose home directory is not a permitted path. *)
Definition host_root : Host :=
  Posix.host "/tmp" "/root" {[ "PATH" := "/usr/bin" ]}.

End SampleRuns.

(* ===================================================================== *)
(** * Properties *)
(* ===================================================================== *)

(** ** Strings *)

Lemma append_cons (c : ascii) (a b : string) :
  String c a +:+ b = String c (a +:+ b).
Proof. reflexivity. Qed.

Lemma append_nil (b : string) : "" +:+ b = b.
Proof. reflexivity. Qed.

Lemma length_append (a b : string) :
  String.length (a +:+ b) = (String.length a + String.length b)%nat.
Proof.
  induction a as [|c a IH]; [reflexivity |].
  rewrite append_cons. simpl. now rewrite IH.
Qed.

Lemma append_assoc (a b c : string) : (a +:+ b) +:+ c = a +:+ (b +:+ c).
Proof.
  induction a as [|x a IH]; [reflexivity |].
  rewrite !append_cons. now rewrite IH.
Qed.

Lemma append_empty_r (a : string) : a +:+ "" = a.
Proof.
  induction a as [|x a IH]; [reflexivity |].
  rewrite append_cons. now rewrite IH.
Qed.

(** A path with a non-empty suffix added is another path. *)
Lemma append_nonempty_neq (a b : string) : b ≠ "" → a +:+ b ≠ a.
Proof.
  intros Hb Heq. apply (f_equal String.length) in Heq.
  rewrite length_append in Heq. destruct b; [congruence | simpl in Heq; lia].
Qed.

Lemma includes_elem_of (l : list string) (x : string) :
  Js.includes l x = true ↔ x ∈ l.
Proof.
  unfold Js.includes. rewrite existsb_exists. split.
  - intros (y & Hin & Heq). apply String.eqb_eq in Heq. subst y.
    now apply list_elem_of_In.
  - intros Hin. exists x. split; [now apply list_elem_of_In | apply String.eqb_refl].
Qed.

Lemma includes_not_elem_of (l : list string) (x : string) :
  Js.includes l x = false ↔ x ∉ l.
Proof.
  rewrite <- includes_elem_of. destruct (Js.includes l x); split; congruence.
Qed.

Lemma includes_units_elem_of (l : list string) (x : list N) :
  Js.includes_units l x = true ↔ x ∈ map Js.code_units l.
Proof.
  unfold Js.includes_units. rewrite existsb_exists, list_elem_of_In, in_map_iff.
  split; intros (y & H1 & H2).
  - exists y. split; [now apply bool_decide_eq_true in H2 | exact H1].
  - exists y. split; [exact H2 | now apply bool_decide_eq_true].
Qed.

Lemma includes_units_not_elem_of (l : list string) (x : list N) :
  Js.includes_units l x = false ↔ x ∉ map Js.code_units l.
Proof.
  rewrite <- includes_units_elem_of.
  destruct (Js.includes_units l x); split; congruence.
Qed.

(** ** AccessGuard *)

Section AccessGuardFacts.
Context (host : Host) (cfg : Config).

Lemma matches_allowed_path_spec (normalized : string) (paths : list string) :
  matches_allowed_path normalized paths = true ↔
  ∃ allowedPath, allowedPath ∈ paths ∧ Js.startsWith normalized allowedPath = true.
Proof.
  induction paths as [|a rest IH]; simpl.
  - split; [discriminate | intros (x & Hin & _); inversion Hin].
  - destruct (Js.startsWith normalized a) eqn:Ha.
    + split; [intros _ | reflexivity]. exists a. split; [left | exact Ha].
    + rewrite IH. split.
      * intros (x & Hin & Hx). exists x. split; [now right | exact Hx].
      * intros (x & Hin & Hx). inversion Hin; subst; [congruence |].
        exists x. now split.
Qed.

(** A path is accepted exactly when one of the rules holds, and the
    accepted value is the normalized path. *)
Lemma validatePath_Ok_iff (filePath : string) :
  validatePath host cfg filePath = Ok (path_normalize host filePath) ↔
  permitted cfg (path_normalize host filePath).
Proof.
  unfold validatePath, permitted.
  set (n := path_normalize host filePath).
  destruct (Js.startsWith n "/mnt/") eqn:Hmnt; simpl.
  - destruct (Js.includes_units (ALLOWED_DRIVES cfg) (Js.toUpperCase (Js.charAt 5 n)))
      eqn:Hd5.
    { apply includes_units_elem_of in Hd5.
      split; [intros _; left; now split | reflexivity]. }
    apply includes_units_not_elem_of in Hd5.
    destruct (Js.startsWith n "/home/" || Js.startsWith n "/tmp/")%bool eqn:Hconv.
    { split; [intros _ | reflexivity].
      apply orb_true_iff in Hconv. destruct Hconv; [right; left | right; right; left]; assumption. }
    apply orb_false_iff in Hconv. destruct Hconv as [Hhome Htmp].
    destruct (matches_allowed_path n (ALLOWED_PATHS cfg)) eqn:Hpaths.
    { split; [intros _ | reflexivity].
      right; right; right; left. now apply matches_allowed_path_spec. }
    destruct (Js.includes_units (ALLOWED_DRIVES cfg) (Js.toUpperCase (Js.charAt 0 n)))
      eqn:Hd0.
    { apply includes_units_elem_of in Hd0.
      split; [intros _; now do 4 right | reflexivity]. }
    apply includes_units_not_elem_of in Hd0.
    split; [discriminate |].
    intros [[_ H] | [H | [H | [H | H]]]]; try congruence; try contradiction.
    apply matches_allowed_path_spec in H. congruence.
  - destruct (Js.startsWith n "/home/" || Js.startsWith n "/tmp/")%bool eqn:Hconv.
    { split; [intros _ | reflexivity].
      apply orb_true_iff in Hconv. destruct Hconv; [right; left | right; right; left]; assumption. }
    apply orb_false_iff in Hconv. destruct Hconv as [Hhome Htmp].
    destruct (matches_allowed_path n (ALLOWED_PATHS cfg)) eqn:Hpaths.
    { split; [intros _ | reflexivity].
      right; right; right; left. now apply matches_allowed_path_spec. }
    destruct (Js.includes_units (ALLOWED_DRIVES cfg) (Js.toUpperCase (Js.charAt 0 n)))
      eqn:Hd0.
    { apply includes_units_elem_of in Hd0.
      split; [intros _; now do 4 right | reflexivity]. }
    apply includes_units_not_elem_of in Hd0.
    split; [discriminate |].
    intros [[H _] | [H | [H | [H | H]]]]; try congruence; try contradiction.
    apply matches_allowed_path_spec in H. congruence.
Qed.

(** Whatever the path, the call returns the normalized path or throws
    the denial. *)
Lemma validatePath_cases (filePath : string) :
  validatePath host cfg filePath = Ok (path_normalize host filePath) ∨
  validatePath host cfg filePath =
    Throw (Error (access_denied_message cfg (path_normalize host filePath))).
Proof.
  unfold validatePath.
  repeat match goal with
         | |- context [if ?b then _ else _] => destruct b
         end; auto.
Qed.

Lemma validatePath_Ok_normalized (filePath validated : string) :
  validatePath host cfg filePath = Ok validated →
  validated = path_normalize host filePath.
Proof.
  destruct (validatePath_cases filePath) as [H | H]; rewrite H; congruence.
Qed.

(** What [validatePath] decides. It returns the normalized path exactly
    when one of the rules of [permitted] holds, and in every other case
    throws the access-denied error, whose message carries the normalized
    path and the two configured lists. *)
Lemma validatePath_decides_permitted (filePath : string) :
  (permitted cfg (path_normalize host filePath) ∧
   validatePath host cfg filePath = Ok (path_normalize host filePath))
  ∨
  (¬ permitted cfg (path_normalize host filePath) ∧
   validatePath host cfg filePath =
     Throw (Error ("Access denied: Path " +:+ path_normalize host filePath +:+
                   " not in allowed list (drives: " +:+
                   Js.join ", " (ALLOWED_DRIVES cfg) +:+ ", paths: " +:+
                   (if Js.truthy (Js.join ", " (ALLOWED_PATHS cfg))
                    then Js.join ", " (ALLOWED_PATHS cfg) else "none") +:+ ")"))).
Proof.
  destruct (validatePath_cases filePath) as [H | H].
  - left. split; [now apply validatePath_Ok_iff | exact H].
  - right. split; [| exact H].
    intros Hp. apply validatePath_Ok_iff in Hp. congruence.
Qed.

(** When every configured drive entry is written in upper case, the rule
    of the specification and the rule of the code agree. *)
Lemma spec_permitted_upper_case_drives (normalized : string) :
  Forall (fun d => Js.toUpperCase d = Js.code_units d) (ALLOWED_DRIVES cfg) →
  spec_permitted cfg normalized = true ↔ permitted cfg normalized.
Proof.
  intros Hupper. rewrite Forall_forall in Hupper.
  assert (Hdrive : ∀ x, existsb (eq_ignore_case x) (ALLOWED_DRIVES cfg) = true ↔
                        Js.toUpperCase x ∈ map Js.code_units (ALLOWED_DRIVES cfg)).
  { intros x. rewrite existsb_exists, list_elem_of_In, in_map_iff. split.
    - intros (d & Hin & Heq). apply bool_decide_eq_true in Heq.
      exists d. split; [| exact Hin]. rewrite Heq. symmetry.
      apply Hupper. now apply list_elem_of_In.
    - intros (d & Heq & Hin). exists d. split; [exact Hin |].
      unfold eq_ignore_case. apply bool_decide_eq_true.
      rewrite <- Heq. symmetry. apply Hupper. now apply list_elem_of_In. }
  assert (Hpaths : existsb (Js.startsWith normalized) (ALLOWED_PATHS cfg) = true ↔
                   ∃ a, a ∈ ALLOWED_PATHS cfg ∧ Js.startsWith normalized a = true).
  { rewrite existsb_exists. split; intros (a & Hin & Ha); exists a;
      (split; [now apply list_elem_of_In | exact Ha]). }
  unfold spec_permitted, permitted.
  rewrite !orb_true_iff, andb_true_iff, !Hdrive, Hpaths. tauto.
Qed.

End AccessGuardFacts.

(** ** FileOperations and BackupVault *)

Lemma write_backup_path_distinct (validated : string) (t : Z) :
  write_backup_path validated t ≠ validated.
Proof.
  unfold write_backup_path. apply append_nonempty_neq. discriminate.
Qed.

Lemma delete_backup_path_distinct (validated : string) (t : Z) :
  delete_backup_path validated t ≠ validated.
Proof.
  unfold delete_backup_path. apply append_nonempty_neq. discriminate.
Qed.

(** Unfolds the sequencing of an asynchronous function down to the
    primitives. *)
Ltac run_async :=
  unfold try_catch, try_finally, bind, lift, ret, throw,
    fs_existsSync, fs_copyFile, fs_writeFile, fs_stat_size, fs_unlink,
    fs_readFile, Date_now, record_effect, set_files; simpl.

Section FileFacts.
Context (host : Host) (cfg : Config).

(** [writeFile] on an existing file, backup enabled: the copy, then the
    write. *)
Lemma writeFile_existing (w : State) (filePath content validated old : string) :
  validatePath host cfg filePath = Ok validated →
  files w !! validated = Some old →
  writeFile host cfg filePath content true w =
    (Returned {| wr_success := true; wr_path := validated;
                 wr_size := Js.utf8_length content;
                 backup_created := true |},
     record_effect (EvWriteFile validated content)
       (set_files (<[validated := content]>
                     (<[write_backup_path validated (now w) := old]> (files w)))
          (record_effect (EvCopyFile validated (write_backup_path validated (now w)))
             (set_files (<[write_backup_path validated (now w) := old]> (files w)) w)))).
Proof.
  intros Hv Hold. unfold writeFile. run_async.
  rewrite Hv. simpl. rewrite Hold. simpl. rewrite Hold. simpl.
  rewrite lookup_insert_eq. simpl. rewrite lookup_insert_eq. reflexivity.
Qed.

(** [deleteFile] on an existing file, backup enabled: the copy, then the
    removal. *)
Lemma deleteFile_existing (w : State) (filePath validated old : string) :
  validatePath host cfg filePath = Ok validated →
  files w !! validated = Some old →
  pinned w !! validated = None →
  deleteFile host cfg filePath true w =
    (Returned {| dr_success := true; dr_path := validated;
                 backup_path := Some (delete_backup_path validated (now w)) |},
     record_effect (EvUnlink validated)
       (set_files (delete validated
                     (<[delete_backup_path validated (now w) := old]> (files w)))
          (record_effect (EvCopyFile validated (delete_backup_path validated (now w)))
             (set_files (<[delete_backup_path validated (now w) := old]> (files w)) w)))).
Proof.
  intros Hv Hold Hfree. unfold deleteFile. run_async.
  rewrite Hv. simpl. rewrite Hold. simpl.
  rewrite lookup_insert_ne by apply delete_backup_path_distinct.
  rewrite Hold, Hfree. reflexivity.
Qed.

(** [writeFile] where nothing exists: no copy is made, and the result
    still reports a backup, since the flag is computed after the write. *)
Lemma writeFile_missing (w : State) (filePath content validated : string)
    (createBackup : bool) :
  validatePath host cfg filePath = Ok validated →
  files w !! validated = None →
  writeFile host cfg filePath content createBackup w =
    (Returned {| wr_success := true; wr_path := validated;
                 wr_size := Js.utf8_length content;
                 backup_created := createBackup |},
     record_effect (EvWriteFile validated content)
       (set_files (<[validated := content]> (files w)) w)).
Proof.
  intros Hv Hnone. unfold writeFile. run_async.
  rewrite Hv. simpl. destruct createBackup; simpl.
  - rewrite Hnone. simpl. rewrite lookup_insert_eq. simpl.
    rewrite lookup_insert_eq. reflexivity.
  - rewrite lookup_insert_eq. reflexivity.
Qed.

(** Whenever [writeFile] returns with the backup enabled, it reports a
    backup. *)
Lemma writeFile_always_reports_backup (w w' : State) (filePath content : string)
    (r : WriteResult) :
  writeFile host cfg filePath content true w = (Returned r, w') →
  backup_created r = true.
Proof.
  unfold writeFile. run_async.
  destruct (validatePath host cfg filePath) as [v | e]; simpl; [| discriminate].
  destruct (files w !! v) as [old |] eqn:Hold; simpl.
  - rewrite Hold. simpl. rewrite lookup_insert_eq. simpl.
    rewrite lookup_insert_eq. intros [= <- _]. reflexivity.
  - rewrite lookup_insert_eq. simpl. rewrite lookup_insert_eq.
    intros [= <- _]. reflexivity.
Qed.

(** [deleteFile] where nothing exists, backup enabled: the copy throws. *)
Lemma deleteFile_missing (w : State) (filePath validated : string) :
  validatePath host cfg filePath = Ok validated →
  files w !! validated = None →
  deleteFile host cfg filePath true w =
    (Threw (ENOENT "copyfile" validated
              (Some (delete_backup_path validated (now w)))), w).
Proof.
  intros Hv Hnone. unfold deleteFile. run_async.
  rewrite Hv. simpl. rewrite Hnone. reflexivity.
Qed.

(** C2. For an existing file and a permitted path, [writeFile] and
    [deleteFile] with the backup enabled return, and the effects of the
    call are the copy to the backup path followed by the write or the
    removal, in that order. When the mutating step begins the backup
    already holds the previous content, it still does when the call
    returns, and the backup path differs from the path of the file. *)
Theorem backup_precedes_mutation (w : World) (filePath content validated old : string) :
  validatePath host cfg filePath = Ok validated →
  files w !! validated = Some old →
  (∃ r w',
     writeFile host cfg filePath content true w = (Returned r, w') ∧
     let b := write_backup_path validated (now w) in
     effects w' =
       (effects w ++ [EvCopyFile validated b; EvWriteFile validated content])%list ∧
     replay [EvCopyFile validated b] (files w) !! b = Some old ∧
     files w' = replay [EvCopyFile validated b; EvWriteFile validated content] (files w) ∧
     files w' !! b = Some old ∧
     files w' !! validated = Some content ∧
     b ≠ validated)
  ∧
  (∃ r w',
     deleteFile host cfg filePath true w = (Returned r, w') ∧
     let b := delete_backup_path validated (now w) in
     backup_path r = Some b ∧
     effects w' =
       (effects w ++ [EvCopyFile validated b; EvUnlink validated])%list ∧
     replay [EvCopyFile validated b] (files w) !! b = Some old ∧
     files w' = replay [EvCopyFile validated b; EvUnlink validated] (files w) ∧
     files w' !! b = Some old ∧
     files w' !! validated = None ∧
     b ≠ validated).
Proof.
  intros Hv Hold. destruct w as [w Hcalm]. simpl in *. split.
  - eexists _, _. split; [apply (writeFile_existing _ _ _ _ _ Hv Hold) |].
    pose proof (write_backup_path_distinct validated (now w)) as Hne.
    cbn zeta. unfold replay. simpl. rewrite Hold.
    rewrite <- app_assoc. simpl.
    rewrite lookup_insert_eq, lookup_insert_eq.
    rewrite lookup_insert_ne by congruence. rewrite lookup_insert_eq.
    repeat split; auto.
  - assert (Hfree : pinned w !! validated = None) by (rewrite Hcalm; apply lookup_empty).
    eexists _, _. split; [apply (deleteFile_existing _ _ _ _ Hv Hold Hfree) |].
    pose proof (delete_backup_path_distinct validated (now w)) as Hne.
    cbn zeta. unfold replay. simpl. rewrite Hold.
    rewrite <- app_assoc. simpl.
    rewrite lookup_insert_eq, lookup_delete_eq.
    rewrite lookup_delete_ne by congruence. rewrite lookup_insert_eq.
    repeat split; auto.
Qed.

End FileFacts.

Lemma backup_precedes_mutation_witness :
  ∃ r w',
    writeFile Sample.host Sample.cfg "/tmp/notes.txt" "second" true
      (Sample.world {[ "/tmp/notes.txt" := "first" ]} []) = (Returned r, w') ∧
    files w' !! "/tmp/notes.txt.backup_1700000000000" = Some "first".
Proof.
  destruct (backup_precedes_mutation Sample.host Sample.cfg
              (Sample.start {[ "/tmp/notes.txt" := "first" ]} [])
              "/tmp/notes.txt" "second" "/tmp/notes.txt" "first")
    as [(r & w' & Hrun & _ & _ & _ & Hb & _) _].
  - reflexivity.
  - reflexivity.
  - exists r, w'. split; [exact Hrun | exact Hb].
Defined.

(** C3 (the failing input). [deleteFile] with the backup enabled on a path
    where nothing exists: the backup step, [fs.copyFile], throws [ENOENT],
    and the call ends there, before [fs.unlink] is reached. No backup file
    is created. *)
Theorem deleteFile_missing_backup_step_throws :
  deleteFile Sample.host Sample.cfg "/tmp/missing.txt" true (Sample.world ∅ []) =
    (Threw (SystemError "ENOENT" "copyfile" "/tmp/missing.txt"
              (Some "/tmp/missing.txt.deleted_1700000000000")),
     Sample.world ∅ []).
Proof. reflexivity. Qed.

(** C4 (the failing input). [writeFile] to a new path with the default
    options: the size is the length of the content, no backup is made,
    and the result says [backup_created: true]. *)
Theorem writeFile_new_path_reports_backup :
  let run := writeFile Sample.host Sample.cfg "/tmp/new.txt" "hello" true
               (Sample.world ∅ []) in
  run.1 = Returned {| wr_success := true; wr_path := "/tmp/new.txt";
                      wr_size := 5; backup_created := true |} ∧
  effects run.2 = [EvWriteFile "/tmp/new.txt" "hello"] ∧
  files run.2 = {[ "/tmp/new.txt" := "hello" ]}.
Proof. repeat split; reflexivity. Qed.

(** ** ProcessRunner *)

Lemma safe_timeout_is_clamp (t max : Z) :
  MIN_TIMEOUT ≤ max → safe_timeout t max = clamp t MIN_TIMEOUT max.
Proof.
  unfold safe_timeout, clamp, MIN_TIMEOUT. intros Hmax.
  destruct (Z.ltb_spec t 1000); [lia |].
  destruct (Z.ltb_spec max t); lia.
Qed.

Lemma safe_timeout_bounds (t max : Z) :
  MIN_TIMEOUT ≤ max → MIN_TIMEOUT ≤ safe_timeout t max ≤ max.
Proof. unfold safe_timeout, MIN_TIMEOUT. lia. Qed.

Lemma timer_delay_bounds (after : Z) : 1 ≤ timer_delay after ≤ TIMEOUT_MAX.
Proof.
  unfold timer_delay, TIMEOUT_MAX.
  destruct (Z.leb_spec 1 after); simpl; [| lia].
  destruct (Z.leb_spec after 2147483647); lia.
Qed.


Lemma timer_delay_in_range (after : Z) :
  1 ≤ after ≤ TIMEOUT_MAX → timer_delay after = after.
Proof.
  unfold timer_delay. intros [H1 H2].
  destruct (Z.leb_spec 1 after); [| lia].
  destruct (Z.leb_spec after TIMEOUT_MAX); [reflexivity | lia].
Qed.


Lemma repeat_snoc {A} (x : A) (l : list A) (n : nat) :
  ((l ++ [x]) ++ repeat x n = l ++ repeat x (S n))%list.
Proof. now rewrite <- app_assoc. Qed.

Section RunnerFacts.
Context (L : Launch) (req : SpawnRequest).

(** Nothing is handled once the promise is settled. *)
Lemma run_events_settled (evs : list ProcEvent) (p : Proc) :
  is_Some (p_settled p) → run_events L req evs p = p.
Proof. intros [r Hr]. destruct evs; simpl; [reflexivity | now rewrite Hr]. Qed.

Lemma run_events_cons (ev : ProcEvent) (evs : list ProcEvent) (p : Proc) :
  p_settled p = None →
  run_events L req (ev :: evs) p = run_events L req evs (on_event L req p ev).
Proof. intros Hp. simpl. now rewrite Hp. Qed.

Lemma resolve_settled (r : ExecResult) (p : Proc) : is_Some (p_settled (resolve r p)).
Proof. unfold resolve. destruct (p_settled p) eqn:H; simpl; eauto. Qed.

Lemma on_tick_settled (dt : Z) (p : Proc) :
  p_settled (on_tick L req dt p) = p_settled p.
Proof.
  unfold on_tick. cbn zeta.
  repeat match goal with
         | |- context [if ?b then _ else _] => destruct b
         end; reflexivity.
Qed.

(** An event other than ['close'] and ['error'] settles nothing. *)
Lemma on_event_running (ev : ProcEvent) (p : Proc) :
  settles ev = false → p_settled (on_event L req p ev) = p_settled p.
Proof.
  destruct ev; simpl; try discriminate; intros _; auto using on_tick_settled.
Qed.

(** While the child runs, the state follows the events: the buffers
    grow by what was written, the clock by the time that passed, and the
    [killed] flag is set once the timer of the code has run. *)
Lemma run_events_running (evs : list ProcEvent) (p : Proc) :
  still_running evs = true →
  p_settled p = None →
  p_timer p = negb (p_killed p) →
  let q := run_events L req evs p in
  let late :=
    runs_longer_than (timer_delay (l_safeTimeout L)) (p_clock p - p_startTime p) evs in
  p_settled q = None ∧
  p_timer q = negb (p_killed q) ∧
  p_startTime q = p_startTime p ∧
  p_clock q = p_clock p + time_passed evs ∧
  p_stdout q = p_stdout p +:+ written_to_stdout evs ∧
  p_stderr q = p_stderr p +:+ written_to_stderr evs ∧
  p_killed q = (p_killed p || late)%bool.
Proof.
  revert p. induction evs as [|ev evs IH]; intros p Hrun Hnone Htimer.
  - simpl. rewrite !append_empty_r, orb_false_r, Z.add_0_r. repeat split; auto.
  - simpl in Hrun. apply andb_true_iff in Hrun. destruct Hrun as [Hev Hrun].
    apply negb_true_iff in Hev.
    rewrite (run_events_cons _ _ _ Hnone). cbn zeta.
    pose proof (on_event_running ev p Hev) as Hs. rewrite Hnone in Hs.
    destruct ev as [dt | d | d | | code | m]; simpl in Hev; try discriminate.
    + (* Tick *)
      simpl on_event in *. simpl runs_longer_than. simpl time_passed.
      simpl written_to_stdout. simpl written_to_stderr.
      assert (Hq : ∃ q,
                 on_tick L req dt p = q ∧
                 p_timer q = negb (p_killed q) ∧
                 p_startTime q = p_startTime p ∧
                 p_clock q = p_clock p + dt ∧
                 p_stdout q = p_stdout p ∧ p_stderr q = p_stderr p ∧
                 p_killed q =
                   (p_killed p ||
                    (timer_delay (l_safeTimeout L) <=? p_clock p - p_startTime p + dt))%bool).
      { eexists. split; [reflexivity |]. unfold on_tick. cbn zeta. simpl.
        replace (p_clock p + dt - p_startTime p) with (p_clock p - p_startTime p + dt)
          by lia.
        destruct (p_spawn_timer p &&
                  (spawn_timer_delay req <=? p_clock p - p_startTime p + dt))%bool;
          simpl; rewrite Htimer;
          destruct (p_killed p) eqn:Hk;
          destruct (timer_delay (l_safeTimeout L) <=? p_clock p - p_startTime p + dt);
          simpl; rewrite ?Hk; repeat split; auto. }
      destruct Hq as (q & Hq & G1 & G2 & G3 & G4 & G5 & G6).
      rewrite Hq in *.
      destruct (IH q Hrun Hs G1) as (H1 & H2 & H3 & H4 & H5 & H6 & H7).
      rewrite G2, G3 in *.
      replace (p_clock p + dt - p_startTime p) with (p_clock p - p_startTime p + dt)
        in H7 by lia.
      split; [exact H1 |]. split; [exact H2 |]. split; [exact H3 |].
      split; [rewrite H4; lia |]. split; [now rewrite H5, G4 |].
      split; [now rewrite H6, G5 |]. now rewrite H7, G6, orb_assoc.
    + (* StdoutData *)
      destruct (IH (on_stdout d p) Hrun Hs Htimer) as (H1 & H2 & H3 & H4 & H5 & H6 & H7).
      simpl in *. rewrite append_assoc in H5. repeat split; auto.
    + (* StderrData *)
      destruct (IH (on_stderr d p) Hrun Hs Htimer) as (H1 & H2 & H3 & H4 & H5 & H6 & H7).
      simpl in *. rewrite append_assoc in H6. repeat split; auto.
    + (* Exit *)
      destruct (IH (on_exit p) Hrun Hs Htimer) as (H1 & H2 & H3 & H4 & H5 & H6 & H7).
      simpl in *. repeat split; auto.
Qed.

(** The [kill] calls made while the child runs: one when the timer of
    [spawn] runs its callback, which it does when it is armed and its
    delay passes before the ['exit'] event, and one when the timer of
    the code does. *)
Lemma run_events_signals (evs : list ProcEvent) (p : Proc) :
  still_running evs = true →
  p_settled p = None →
  let elapsed := p_clock p - p_startTime p in
  p_signals (run_events L req evs p) =
    (p_signals p ++
     repeat "SIGTERM"
       (Nat.b2n (p_spawn_timer p &&
                 runs_longer_than (spawn_timer_delay req) elapsed (exit_prefix evs)) +
        Nat.b2n (p_timer p &&
                 runs_longer_than (timer_delay (l_safeTimeout L)) elapsed evs)))%list.
Proof.
  revert p. induction evs as [|ev evs IH]; intros p Hrun Hnone; cbn zeta.
  - simpl. now rewrite !andb_false_r, app_nil_r.
  - simpl in Hrun. apply andb_true_iff in Hrun. destruct Hrun as [Hev Hrun].
    apply negb_true_iff in Hev.
    rewrite (run_events_cons _ _ _ Hnone).
    pose proof (on_event_running ev p Hev) as Hs. rewrite Hnone in Hs.
    rewrite (IH _ Hrun Hs).
    destruct ev as [dt | d | d | | code | m]; simpl in Hev; try discriminate;
      try reflexivity.
    + (* Tick *)
      simpl on_event. simpl exit_prefix. simpl runs_longer_than.
      unfold on_tick. cbn zeta. simpl.
      replace (p_clock p + dt - p_startTime p) with (p_clock p - p_startTime p + dt)
        by lia.
      set (e := p_clock p - p_startTime p + dt).
      destruct (p_spawn_timer p) eqn:Hst; destruct (spawn_timer_delay req <=? e) eqn:H1;
        destruct (p_timer p) eqn:Hct;
        destruct (timer_delay (l_safeTimeout L) <=? e) eqn:H2;
        simpl; rewrite ?Hst, ?Hct; simpl;
        try replace (p_clock p + dt - p_startTime p) with e by (subst e; lia);
        rewrite ?andb_false_r; simpl;
        rewrite <- ?app_assoc; simpl;
        repeat match goal with
               | |- context [Nat.b2n ?b] => destruct b; simpl
               end; reflexivity.
    + (* Exit *)
      simpl. rewrite andb_false_r. reflexivity.
Qed.

(** The state when the first ['close'] or ['error'] event arrives. *)
Lemma run_events_from_start (t0 : Z) (pre : list ProcEvent) :
  still_running pre = true →
  let q := run_events L req pre (proc_start req t0) in
  p_settled q = None ∧
  p_clock q - p_startTime q = time_passed pre ∧
  p_clock q = t0 + time_passed pre ∧
  p_stdout q = written_to_stdout pre ∧
  p_stderr q = written_to_stderr pre ∧
  p_killed q = runs_longer_than (timer_delay (l_safeTimeout L)) 0 pre.
Proof.
  intros Hrun.
  destruct (run_events_running pre (proc_start req t0) Hrun eq_refl eq_refl)
    as (H1 & H2 & H3 & H4 & H5 & H6 & H7).
  simpl in *. rewrite Z.sub_diag in *.
  repeat split; auto. rewrite H3, H4. lia.
Qed.

(** The events up to the first settling one are all that is handled. *)
Lemma run_events_until (pre post : list ProcEvent) (ev : ProcEvent) (p : Proc) :
  still_running pre = true →
  settles ev = true →
  p_settled p = None →
  run_events L req (pre ++ ev :: post) p =
    on_event L req (run_events L req pre p) ev.
Proof.
  revert p. induction pre as [|e pre IH]; intros p Hrun Hev Hnone.
  - simpl. rewrite Hnone. apply run_events_settled.
    destruct ev; simpl in Hev; try discriminate; simpl.
    + unfold on_close. destruct (p_killed _); apply resolve_settled.
    + unfold on_error. apply resolve_settled.
  - simpl in Hrun. apply andb_true_iff in Hrun. destruct Hrun as [He Hrun].
    apply negb_true_iff in He.
    change ((e :: pre) ++ ev :: post)%list with (e :: (pre ++ ev :: post))%list.
    rewrite !(run_events_cons _ _ _ Hnone).
    apply IH; auto. now rewrite on_event_running.
Qed.

(** The child closes after the timer of the code has run. *)
Lemma settle_after_timeout (t0 : Z) (pre post : list ProcEvent) (code : option Z) :
  still_running pre = true →
  runs_longer_than (timer_delay (l_safeTimeout L)) 0 pre = true →
  p_settled (run_events L req (pre ++ Close code :: post) (proc_start req t0)) =
    Some (timeout_result L pre).
Proof.
  intros Hrun Hlate.
  destruct (run_events_from_start t0 pre Hrun) as (H1 & H2 & H3 & H4 & H5 & H6).
  rewrite run_events_until by auto.
  simpl. unfold on_close. simpl. rewrite H6, Hlate. unfold resolve. simpl.
  rewrite H1. simpl. unfold timeout_result, timeout_message.
  now rewrite H2, H4, H5.
Qed.

(** The child closes before the timer of the code has run. *)
Lemma settle_on_exit (t0 : Z) (pre post : list ProcEvent) (code : option Z) :
  still_running pre = true →
  runs_longer_than (timer_delay (l_safeTimeout L)) 0 pre = false →
  p_settled (run_events L req (pre ++ Close code :: post) (proc_start req t0)) =
    Some {| success := is_zero code; exit_code := code;
            stdout := written_to_stdout pre; stderr := written_to_stderr pre;
            duration_ms := time_passed pre; error := None;
            script_path := l_script_path L; working_directory := l_workDir L;
            code_preview := None |}.
Proof.
  intros Hrun Hlate.
  destruct (run_events_from_start t0 pre Hrun) as (H1 & H2 & H3 & H4 & H5 & H6).
  rewrite run_events_until by auto.
  simpl. unfold on_close. simpl. rewrite H6, Hlate. unfold resolve. simpl.
  rewrite H1. simpl. now rewrite H2, H4, H5.
Qed.

(** The ['error'] event arrives first. *)
Lemma settle_on_error (t0 : Z) (pre post : list ProcEvent) (message : string) :
  still_running pre = true →
  p_settled (run_events L req (pre ++ SpawnFailure message :: post)
               (proc_start req t0)) =
    Some {| success := false; exit_code := Some (-1);
            stdout := written_to_stdout pre; stderr := written_to_stderr pre;
            duration_ms := time_passed pre; error := Some message;
            script_path := l_script_path L; working_directory := l_workDir L;
            code_preview := None |}.
Proof.
  intros Hrun.
  destruct (run_events_from_start t0 pre Hrun) as (H1 & H2 & H3 & H4 & H5 & H6).
  rewrite run_events_until by auto.
  simpl. unfold on_error, resolve. simpl. rewrite H1. simpl. now rewrite H2, H4, H5.
Qed.

(** Every list of events either has no settling event or splits at the
    first one. *)
Lemma first_settling_event (evs : list ProcEvent) :
  still_running evs = true ∨
  ∃ pre ev post, evs = (pre ++ ev :: post)%list ∧
                 still_running pre = true ∧ settles ev = true.
Proof.
  induction evs as [|ev evs IH]; [now left |].
  destruct (settles ev) eqn:Hev.
  - right. exists [], ev, evs. auto.
  - destruct IH as [IH | (pre & e & post & -> & Hpre & He)].
    + left. simpl. now rewrite Hev, IH.
    + right. exists (ev :: pre), e, post. simpl. rewrite Hev, Hpre. auto.
Qed.

Lemma running_prefix_all (evs : list ProcEvent) :
  still_running evs = true → running_prefix evs = evs.
Proof.
  induction evs as [|ev evs IH]; simpl; [reflexivity |].
  intros H. apply andb_true_iff in H. destruct H as [Hev H].
  apply negb_true_iff in Hev. rewrite Hev. now rewrite IH.
Qed.

Lemma running_prefix_until (pre post : list ProcEvent) (ev : ProcEvent) :
  still_running pre = true → settles ev = true →
  running_prefix (pre ++ ev :: post) = pre.
Proof.
  intros Hpre Hev. induction pre as [|e pre IH]; simpl.
  - now rewrite Hev.
  - simpl in Hpre. apply andb_true_iff in Hpre. destruct Hpre as [He Hpre].
    apply negb_true_iff in He. rewrite He. now rewrite IH.
Qed.

Lemma exit_prefix_until (pre post : list ProcEvent) (ev : ProcEvent) :
  settles ev = true →
  exit_prefix (pre ++ ev :: post) = exit_prefix pre.
Proof.
  intros Hev. induction pre as [|e pre IH]; simpl.
  - destruct ev; simpl in Hev; try discriminate; reflexivity.
  - destruct e; simpl; try reflexivity; now rewrite IH.
Qed.

(** Settling does not call [kill]. *)
Lemma settling_keeps_signals (ev : ProcEvent) (p : Proc) :
  settles ev = true → p_signals (on_event L req p ev) = p_signals p.
Proof.
  destruct ev; simpl; try discriminate; intros _.
  - unfold on_close. simpl. destruct (p_killed p); unfold resolve; simpl;
      destruct (p_settled p); reflexivity.
  - unfold on_error, resolve. simpl. destruct (p_settled p); reflexivity.
Qed.

Lemma settling_keeps_clock (ev : ProcEvent) (p : Proc) :
  settles ev = true → p_clock (on_event L req p ev) = p_clock p.
Proof.
  destruct ev; simpl; try discriminate; intros _.
  - unfold on_close. simpl. destruct (p_killed p); unfold resolve; simpl;
      destruct (p_settled p); reflexivity.
  - unfold on_error, resolve. simpl. destruct (p_settled p); reflexivity.
Qed.

(** The [kill] calls of a whole run. *)
Lemma signals_of_run (t0 : Z) (evs : list ProcEvent) :
  p_signals (run_events L req evs (proc_start req t0)) =
    repeat "SIGTERM"
      (Nat.b2n (spawn_timer_fires req evs) + Nat.b2n (timer_fires L evs)).
Proof.
  unfold spawn_timer_fires, timer_fires.
  destruct (first_settling_event evs) as [Hrun | (pre & ev & post & -> & Hpre & Hev)].
  - rewrite (run_events_signals evs (proc_start req t0) Hrun eq_refl).
    simpl. rewrite Z.sub_diag. now rewrite (running_prefix_all _ Hrun).
  - rewrite run_events_until by auto.
    rewrite settling_keeps_signals by exact Hev.
    rewrite (run_events_signals pre (proc_start req t0) Hpre eq_refl).
    simpl. rewrite Z.sub_diag.
    rewrite (running_prefix_until _ _ _ Hpre Hev), (exit_prefix_until _ _ _ Hev).
    reflexivity.
Qed.


End RunnerFacts.

(** The promise settles as the first ['close'] or ['error'] event says,
    and its value encodes what happened to the child. *)
Lemma spawn_and_wait_contract (L : Launch) (req : SpawnRequest) (w : State)
    (why : JsError → Prop) :
  runner_contract w (l_safeTimeout L) why (spawn_and_wait L req w).
Proof.
  unfold spawn_and_wait, runner_contract.
  destruct (first_settling_event (events (children w req)))
    as [Hrun | (pre & ev & post & Hevs & Hpre & Hev)].
  - destruct (run_events_from_start L req (now w) _ Hrun) as (H1 & _).
    rewrite H1. exists req. exact Hrun.
  - rewrite Hevs.
    destruct ev as [dt | d | d | | code | m]; simpl in Hev; try discriminate.
    + destruct (runs_longer_than (timer_delay (l_safeTimeout L)) 0 pre) eqn:Hlate.
      * rewrite (settle_after_timeout L req (now w) pre post code Hpre Hlate).
        eexists req, _. split; [reflexivity |].
        exists pre, (Close code), post. rewrite Hlate. simpl. eauto 6.
      * rewrite (settle_on_exit L req (now w) pre post code Hpre Hlate).
        eexists req, _. split; [reflexivity |].
        exists pre, (Close code), post. rewrite Hlate. simpl. eauto 6.
    + rewrite (settle_on_error L req (now w) pre post m Hpre).
      eexists req, _. split; [reflexivity |].
      exists pre, (SpawnFailure m), post. simpl. eauto 6.
Qed.

(** When [spawn] returns a child, the promise is the one around it. *)
Lemma spawn_promise_started (L : Launch) (req : SpawnRequest) (w : State) :
  spawn_refusal w req = None → spawn_promise L req w = spawn_and_wait L req w.
Proof. unfold spawn_promise. now intros ->. Qed.

Lemma spawn_promise_refused (L : Launch) (req : SpawnRequest) (w : State)
    (e : JsError) :
  spawn_refusal w req = Some e →
  spawn_promise L req w = (Threw e, record_effect (EvSpawn req) w).
Proof. unfold spawn_promise. now intros ->. Qed.

Lemma spawn_promise_contract (L : Launch) (req : SpawnRequest) (w : State)
    (why : JsError → Prop) :
  runner_contract w (l_safeTimeout L) why (spawn_promise L req w).
Proof.
  destruct (spawn_refusal w req) as [e |] eqn:Href.
  - rewrite (spawn_promise_refused _ _ _ _ Href). simpl.
    right. exists req. now split.
  - rewrite (spawn_promise_started _ _ _ Href). apply spawn_and_wait_contract.
Qed.

(** [spawn] refuses the request of a PowerShell runner only when the
    system does, and the request of [runPythonScript] also when the
    timeout is negative. *)
Lemma spawn_refusal_powershell (host : Host) (cfg : Config) (w : State)
    (tail : list string) (workDir : string) :
  spawn_refusal w (powershell_request host cfg tail workDir) =
    refusal (children w (powershell_request host cfg tail workDir)).
Proof. reflexivity. Qed.


Section ExecutionFacts.
Context (host : Host) (cfg : Config).

(** [runPythonScript] reaches [spawn] when the script is permitted and
    exists and the working directory is accepted. *)
Lemma runPythonScript_spawns (w : State) (scriptPath : string) (args : list string)
    (cwd : option string) (timeout : Z) (env : gmap string string)
    (validated workDir : string) :
  validatePath host cfg scriptPath = Ok validated →
  is_Some (files w !! validated) →
  choose_workDir host cfg cwd (path_dirname host validated) = Ok workDir →
  runPythonScript host cfg scriptPath args cwd timeout env w =
    spawn_promise
      {| l_noun := "Script"; l_script_path := Some validated; l_workDir := workDir;
         l_safeTimeout := safe_timeout timeout (PYTHON_MAX_TIMEOUT cfg) |}
      (python_request host cfg validated args workDir
         (safe_timeout timeout (PYTHON_MAX_TIMEOUT cfg)) env) w.
Proof.
  intros Hv [c Hc] Hwd. unfold runPythonScript. run_async.
  rewrite Hv. simpl. rewrite Hc. simpl. rewrite Hwd. reflexivity.
Qed.

Lemma runPowerShellScript_spawns (w : State) (scriptPath : string) (args : list string)
    (timeout : Z) (cwd : option string) (validated workDir : string) :
  validatePath host cfg scriptPath = Ok validated →
  is_Some (files w !! validated) →
  choose_workDir host cfg cwd (path_dirname host validated) = Ok workDir →
  runPowerShellScript host cfg scriptPath args timeout cwd w =
    spawn_promise
      {| l_noun := "Script"; l_script_path := Some validated; l_workDir := workDir;
         l_safeTimeout := safe_timeout timeout (POWERSHELL_MAX_TIMEOUT cfg) |}
      (powershell_request host cfg ("-File" :: validated :: args) workDir) w.
Proof.
  intros Hv [c Hc] Hwd. unfold runPowerShellScript. run_async.
  rewrite Hv. simpl. rewrite Hc. simpl. rewrite Hwd. reflexivity.
Qed.

Lemma runPowerShell_spawns (w : State) (command : string) (timeout : Z)
    (cwd : option string) (workDir : string) :
  blank command = false →
  choose_workDir host cfg cwd (os_homedir host) = Ok workDir →
  runPowerShell host cfg command timeout cwd w =
    spawn_promise
      {| l_noun := "Command"; l_script_path := None; l_workDir := workDir;
         l_safeTimeout := safe_timeout timeout (POWERSHELL_MAX_TIMEOUT cfg) |}
      (powershell_request host cfg ["-Command"; command] workDir) w.
Proof.
  intros Hb Hwd. unfold runPowerShell. run_async.
  rewrite Hb. simpl. rewrite Hwd. reflexivity.
Qed.

(** A script that does not exist: both script runners throw before
    anything is spawned. *)
Lemma runPythonScript_missing (w : State) (scriptPath : string) (args : list string)
    (cwd : option string) (timeout : Z) (env : gmap string string) (validated : string) :
  validatePath host cfg scriptPath = Ok validated →
  files w !! validated = None →
  runPythonScript host cfg scriptPath args cwd timeout env w =
    (Threw (Error ("Script not found: " +:+ validated)), w).
Proof.
  intros Hv Hnone. unfold runPythonScript. run_async.
  rewrite Hv. simpl. rewrite Hnone. reflexivity.
Qed.

Lemma runPowerShellScript_missing (w : State) (scriptPath : string)
    (args : list string) (timeout : Z) (cwd : option string) (validated : string) :
  validatePath host cfg scriptPath = Ok validated →
  files w !! validated = None →
  runPowerShellScript host cfg scriptPath args timeout cwd w =
    (Threw (Error ("Script not found: " +:+ validated)), w).
Proof.
  intros Hv Hnone. unfold runPowerShellScript. run_async.
  rewrite Hv. simpl. rewrite Hnone. reflexivity.
Qed.

End ExecutionFacts.


(** ** CodeSafetyFilter *)

Lemma is_suffix_refl (s : string) : is_suffix s s.
Proof. now exists "". Qed.

Lemma is_suffix_cons (c : ascii) (t s : string) :
  is_suffix t s → is_suffix t (String c s).
Proof. intros [pre ->]. now exists (String c pre). Qed.

Lemma is_suffix_tail (c : ascii) (s : string) : is_suffix s (String c s).
Proof. apply is_suffix_cons, is_suffix_refl. Qed.

Lemma is_suffix_trans (a b c : string) : is_suffix a b → is_suffix b c → is_suffix a c.
Proof.
  intros [p ->] [q ->]. exists (q +:+ p). now rewrite append_assoc.
Qed.

Lemma occurs_append (c : ascii) (a b : string) :
  occurs c (a +:+ b) = (occurs c a || occurs c b)%bool.
Proof.
  induction a as [|d a IH]; [reflexivity |].
  rewrite append_cons. simpl. rewrite IH. now rewrite orb_assoc.
Qed.

Lemma occurs_suffix (c : ascii) (t s : string) :
  is_suffix t s → occurs c t = true → occurs c s = true.
Proof.
  intros [pre ->] H. rewrite occurs_append, H. apply orb_true_r.
Qed.

Section MatchFacts.
Context (c : ascii).

(** A successful match hands the continuation a suffix of the input,
    and the input contains every character the expression requires. *)
Lemma accepts_consumes (r : regex) :
  ∀ (prev : option ascii) (s : string) (k : option ascii → string → bool),
    accepts r prev s k = true →
    ∃ p' s', k p' s' = true ∧ is_suffix s' s ∧
             (requires_char c r = true → occurs c s = true).
Proof.
  induction r as [c0 | c0 | cs | | | r1 IH1 r2 IH2 | r1 IH1 r2 IH2 | r' IH];
    intros prev s k H; simpl in H.
  - destruct s as [|d s']; [discriminate |].
    apply andb_true_iff in H. destruct H as [Hc Hk].
    exists (Some d), s'. split; [exact Hk |]. split; [apply is_suffix_tail |].
    simpl. intros Hreq. apply Ascii.eqb_eq in Hc, Hreq. subst.
    now rewrite Ascii.eqb_refl.
  - destruct s as [|d s']; [discriminate |].
    apply andb_true_iff in H. destruct H as [_ Hk].
    exists (Some d), s'. split; [exact Hk |]. split; [apply is_suffix_tail |].
    simpl. discriminate.
  - destruct s as [|d s']; [discriminate |].
    apply andb_true_iff in H. destruct H as [_ Hk].
    exists (Some d), s'. split; [exact Hk |]. split; [apply is_suffix_tail |].
    simpl. discriminate.
  - destruct s as [|d s']; [discriminate |].
    apply andb_true_iff in H. destruct H as [_ Hk].
    exists (Some d), s'. split; [exact Hk |]. split; [apply is_suffix_tail |].
    simpl. discriminate.
  - apply andb_true_iff in H. destruct H as [_ Hk].
    exists prev, s. split; [exact Hk |]. split; [apply is_suffix_refl |].
    simpl. discriminate.
  - apply IH1 in H. destruct H as (p1 & s1 & H2 & Hs1 & Hreq1).
    apply IH2 in H2. destruct H2 as (p2 & s2 & Hk & Hs2 & Hreq2).
    exists p2, s2. split; [exact Hk |].
    split; [eapply is_suffix_trans; eassumption |].
    simpl. intros Hreq. apply orb_true_iff in Hreq. destruct Hreq as [Hr | Hr].
    + now apply Hreq1.
    + eapply occurs_suffix; [exact Hs1 | now apply Hreq2].
  - apply orb_true_iff in H. destruct H as [H | H].
    + apply IH1 in H. destruct H as (p1 & s1 & Hk & Hs1 & Hreq1).
      exists p1, s1. split; [exact Hk |]. split; [exact Hs1 |].
      simpl. intros Hreq. apply andb_true_iff in Hreq. now apply Hreq1.
    + apply IH2 in H. destruct H as (p2 & s2 & Hk & Hs2 & Hreq2).
      exists p2, s2. split; [exact Hk |]. split; [exact Hs2 |].
      simpl. intros Hreq. apply andb_true_iff in Hreq. now apply Hreq2.
  - assert (Hloop : ∀ fuel prev s,
              star_loop (accepts r') k fuel prev s = true →
              ∃ p' s', k p' s' = true ∧ is_suffix s' s).
    { induction fuel as [|fuel IHfuel]; intros prev0 s0 H0; simpl in H0.
      - exists prev0, s0. split; [exact H0 | apply is_suffix_refl].
      - apply orb_true_iff in H0. destruct H0 as [H0 | H0].
        + apply IH in H0. destruct H0 as (p1 & s1 & H1 & Hs1 & _).
          apply andb_true_iff in H1. destruct H1 as [_ H1].
          apply IHfuel in H1. destruct H1 as (p2 & s2 & Hk & Hs2).
          exists p2, s2. split; [exact Hk |]. eapply is_suffix_trans; eassumption.
        + exists prev0, s0. split; [exact H0 | apply is_suffix_refl]. }
    destruct (Hloop _ _ _ H) as (p' & s' & Hk & Hs).
    exists p', s'. split; [exact Hk |]. split; [exact Hs |]. simpl. discriminate.
Qed.

Lemma search_requires (r : regex) (prev : option ascii) (s : string) :
  search r prev s = true → requires_char c r = true → occurs c s = true.
Proof.
  revert prev. induction s as [|d s IH]; intros prev H Hreq; simpl in H.
  - rewrite orb_false_r in H. apply accepts_consumes in H.
    destruct H as (_ & _ & _ & _ & H). now apply H.
  - apply orb_true_iff in H. destruct H as [H | H].
    + apply accepts_consumes in H. destruct H as (_ & _ & _ & _ & H). now apply H.
    + simpl. rewrite (IH _ H Hreq). apply orb_true_r.
Qed.

End MatchFacts.

(** *** The matcher computes the meaning of the expressions *)

(** A match leaves a suffix, and a match that consumes nothing leaves
    everything as it was. *)
Lemma Matches_consumes (r : regex) (p p' : option ascii) (s s' : string) :
  Matches r p s p' s' →
  (String.length s' ≤ String.length s)%nat ∧
  (String.length s' = String.length s → p' = p ∧ s' = s).
Proof.
  induction 1 as [c prev s | c d prev s Hne | cs d prev s Hin | d prev s Hd
                 | prev s Hb
                 | r1 r2 p p1 p2 s s1 s2 H1 IH1 H2 IH2
                 | r1 r2 p p' s s' H1 IH1 | r1 r2 p p' s s' H1 IH1
                 | r p s
                 | r p p1 p2 s s1 s2 H1 IH1 H2 IH2]; simpl;
    try (split; [lia | intros; lia]);
    try (split; [lia | auto; fail]); try exact IH1.
  - destruct IH1 as [Hle1 Heq1], IH2 as [Hle2 Heq2]. split; [lia |].
    intros Hlen.
    assert (Hlen1 : String.length s1 = String.length s) by lia.
    destruct (Heq1 Hlen1) as [-> ->]. apply Heq2. lia.
  - destruct IH1 as [Hle1 Heq1], IH2 as [Hle2 Heq2]. split; [lia |].
    intros Hlen.
    assert (Hlen1 : String.length s1 = String.length s) by lia.
    destruct (Heq1 Hlen1) as [-> ->]. apply Heq2. lia.
Qed.

Lemma accepts_sound (r : regex) :
  ∀ (prev : option ascii) (s : string) (k : option ascii → string → bool),
    accepts r prev s k = true →
    ∃ p' s', Matches r prev s p' s' ∧ k p' s' = true.
Proof.
  induction r as [c0 | c0 | cs | | | r1 IH1 r2 IH2 | r1 IH1 r2 IH2 | r' IH];
    intros prev s k H; simpl in H.
  - destruct s as [|d s']; [discriminate |].
    apply andb_true_iff in H. destruct H as [Hc Hk].
    apply Ascii.eqb_eq in Hc. subst d.
    exists (Some c0), s'. split; [constructor | exact Hk].
  - destruct s as [|d s']; [discriminate |].
    apply andb_true_iff in H. destruct H as [Hc Hk].
    apply negb_true_iff, Ascii.eqb_neq in Hc.
    exists (Some d), s'. split; [now constructor | exact Hk].
  - destruct s as [|d s']; [discriminate |].
    apply andb_true_iff in H. destruct H as [Hc Hk].
    apply existsb_exists in Hc. destruct Hc as (x & Hin & Hx).
    apply Ascii.eqb_eq in Hx. subst x.
    exists (Some d), s'. split; [now constructor | exact Hk].
  - destruct s as [|d s']; [discriminate |].
    apply andb_true_iff in H. destruct H as [Hc Hk].
    exists (Some d), s'. split; [now constructor | exact Hk].
  - apply andb_true_iff in H. destruct H as [Hb Hk].
    exists prev, s. split; [| exact Hk]. constructor.
    destruct (is_word_opt prev), (is_word_opt (head_char s)); simpl in Hb; congruence.
  - apply IH1 in H. destruct H as (p1 & s1 & Hm1 & H2).
    apply IH2 in H2. destruct H2 as (p2 & s2 & Hm2 & Hk).
    exists p2, s2. split; [econstructor; eassumption | exact Hk].
  - apply orb_true_iff in H. destruct H as [H | H].
    + apply IH1 in H. destruct H as (p1 & s1 & Hm & Hk).
      exists p1, s1. split; [now apply MOrL | exact Hk].
    + apply IH2 in H. destruct H as (p1 & s1 & Hm & Hk).
      exists p1, s1. split; [now apply MOrR | exact Hk].
  - revert H. generalize (String.length s). intros fuel. revert prev s.
    induction fuel as [|fuel IHfuel]; intros prev s H; simpl in H.
    + exists prev, s. split; [constructor | exact H].
    + apply orb_true_iff in H. destruct H as [H | H].
      * apply IH in H. destruct H as (p1 & s1 & Hm1 & H1).
        apply andb_true_iff in H1. destruct H1 as [_ H1].
        apply IHfuel in H1. destruct H1 as (p2 & s2 & Hm2 & Hk).
        exists p2, s2. split; [econstructor; eassumption | exact Hk].
      * exists prev, s. split; [constructor | exact H].
Qed.

Lemma accepts_complete (r : regex) :
  ∀ (prev p' : option ascii) (s s' : string) (k : option ascii → string → bool),
    Matches r prev s p' s' → k p' s' = true → accepts r prev s k = true.
Proof.
  induction r as [c0 | c0 | cs | | | r1 IH1 r2 IH2 | r1 IH1 r2 IH2 | r' IH];
    intros prev p' s s' k Hm Hk.
  - inversion Hm; subst. simpl. now rewrite Ascii.eqb_refl, Hk.
  - inversion Hm; subst. simpl.
    match goal with H : c0 ≠ _ |- _ => apply Ascii.eqb_neq in H; rewrite H end.
    simpl. exact Hk.
  - inversion Hm; subst. simpl. rewrite Hk, andb_true_r.
    apply existsb_exists. eexists. split; [eassumption | apply Ascii.eqb_refl].
  - inversion Hm; subst. simpl.
    match goal with H : Js.is_space _ = true |- _ => rewrite H end. exact Hk.
  - inversion Hm; subst. simpl. rewrite Hk, andb_true_r.
    destruct (is_word_opt p'), (is_word_opt (head_char s')); simpl; congruence.
  - inversion Hm; subst. simpl.
    eapply IH1; [eassumption |]. eapply IH2; eassumption.
  - inversion Hm; subst; simpl; apply orb_true_iff.
    + left. eapply IH1; eassumption.
    + right. eapply IH2; eassumption.
  - simpl.
    assert (Hstar : ∀ r0 p s p2 s2,
              Matches r0 p s p2 s2 → r0 = Star r' → k p2 s2 = true →
              ∀ fuel, (String.length s ≤ fuel)%nat →
                      star_loop (accepts r') k fuel p s = true).
    { clear prev p' s s' Hm Hk.
      induction 1 as [| | | | | | |
                      | r p s
                      | r p p1 p2 s s1 s2 H1 _ H2 IHstar];
        intros Heq Hk fuel Hfuel; try discriminate.
      - destruct fuel; simpl; [exact Hk | rewrite Hk; apply orb_true_r].
      - injection Heq as ->.
        destruct (Matches_consumes _ _ _ _ _ H1) as [Hle Hsame].
        destruct (Nat.eq_dec (String.length s1) (String.length s)) as [Hlen | Hlen].
        + destruct (Hsame Hlen) as [-> ->]. now apply IHstar.
        + destruct fuel as [|fuel]; [lia |]. simpl. apply orb_true_iff. left.
          eapply IH; [exact H1 |].
          apply andb_true_iff. split; [apply Nat.ltb_lt; lia |].
          apply IHstar; auto. lia. }
    eapply Hstar; eauto.
Qed.

(** [accepts] decides the meaning of the expression. *)
Lemma accepts_Matches (r : regex) (prev : option ascii) (s : string)
    (k : option ascii → string → bool) :
  accepts r prev s k = true ↔ ∃ p' s', Matches r prev s p' s' ∧ k p' s' = true.
Proof.
  split; [apply accepts_sound |].
  intros (p' & s' & Hm & Hk). eapply accepts_complete; eassumption.
Qed.

Lemma search_Matches (r : regex) (s : string) :
  ∀ prev,
    search r prev s = true ↔
    ∃ a b p' s', s = a +:+ b ∧ Matches r (last_before prev a) b p' s'.
Proof.
  induction s as [|d s IH]; intros prev; simpl.
  - rewrite orb_false_r, accepts_Matches. split.
    + intros (p' & s' & Hm & _). now exists "", "", p', s'.
    + intros (a & b & p' & s' & Heq & Hm).
      destruct a; [| discriminate]. rewrite append_nil in Heq. subst b.
      exists p', s'. auto.
  - rewrite orb_true_iff, accepts_Matches, IH. split.
    + intros [(p' & s' & Hm & _) | (a & b & p' & s' & -> & Hm)].
      * now exists "", (String d s), p', s'.
      * now exists (String d a), b, p', s'.
    + intros (a & b & p' & s' & Heq & Hm). destruct a as [|c a].
      * left. rewrite append_nil in Heq. subst b. exists p', s'. auto.
      * right. rewrite append_cons in Heq. injection Heq as -> ->.
        now exists a, b, p', s'.
Qed.

(** [pattern.test(s)] holds exactly when the expression matches some
    part of [s]. *)
Lemma test_Matches (r : regex) (s : string) :
  test r s = true ↔
  ∃ a b p' s', s = a +:+ b ∧ Matches r (last_before None a) b p' s'.
Proof. apply search_Matches. Qed.

(** Every pattern needs an opening bracket. *)
Lemma patterns_require_bracket :
  Forall (fun p => requires_char "("%char (re p) = true) DANGEROUS_PATTERNS.
Proof. repeat constructor. Qed.

Lemma occurs_trimStart (c : ascii) (s : string) :
  Js.is_space c = false → occurs c s = true → occurs c (Js.trimStart s) = true.
Proof.
  intros Hc. induction s as [|d s IH]; simpl; [auto |].
  intros H. destruct (Js.is_space d) eqn:Hd; [| exact H].
  apply orb_true_iff in H. destruct H as [H | H]; [| now apply IH].
  apply Ascii.eqb_eq in H. subst. congruence.
Qed.

Lemma occurs_rev_string (c : ascii) (s acc : string) :
  occurs c (Js.rev_string s acc) = (occurs c s || occurs c acc)%bool.
Proof.
  revert acc. induction s as [|d s IH]; intros acc; simpl; [reflexivity |].
  rewrite IH. simpl. destruct (Ascii.eqb c d), (occurs c s); reflexivity.
Qed.

(** Text with a character that is not white space is not blank. *)
Lemma occurs_not_blank (c : ascii) (s : string) :
  Js.is_space c = false → occurs c s = true → blank s = false.
Proof.
  intros Hc H. unfold blank.
  assert (Htrim : occurs c (Js.trim s) = true).
  { unfold Js.trim. rewrite occurs_rev_string, orb_false_r.
    apply occurs_trimStart; [exact Hc |].
    rewrite occurs_rev_string, orb_false_r. now apply occurs_trimStart. }
  destruct s as [|d s]; [discriminate |].
  destruct (Js.trim (String d s)); [discriminate | reflexivity].
Qed.

(** Code that a pattern matches is not blank. *)
Lemma matched_code_not_blank (pattern : Pattern) (code : string) :
  pattern ∈ DANGEROUS_PATTERNS → test (re pattern) code = true → blank code = false.
Proof.
  intros Hin Htest.
  apply (occurs_not_blank "("%char); [reflexivity |].
  apply (search_requires _ (re pattern) None); [exact Htest |].
  pose proof patterns_require_bracket as Hall.
  rewrite Forall_forall in Hall. now apply Hall.
Qed.

(** The scan stops at the first pattern that matches. *)
Lemma scan_patterns_first (code : string) (patterns : list Pattern) (pattern : Pattern) :
  pattern ∈ patterns → test (re pattern) code = true →
  ∃ first earlier later,
    patterns = (earlier ++ first :: later)%list ∧
    Forall (fun p => test (re p) code = false) earlier ∧
    test (re first) code = true ∧
    scan_patterns code patterns =
      {| safe := false;
         reason := Some ("Dangerous pattern detected: " +:+ toString first) |}.
Proof.
  intros Hin Htest. induction patterns as [|p rest IH]; [inversion Hin |].
  simpl. destruct (test (re p) code) eqn:Hp.
  - exists p, [], rest. auto.
  - assert (Hrest : pattern ∈ rest).
    { inversion Hin; subst; [congruence | assumption]. }
    destruct (IH Hrest) as (first & earlier & later & -> & Hall & Hfirst & Hscan).
    exists first, (p :: earlier), later. auto.
Qed.

Lemma scan_patterns_safe (code : string) (patterns : list Pattern) :
  safe (scan_patterns code patterns) = true ↔
  Forall (fun p => test (re p) code = false) patterns.
Proof.
  induction patterns as [|p rest IH]; simpl.
  - split; auto.
  - destruct (test (re p) code) eqn:Hp; simpl.
    + split; [discriminate | intros H; inversion H; congruence].
    + rewrite IH. split; [intros H; now constructor | intros H; now inversion H].
Qed.

(** ** InterpreterFacade *)

(** The cleanup always returns. It leaves no file at the path unless the
    file is pinned, and then it changes nothing. *)
Lemma unlink_quietly_returns (p : string) (w : State) :
  ∃ w', unlink_quietly p w = (Returned tt, w') ∧
        pinned w' = pinned w ∧
        (∀ e, e ∈ effects w → e ∈ effects w') ∧
        (pinned w !! p = None → files w' !! p = None) ∧
        (is_Some (pinned w !! p) → w' = w).
Proof.
  unfold unlink_quietly. run_async.
  destruct (files w !! p) as [c |] eqn:Hc; simpl.
  - destruct (pinned w !! p) as [e |] eqn:Hp; simpl.
    + eexists. split; [reflexivity |]. repeat split; auto. discriminate.
    + eexists. split; [reflexivity |]. simpl. repeat split.
      * intros e He. apply elem_of_app. now left.
      * intros _. apply lookup_delete_eq.
      * intros [e He]. discriminate.
  - eexists. split; [reflexivity |]. repeat split; auto.
Qed.

(** A body wrapped in the cleanup: the outcome is the outcome of the
    body; when the body has ended, its effects are kept, and no file is
    left at the path unless it is pinned, and then nothing is changed. *)
Lemma try_finally_cleanup {A} (body : Async A) (p : string) (w : State) :
  let run := try_finally body (unlink_quietly p) w in
  run.1 = (body w).1 ∧
  ((body w).1 ≠ Pending →
   pinned run.2 = pinned (body w).2 ∧
   (∀ e, e ∈ effects (body w).2 → e ∈ effects run.2) ∧
   (pinned (body w).2 !! p = None → files run.2 !! p = None) ∧
   (is_Some (pinned (body w).2 !! p) → run.2 = (body w).2)).
Proof.
  unfold try_finally. destruct (body w) as [o w1].
  destruct (unlink_quietly_returns p w1) as (w2 & Hfin & Hpin & Hkeep & Hgone & Hstay).
  rewrite Hfin. destruct o; simpl; split; auto; congruence.
Qed.

Section RunnerTheorems.
Context (host : Host) (cfg : Config).

Lemma runPythonScript_contract (w : State) (scriptPath : string) (args : list string)
    (cwd : option string) (timeout : Z) (env : gmap string string) :
  runner_contract w (safe_timeout timeout (PYTHON_MAX_TIMEOUT cfg))
    (script_runner_throws host cfg w scriptPath cwd)
    (runPythonScript host cfg scriptPath args cwd timeout env w).
Proof.
  destruct (validatePath host cfg scriptPath) as [validated | e] eqn:Hv.
  - destruct (files w !! validated) as [c |] eqn:Hc.
    + destruct (choose_workDir host cfg cwd (path_dirname host validated))
        as [workDir | e] eqn:Hwd.
      * rewrite (runPythonScript_spawns host cfg w _ args cwd timeout env _ _ Hv
                   (mk_is_Some _ _ Hc) Hwd).
        apply (spawn_promise_contract
                 {| l_noun := "Script"; l_script_path := Some validated;
                    l_workDir := workDir;
                    l_safeTimeout := safe_timeout timeout (PYTHON_MAX_TIMEOUT cfg) |}).
      * unfold runPythonScript. run_async. rewrite Hv. simpl. rewrite Hc. simpl.
        rewrite Hwd. simpl. left. split; [reflexivity |].
        right. exists validated. split; [exact Hv |]. right. rewrite Hc. eauto.
    + rewrite (runPythonScript_missing host cfg w _ args cwd timeout env _ Hv Hc).
      simpl. left. split; [reflexivity |].
      right. exists validated. split; [exact Hv |]. left. auto.
  - unfold runPythonScript. run_async. rewrite Hv. simpl.
    left. split; [reflexivity |]. now left.
Qed.

Lemma runPowerShellScript_contract (w : State) (scriptPath : string)
    (args : list string) (timeout : Z) (cwd : option string) :
  runner_contract w (safe_timeout timeout (POWERSHELL_MAX_TIMEOUT cfg))
    (script_runner_throws host cfg w scriptPath cwd)
    (runPowerShellScript host cfg scriptPath args timeout cwd w).
Proof.
  destruct (validatePath host cfg scriptPath) as [validated | e] eqn:Hv.
  - destruct (files w !! validated) as [c |] eqn:Hc.
    + destruct (choose_workDir host cfg cwd (path_dirname host validated))
        as [workDir | e] eqn:Hwd.
      * rewrite (runPowerShellScript_spawns host cfg w _ args timeout cwd _ _ Hv
                   (mk_is_Some _ _ Hc) Hwd).
        apply (spawn_promise_contract
                 {| l_noun := "Script"; l_script_path := Some validated;
                    l_workDir := workDir;
                    l_safeTimeout := safe_timeout timeout (POWERSHELL_MAX_TIMEOUT cfg) |}).
      * unfold runPowerShellScript. run_async. rewrite Hv. simpl. rewrite Hc. simpl.
        rewrite Hwd. simpl. left. split; [reflexivity |].
        right. exists validated. split; [exact Hv |]. right. rewrite Hc. eauto.
    + rewrite (runPowerShellScript_missing host cfg w _ args timeout cwd _ Hv Hc).
      simpl. left. split; [reflexivity |].
      right. exists validated. split; [exact Hv |]. left. auto.
  - unfold runPowerShellScript. run_async. rewrite Hv. simpl.
    left. split; [reflexivity |]. now left.
Qed.

Lemma runPowerShell_contract (w : State) (command : string) (timeout : Z)
    (cwd : option string) :
  runner_contract w (safe_timeout timeout (POWERSHELL_MAX_TIMEOUT cfg))
    (command_runner_throws host cfg command cwd)
    (runPowerShell host cfg command timeout cwd w).
Proof.
  destruct (blank command) eqn:Hb.
  - unfold runPowerShell. run_async. rewrite Hb. simpl.
    left. split; [reflexivity |]. left. auto.
  - destruct (choose_workDir host cfg cwd (os_homedir host)) as [workDir | e] eqn:Hwd.
    + rewrite (runPowerShell_spawns host cfg w _ timeout cwd _ Hb Hwd).
      apply (spawn_promise_contract
               {| l_noun := "Command"; l_script_path := None; l_workDir := workDir;
                  l_safeTimeout := safe_timeout timeout (POWERSHELL_MAX_TIMEOUT cfg) |}).
    + unfold runPowerShell. run_async. rewrite Hb. simpl. rewrite Hwd. simpl.
      left. split; [reflexivity |]. right. auto.
Qed.

(** A result that encodes an outcome has one of two shapes. *)
Lemma encodes_outcome_shapes (safeTimeout : Z) (evs : list ProcEvent) (r : ExecResult) :
  encodes_outcome safeTimeout evs r →
  failure_encoded r ∨ (error r = None ∧ success r = is_zero (exit_code r)).
Proof.
  intros (pre & ev & post & _ & _ & H).
  destruct ev as [dt | d | d | | code | m]; try contradiction.
  - destruct (runs_longer_than (timer_delay safeTimeout) 0 pre).
    + left. exact H.
    + right. destruct H as (Hs & Hc & He). rewrite Hc. auto.
  - left. destruct H as (Hs & Hc & He). unfold failure_encoded.
    rewrite He. eauto.
Qed.

(** C6 (as amended). The three runners never throw for what happens to
    a child. A call that throws has started no child: either it throws
    before [spawn] is called and leaves everything untouched (a blank
    command, a denied path, a missing script), or [spawn] itself raised
    the error and returned no child. Every other call has started
    exactly one child and returns a result decided by the first
    ['error'] or ['close'] event (or waits for one): a spawn error gives
    [success = false], exit code [-1] and the error message; a close
    after the timer has run gives [success = false], exit code [-1] and
    a timeout message; a close before gives the exit code of the child,
    [success] exactly when that code is [0], and no error message. *)
Theorem process_failures_are_results (w : World) :
  (∀ scriptPath args cwd timeout env,
     runner_contract w (safe_timeout timeout (PYTHON_MAX_TIMEOUT cfg))
       (script_runner_throws host cfg w scriptPath cwd)
       (runPythonScript host cfg scriptPath args cwd timeout env w))
  ∧
  (∀ command timeout cwd,
     runner_contract w (safe_timeout timeout (POWERSHELL_MAX_TIMEOUT cfg))
       (command_runner_throws host cfg command cwd)
       (runPowerShell host cfg command timeout cwd w))
  ∧
  (∀ scriptPath args timeout cwd,
     runner_contract w (safe_timeout timeout (POWERSHELL_MAX_TIMEOUT cfg))
       (script_runner_throws host cfg w scriptPath cwd)
       (runPowerShellScript host cfg scriptPath args timeout cwd w))
  ∧
  (∀ safeTimeout evs r,
     encodes_outcome safeTimeout evs r →
     failure_encoded r ∨ (error r = None ∧ success r = is_zero (exit_code r))).
Proof.
  split; [| split; [| split]].
  - intros. apply runPythonScript_contract.
  - intros. apply runPowerShell_contract.
  - intros. apply runPowerShellScript_contract.
  - exact encodes_outcome_shapes.
Qed.

End RunnerTheorems.

Section InterpreterTheorems.
Context (host : Host) (cfg : Config).

(** C7. Inline code that one of the patterns matches is rejected: the
    patterns are tried in order, the first that matches is named in the
    reason, and [runPythonCode] throws the security error with the
    world as it was before the call. No temporary file has been
    written and no child has been spawned. *)
Theorem unsafe_code_is_rejected (w : World) (code : string) (timeout : Z)
    (cwd : option string) (env : gmap string string) (pattern : Pattern) :
  pattern ∈ DANGEROUS_PATTERNS →
  test (re pattern) code = true →
  ∃ first earlier later,
    DANGEROUS_PATTERNS = (earlier ++ first :: later)%list ∧
    Forall (fun p => test (re p) code = false) earlier ∧
    test (re first) code = true ∧
    checkPythonCodeSafety code =
      {| safe := false;
         reason := Some ("Dangerous pattern detected: " +:+ toString first) |} ∧
    runPythonCode host cfg code timeout cwd env w =
      (Threw (Error ("Security check failed: Dangerous pattern detected: " +:+
                     toString first)), w).
Proof.
  intros Hin Htest.
  destruct (scan_patterns_first code DANGEROUS_PATTERNS pattern Hin Htest)
    as (first & earlier & later & Hsplit & Hearlier & Hfirst & Hscan).
  exists first, earlier, later. repeat split; auto.
  unfold runPythonCode. run_async.
  rewrite (matched_code_not_blank pattern code Hin Htest). simpl.
  unfold checkPythonCodeSafety. rewrite Hscan. reflexivity.
Qed.

(** The effects made so far are still there after [runPythonScript]
    returns or throws. *)
Lemma runPythonScript_keeps_effects (w w' : State) (scriptPath : string)
    (args : list string) (cwd : option string) (timeout : Z)
    (env : gmap string string) (o : outcome ExecResult) (e : Effect) :
  runPythonScript host cfg scriptPath args cwd timeout env w = (o, w') →
  o ≠ Pending →
  e ∈ effects w → e ∈ effects w'.
Proof.
  intros Hrun Ho He.
  pose proof (runPythonScript_contract host cfg w scriptPath args cwd timeout env) as Hc.
  rewrite Hrun in Hc. destruct o as [r | err |]; simpl in Hc.
  - destruct Hc as (req & signals & Heff & _). rewrite Heff.
    apply elem_of_app. now left.
  - destruct Hc as [[-> _] | (req & _ & ->)]; [exact He |].
    simpl. apply elem_of_app. now left.
  - congruence.
Qed.

(** After the two checks, [runPythonCode] is the staged execution
    wrapped in the cleanup. *)
Lemma runPythonCode_stages (w : State) (code : string) (timeout : Z)
    (cwd : option string) (env : gmap string string) :
  blank code = false →
  safe (checkPythonCodeSafety code) = true →
  runPythonCode host cfg code timeout cwd env w =
    let tempFile := python_temp_file host (now w) (entropy w (draws w)) in
    try_finally
      (fs_writeFile tempFile code ;;;
       result <- runPythonScript host cfg tempFile []
                   (if Js.truthy_opt cwd then cwd else Some (os_tmpdir host))
                   timeout env ;;
       ret (with_code_preview result code))
      (unlink_quietly tempFile)
      {| files := files w; now := now w; effects := effects w;
         children := children w; entropy := entropy w; draws := S (draws w);
         pinned := pinned w |}.
Proof.
  intros Hb Hsafe. unfold runPythonCode.
  unfold bind at 1. rewrite Hb. unfold ret at 1.
  unfold bind at 1. rewrite Hsafe. unfold ret at 1.
  reflexivity.
Qed.

(** The body of the [try] block is the execution of the staged file,
    with the preview added to its result. *)
Lemma staged_execution (w : State) (tempFile code : string) (cwd : option string)
    (timeout : Z) (env : gmap string string) :
  let execution :=
    runPythonScript host cfg tempFile [] cwd timeout env (staged w tempFile code) in
  (fs_writeFile tempFile code ;;;
   result <- runPythonScript host cfg tempFile [] cwd timeout env ;;
   ret (with_code_preview result code))
    {| files := files w; now := now w; effects := effects w;
       children := children w; entropy := entropy w; draws := S (draws w);
       pinned := pinned w |} =
  (outcome_map (fun r => with_code_preview r code) execution.1, execution.2).
Proof.
  cbn zeta. unfold bind, fs_writeFile, ret, staged.
  destruct (runPythonScript _ _ _ _ _ _ _ _) as [[r | e |] w2]; reflexivity.
Qed.

(** What an invocation that passes both checks does: the outcome is
    that of the execution of the staged file; when it ends, the write
    is among its effects, the file is gone unless it is pinned, and a
    pinned file stays as the execution left it. *)
Lemma runPythonCode_cleanup (w : State) (code : string) (timeout : Z)
    (cwd : option string) (env : gmap string string) :
  blank code = false →
  safe (checkPythonCodeSafety code) = true →
  let tempFile := python_temp_file host (now w) (entropy w (draws w)) in
  let execution :=
    runPythonScript host cfg tempFile []
      (if Js.truthy_opt cwd then cwd else Some (os_tmpdir host)) timeout env
      (staged w tempFile code) in
  let run := runPythonCode host cfg code timeout cwd env w in
  run.1 = outcome_map (fun r => with_code_preview r code) execution.1 ∧
  (run.1 ≠ Pending →
   EvWriteFile tempFile code ∈ effects run.2 ∧
   pinned run.2 = pinned execution.2 ∧
   (pinned run.2 !! tempFile = None → files run.2 !! tempFile = None) ∧
   (is_Some (pinned execution.2 !! tempFile) → run.2 = execution.2) ∧
   (∀ e, e ∈ effects execution.2 → e ∈ effects run.2)).
Proof.
  intros Hb Hsafe tempFile execution run. subst run.
  rewrite (runPythonCode_stages w code timeout cwd env Hb Hsafe).
  cbn zeta. fold tempFile.
  match goal with
  | |- context [try_finally ?body ?fin ?w0] =>
      destruct (try_finally_cleanup body tempFile w0) as [Hout Hends];
      pose proof (staged_execution w tempFile code
                    (if Js.truthy_opt cwd then cwd else Some (os_tmpdir host))
                    timeout env) as Hbody
  end.
  cbn zeta in Hout, Hends, Hbody. fold execution in Hbody.
  rewrite Hbody in Hout, Hends. simpl in Hout, Hends.
  split; [exact Hout |]. rewrite Hout. intros Hne.
  destruct (Hends Hne) as (Hpin & Hkeep & Hgone & Hstay).
  split; [| split; [exact Hpin | split; [now rewrite Hpin | split; [exact Hstay | exact Hkeep]]]].
  apply Hkeep.
  destruct execution as [o w2] eqn:Hrun. simpl in *.
  eapply runPythonScript_keeps_effects; [exact Hrun | |].
  - destruct o; simpl in Hne; congruence.
  - unfold staged, record_effect. simpl. apply elem_of_app. right. now left.
Qed.


(** C8 (as amended). An invocation of [runPythonCode] that passes both
    checks writes the code to the temporary file and, on every exit,
    tries to remove it. The outcome of the invocation is the outcome of
    the execution of the staged file, whether or not the removal
    succeeds. When the invocation ends, by returning a result (normal
    exit, failed execution, timeout) or by throwing, no file is left at
    that path unless the file is pinned; a pinned file stays, exactly
    as the execution left it, and the failed removal is swallowed. *)
Theorem temp_file_removed_on_exit (w : World) (code : string) (timeout : Z)
    (cwd : option string) (env : gmap string string) :
  blank code = false →
  safe (checkPythonCodeSafety code) = true →
  let tempFile := python_temp_file host (now w) (entropy w (draws w)) in
  let execution :=
    runPythonScript host cfg tempFile []
      (if Js.truthy_opt cwd then cwd else Some (os_tmpdir host)) timeout env
      (staged w tempFile code) in
  let run := runPythonCode host cfg code timeout cwd env w in
  run.1 = outcome_map (fun r => with_code_preview r code) execution.1 ∧
  (run.1 ≠ Pending →
   EvWriteFile tempFile code ∈ effects run.2 ∧
   (pinned run.2 !! tempFile = None → files run.2 !! tempFile = None) ∧
   (is_Some (pinned execution.2 !! tempFile) →
    files run.2 = files execution.2 ∧ effects run.2 = effects execution.2)).
Proof.
  intros Hb Hsafe tempFile execution run.
  destruct (runPythonCode_cleanup w code timeout cwd env Hb Hsafe) as [Hout Hends].
  split; [exact Hout |]. intros Hne.
  destruct (Hends Hne) as (Hw & _ & Hgone & Hstay & _).
  split; [exact Hw |]. split; [exact Hgone |].
  intros Hpinned. subst run. fold tempFile. now rewrite (Hstay Hpinned).
Qed.

(** While the child never closes, the invocation does not end and the
    file stays. *)
Lemma temp_file_stays_while_pending :
  let run := runPythonCode Sample.host Sample.cfg "print(1)" 1000 (Some "/tmp/work") ∅
               (Sample.world ∅ [Tick 1500]) in
  run.1 = Pending ∧
  files run.2 !! "/tmp/darkside_python_1700000000000_k3x9q.py" = Some "print(1)".
Proof. split; reflexivity. Qed.

(** The entries of the environment of the Python child. *)
Lemma python_env_lookup (env : gmap string string) (k : string) :
  python_env host env !! k =
    match env !! k with
    | Some v => Some v
    | None =>
        if bool_decide (k = "PYTHONDONTWRITEBYTECODE" ∨ k = "PYTHONUNBUFFERED")
        then Some "1" else process_env host !! k
    end.
Proof.
  unfold python_env. rewrite lookup_union.
  destruct (env !! k) as [v |] eqn:Hk.
  - rewrite union_Some_l. reflexivity.
  - rewrite (left_id None _).
    destruct (decide (k = "PYTHONDONTWRITEBYTECODE")) as [-> | Hne1].
    { rewrite lookup_insert_eq. reflexivity. }
    rewrite lookup_insert_ne by congruence.
    destruct (decide (k = "PYTHONUNBUFFERED")) as [-> | Hne2].
    { rewrite lookup_insert_eq. reflexivity. }
    rewrite lookup_insert_ne by congruence.
    rewrite bool_decide_eq_false_2; [reflexivity | intros [? | ?]; congruence].
Qed.

(** The effects of the promise: the call of [spawn], then the calls of
    [kill], if any. *)
Lemma spawn_promise_effects (L : Launch) (req : SpawnRequest) (w : State) :
  ∃ signals,
    effects (spawn_promise L req w).2 =
      (effects w ++ EvSpawn req :: map EvKill signals)%list.
Proof.
  unfold spawn_promise. destruct (spawn_refusal w req).
  - exists []. reflexivity.
  - eexists. reflexivity.
Qed.

(** C9 (as amended). The Python child is started with the ambient
    environment, overlaid with [PYTHONUNBUFFERED=1] and
    [PYTHONDONTWRITEBYTECODE=1], overlaid in turn with the entries of
    the request. Both variables are always present; each has the value
    [1] unless the request sets it, and then it has the value of the
    request. *)
Theorem python_child_environment (w : World) (scriptPath : string)
    (args : list string) (cwd : option string) (timeout : Z)
    (env : gmap string string) (validated workDir : string) :
  validatePath host cfg scriptPath = Ok validated →
  is_Some (files w !! validated) →
  choose_workDir host cfg cwd (path_dirname host validated) = Ok workDir →
  ∃ req signals,
    effects (runPythonScript host cfg scriptPath args cwd timeout env w).2 =
      (effects w ++ EvSpawn req :: map EvKill signals)%list ∧
    sp_env req = env ∪ (<["PYTHONDONTWRITEBYTECODE" := "1"]>
                          (<["PYTHONUNBUFFERED" := "1"]> (process_env host))) ∧
    (∀ k, sp_env req !! k =
            match env !! k with
            | Some v => Some v
            | None =>
                if bool_decide (k = "PYTHONDONTWRITEBYTECODE" ∨ k = "PYTHONUNBUFFERED")
                then Some "1" else process_env host !! k
            end) ∧
    is_Some (sp_env req !! "PYTHONUNBUFFERED") ∧
    is_Some (sp_env req !! "PYTHONDONTWRITEBYTECODE") ∧
    (env !! "PYTHONUNBUFFERED" = None → sp_env req !! "PYTHONUNBUFFERED" = Some "1") ∧
    (env !! "PYTHONDONTWRITEBYTECODE" = None →
     sp_env req !! "PYTHONDONTWRITEBYTECODE" = Some "1").
Proof.
  intros Hv Hex Hwd.
  rewrite (runPythonScript_spawns host cfg w _ args cwd timeout env _ _ Hv Hex Hwd).
  match goal with
  | |- context [spawn_promise ?L ?req _] =>
      destruct (spawn_promise_effects L req w) as [signals Heff];
      exists req, signals
  end.
  split; [exact Heff |]. split; [reflexivity |].
  change (sp_env _) with (python_env host env).
  split; [apply python_env_lookup |].
  rewrite !python_env_lookup. simpl.
  repeat split.
  - destruct (env !! "PYTHONUNBUFFERED"); eauto.
  - destruct (env !! "PYTHONDONTWRITEBYTECODE"); eauto.
  - intros ->. reflexivity.
  - intros ->. reflexivity.
Qed.

(** C10. [checkPythonSyntax] given the path of a script that is
    permitted and does not exist returns a result with [valid = false]
    whose [errors] name the missing script, and touches nothing; the
    two script runners throw [Script not found] on such a path. *)
Theorem checkPythonSyntax_missing_script (w : World) (code : option string)
    (scriptPath validated : string) :
  Js.truthy_opt code = false →
  Js.truthy scriptPath = true →
  validatePath host cfg scriptPath = Ok validated →
  files w !! validated = None →
  checkPythonSyntax host cfg code (Some scriptPath) w =
    (Returned (SyntaxUnchecked ["Script not found: " +:+ validated] "file"), w) ∧
  valid (SyntaxUnchecked ["Script not found: " +:+ validated] "file") = false ∧
  (∀ args cwd timeout env,
     runPythonScript host cfg scriptPath args cwd timeout env w =
       (Threw (Error ("Script not found: " +:+ validated)), w)) ∧
  (∀ args timeout cwd,
     runPowerShellScript host cfg scriptPath args timeout cwd w =
       (Threw (Error ("Script not found: " +:+ validated)), w)).
Proof.
  intros Hcode Hpath Hv Hnone. split; [| split; [reflexivity | split]].
  - unfold checkPythonSyntax. run_async. rewrite Hcode, Hpath. simpl.
    rewrite Hv. simpl. rewrite Hnone. reflexivity.
  - intros. now apply runPythonScript_missing.
  - intros. now apply runPowerShellScript_missing.
Qed.

End InterpreterTheorems.

(** ** The theorems on the sample installation *)

(** C1 (the failing input). With [ALLOWED_DRIVES=c] the first character
    of [c:/data] is, whatever its case, a configured drive letter, and
    the rule of the specification permits the path; [validatePath]
    denies it, in lower case and in upper case alike, because it
    upper-cases the character of the path and leaves the configured
    entry as written. With the drive configured as [C], both are
    accepted. *)
Theorem validatePath_lowercase_drive_denied :
  ALLOWED_DRIVES Sample.cfg_lowercase = ["c"] ∧
  spec_permitted Sample.cfg_lowercase (path_normalize Sample.host "c:/data") = true ∧
  validatePath Sample.host Sample.cfg_lowercase "c:/data" =
    Throw (Error "Access denied: Path c:/data not in allowed list (drives: c, paths: none)") ∧
  validatePath Sample.host Sample.cfg_lowercase "C:/data" =
    Throw (Error "Access denied: Path C:/data not in allowed list (drives: c, paths: none)") ∧
  validatePath Sample.host Sample.cfg "c:/data" = Ok "c:/data" ∧
  validatePath Sample.host Sample.cfg "C:/data" = Ok "C:/data".
Proof. repeat split; reflexivity. Qed.



(** C6 (as stated) fails for a non-zero exit: the result carries the exit
    code of the child, not the sentinel, and no error message. And a
    well-formed request can make the call throw: with a negative
    maximum for the timeout, [spawn] itself raises. *)
Lemma nonzero_exit_keeps_its_code :
  let r := {| success := false; exit_code := Some 3; stdout := ""; stderr := "";
              duration_ms := 0; error := None; script_path := None;
              working_directory := "/home/user"; code_preview := None |} in
  (runPowerShell Sample.host Sample.cfg "exit 3" 60000 None
     (Sample.world ∅ [Close (Some 3)])).1 = Returned r ∧
  ¬ failure_encoded r ∧
  (runPythonScript Sample.host SampleRuns.cfg_negative_max "/tmp/a.py" [] None 1000 ∅
     (Sample.world {[ "/tmp/a.py" := "print(1)" ]} [Close (Some 0)])).1 =
    Threw (ArgumentError "RangeError" "ERR_OUT_OF_RANGE" "timeout").
Proof.
  split; [vm_compute; reflexivity |]. split; [| reflexivity].
  intros (_ & Hcode & _). discriminate.
Qed.

Lemma process_failures_are_results_witness :
  ∃ r w',
    runPowerShell Sample.host Sample.cfg "Get-Process" 60000 None
      (Sample.world ∅ [SpawnFailure "spawn powershell.exe ENOENT"]) = (Returned r, w') ∧
    failure_encoded r.
Proof.
  destruct (process_failures_are_results Sample.host Sample.cfg
              (Sample.start ∅ [SpawnFailure "spawn powershell.exe ENOENT"]))
    as (_ & Hps & _ & Hshape).
  specialize (Hps "Get-Process" 60000 None).
  change (state (Sample.start ∅ [SpawnFailure "spawn powershell.exe ENOENT"]))
    with (Sample.world ∅ [SpawnFailure "spawn powershell.exe ENOENT"]) in Hps.
  destruct (runPowerShell Sample.host Sample.cfg "Get-Process" 60000 None
              (Sample.world ∅ [SpawnFailure "spawn powershell.exe ENOENT"]))
    as [o w'] eqn:Hrun.
  assert (Ho : o = Returned
                     {| success := false; exit_code := Some (-1);
                        stdout := ""; stderr := ""; duration_ms := 0;
                        error := Some "spawn powershell.exe ENOENT";
                        script_path := None; working_directory := "/home/user";
                        code_preview := None |}).
  { apply (f_equal fst) in Hrun. simpl in Hrun. rewrite <- Hrun.
    vm_compute. reflexivity. }
  subst o. simpl in Hps. destruct Hps as (req & signals & _ & Henc).
  eexists _, w'. split; [reflexivity |].
  destruct (Hshape _ _ _ Henc) as [Hf | [He _]]; [exact Hf | discriminate He].
Defined.

Lemma unsafe_code_is_rejected_witness :
  runPythonCode Sample.host Sample.cfg "import shutil; shutil.rmtree('/data')" 30000
    None ∅ (Sample.world ∅ [Close (Some 0)]) =
    (Threw (Error
       "Security check failed: Dangerous pattern detected: /\bshutil\.rmtree\s*\(/"),
     Sample.world ∅ [Close (Some 0)]).
Proof.
  destruct (unsafe_code_is_rejected Sample.host Sample.cfg
              (Sample.start ∅ [Close (Some 0)])
              "import shutil; shutil.rmtree('/data')" 30000 None ∅
              {| re := call_of "s" "hutil.rmtree"; source := "\bshutil\.rmtree\s*\(" |})
    as (first & earlier & later & _ & _ & _ & Hcheck & Hrun).
  - unfold DANGEROUS_PATTERNS. do 6 apply list_elem_of_further. apply list_elem_of_here.
  - reflexivity.
  - change (state (Sample.start ∅ [Close (Some 0)]))
      with (Sample.world ∅ [Close (Some 0)]) in Hrun.
    rewrite Hrun.
    assert (Hreason : "Dangerous pattern detected: " +:+ toString first =
                      "Dangerous pattern detected: /\bshutil\.rmtree\s*\(/").
    { assert (Hc : reason (checkPythonCodeSafety "import shutil; shutil.rmtree('/data')") =
                   Some "Dangerous pattern detected: /\bshutil\.rmtree\s*\(/")
        by reflexivity.
      rewrite Hcheck in Hc. simpl in Hc. congruence. }
    change ("Security check failed: Dangerous pattern detected: " +:+ toString first)
      with ("Security check failed: " +:+
            ("Dangerous pattern detected: " +:+ toString first)).
    rewrite Hreason. reflexivity.
Defined.

(** The no-break space is white space to [\s]: of the two patterns that
    match this text, the one for [eval] comes first. *)
Lemma no_break_space_before_bracket :
  reason (checkPythonCodeSafety ("eval" +:+ String (ascii_of_nat 160) "(1); exec(2)")) =
    Some "Dangerous pattern detected: /\beval\s*\(/".
Proof. reflexivity. Qed.

(** [toUpperCase] beyond the letters [a]-[z]: with the drive configured
    as the capital A with a grave accent [0xC0], a path that starts with
    the small letter [0xE0] is accepted. *)
Lemma validatePath_upper_cases_beyond_ascii :
  let cfg := {| ALLOWED_DRIVES := [String (ascii_of_nat 192) ""];
                ALLOWED_PATHS := [];
                PYTHON_PATH := "python"; PYTHON_TIMEOUT := 30000;
                PYTHON_MAX_TIMEOUT := 300000;
                POWERSHELL_PATH := "powershell.exe"; POWERSHELL_TIMEOUT := 60000;
                POWERSHELL_MAX_TIMEOUT := 600000 |} in
  let p := String (ascii_of_nat 224) ":/data" in
  validatePath Sample.host cfg p = Ok p.
Proof. reflexivity. Qed.

Lemma temp_file_removed_on_exit_witness :
  let run := runPythonCode Sample.host Sample.cfg "print(1)" 1000 (Some "/tmp/work") ∅
               (Sample.world ∅ [StdoutData "1"; Close (Some 0)]) in
  EvWriteFile "/tmp/darkside_python_1700000000000_k3x9q.py" "print(1)" ∈ effects run.2 ∧
  files run.2 !! "/tmp/darkside_python_1700000000000_k3x9q.py" = None.
Proof.
  destruct (temp_file_removed_on_exit Sample.host Sample.cfg
              (Sample.start ∅ [StdoutData "1"; Close (Some 0)])
              "print(1)" 1000 (Some "/tmp/work") ∅) as [_ Hends].
  - reflexivity.
  - reflexivity.
  - destruct Hends as (Hw & Hgone & _); [vm_compute; discriminate |].
    split; [exact Hw | apply Hgone; reflexivity].
Defined.

(** C8 (as stated) fails when the removal fails: the child has exited
    normally and left the staged file pinned; [unlink] fails, the error
    is swallowed, the invocation returns the result of the child, and
    the file is still there. *)
Lemma temp_file_left_when_pinned :
  let tempFile := "/tmp/darkside_python_1700000000000_k3x9q.py" in
  let run := runPythonCode Sample.host Sample.cfg "print(1)" 1000 (Some "/tmp/work") ∅
               (Sample.state_with ∅ (SampleRuns.pinning_child tempFile)) in
  run.1 = Returned {| success := true; exit_code := Some 0; stdout := "1"; stderr := "";
                      duration_ms := 0; error := None; script_path := Some tempFile;
                      working_directory := "/tmp/work";
                      code_preview := Some "print(1)" |} ∧
  files run.2 !! tempFile = Some "print(1)".
Proof. split; reflexivity. Qed.

(** The cleanup also runs when the invocation ends by throwing, here
    because the default working directory is not permitted, and when it
    ends by a timeout. *)
Lemma temp_file_removed_on_throw :
  let run := runPythonCode Sample.host Sample.cfg "print(1)" 1000 None ∅
               (Sample.world ∅ [Close (Some 0)]) in
  run.1 = Threw (Error
            "Access denied: Path /tmp not in allowed list (drives: C, F, paths: none)") ∧
  effects run.2 =
    [EvWriteFile "/tmp/darkside_python_1700000000000_k3x9q.py" "print(1)";
     EvUnlink "/tmp/darkside_python_1700000000000_k3x9q.py"] ∧
  files run.2 = ∅.
Proof. repeat split; reflexivity. Qed.

Lemma temp_file_removed_on_timeout :
  let run := runPythonCode Sample.host Sample.cfg "print(1)" 1000 (Some "/tmp/work") ∅
               (Sample.world ∅ [Tick 1500; Close None]) in
  (∃ r, run.1 = Returned r ∧ success r = false ∧
        error r = Some "Script killed after timeout (1000ms)") ∧
  files run.2 = ∅.
Proof. split; [eexists; repeat split |]; reflexivity. Qed.

(** C9 (as stated) fails when the request sets one of the two variables:
    the child then gets the value of the request, not [1]. *)
Lemma request_overrides_tuning_variable :
  let req := python_request Sample.host Sample.cfg "/tmp/a.py" [] "/tmp" 1000
               {[ "PYTHONUNBUFFERED" := "0" ]} in
  effects (runPythonScript Sample.host Sample.cfg "/tmp/a.py" [] None 1000
             {[ "PYTHONUNBUFFERED" := "0" ]}
             (Sample.world {[ "/tmp/a.py" := "print(1)" ]} [Close (Some 0)])).2 =
    [EvSpawn req] ∧
  sp_env req !! "PYTHONUNBUFFERED" = Some "0" ∧
  sp_env req !! "PYTHONUNBUFFERED" ≠ Some "1".
Proof. split; [reflexivity | split; [reflexivity | discriminate]]. Qed.

Lemma python_child_environment_witness :
  ∃ req signals,
    effects (runPythonScript Sample.host Sample.cfg "/tmp/a.py" [] None 1000
               {[ "LANG" := "C" ]}
               (Sample.world {[ "/tmp/a.py" := "print(1)" ]} [Close (Some 0)])).2 =
      EvSpawn req :: map EvKill signals ∧
    sp_env req !! "PYTHONUNBUFFERED" = Some "1" ∧
    sp_env req !! "PYTHONDONTWRITEBYTECODE" = Some "1" ∧
    sp_env req !! "LANG" = Some "C" ∧
    sp_env req !! "PATH" = Some "/usr/bin".
Proof.
  destruct (python_child_environment Sample.host Sample.cfg
              (Sample.start {[ "/tmp/a.py" := "print(1)" ]} [Close (Some 0)])
              "/tmp/a.py" [] None 1000 {[ "LANG" := "C" ]} "/tmp/a.py" "/tmp")
    as (req & signals & Heff & _ & Hlookup & _ & _ & Hu & Hd).
  - reflexivity.
  - eexists. reflexivity.
  - reflexivity.
  - exists req, signals. split; [exact Heff |].
    split; [apply Hu; reflexivity |]. split; [apply Hd; reflexivity |].
    rewrite !Hlookup. split; reflexivity.
Defined.

Lemma checkPythonSyntax_missing_script_witness :
  checkPythonSyntax Sample.host Sample.cfg None (Some "/tmp/missing.py")
    (Sample.world ∅ []) =
    (Returned (SyntaxUnchecked ["Script not found: /tmp/missing.py"] "file"),
     Sample.world ∅ []) ∧
  runPythonScript Sample.host Sample.cfg "/tmp/missing.py" [] None 30000 ∅
    (Sample.world ∅ []) =
    (Threw (Error "Script not found: /tmp/missing.py"), Sample.world ∅ []).
Proof.
  destruct (checkPythonSyntax_missing_script Sample.host Sample.cfg (Sample.start ∅ [])
              None "/tmp/missing.py" "/tmp/missing.py")
    as (Hcheck & _ & Hpy & _).
  - reflexivity.
  - reflexivity.
  - reflexivity.
  - reflexivity.
  - split; [exact Hcheck | exact (Hpy [] None 30000 ∅)].
Defined.

(* ===================================================================== *)
(** * Further properties of the code *)
(* ===================================================================== *)

(** ** File operations *)

Lemma names_utf8_accepted (encoding : string) :
  names_utf8 encoding = true → encoding_refused encoding = false.
Proof.
  unfold names_utf8, encoding_refused, Buffer_isEncoding, ENCODINGS. simpl.
  rewrite !orb_false_r. intros H.
  apply orb_true_iff in H. destruct H as [H | H]; rewrite H;
    rewrite ?orb_true_r; simpl; now rewrite andb_false_r.
Qed.

Section FileOperationFacts.
Context (host : Host) (cfg : Config) {D : Type} (decode : string → string → D).

(** X1. A path that [validatePath] rejects stops [writeFile],
    [deleteFile] and [readFile] at once: each throws the access-denied
    error it was given and leaves the world exactly as it was. *)
Theorem denied_path_touches_nothing (w : World) (filePath content encoding : string)
    (createBackup : bool) (e : JsError) :
  validatePath host cfg filePath = Throw e →
  writeFile host cfg filePath content createBackup w = (Threw e, w) ∧
  deleteFile host cfg filePath createBackup w = (Threw e, w) ∧
  readFile host cfg decode filePath encoding w = (Threw e, w).
Proof.
  intros Hv. unfold writeFile, deleteFile, readFile. run_async.
  rewrite Hv. simpl. auto.
Qed.

(** Every [writeFile] on a permitted path returns, with the content at
    the validated path and the clock unchanged. *)
Lemma writeFile_returns (w : State) (filePath content validated : string)
    (createBackup : bool) :
  validatePath host cfg filePath = Ok validated →
  ∃ r w',
    writeFile host cfg filePath content createBackup w = (Returned r, w') ∧
    wr_path r = validated ∧
    wr_size r = Js.utf8_length content ∧
    backup_created r = createBackup ∧
    files w' !! validated = Some content ∧
    now w' = now w ∧
    pinned w' = pinned w.
Proof.
  intros Hv. destruct (files w !! validated) as [old |] eqn:Hold.
  - destruct createBackup.
    + rewrite (writeFile_existing host cfg w _ content _ _ Hv Hold).
      eexists _, _. split; [reflexivity |]. simpl.
      rewrite lookup_insert_eq. auto 7.
    + unfold writeFile. run_async. rewrite Hv. simpl.
      rewrite lookup_insert_eq. simpl.
      eexists _, _. split; [reflexivity |]. simpl.
      rewrite lookup_insert_eq. auto 7.
  - rewrite (writeFile_missing host cfg w _ content _ createBackup Hv Hold).
    eexists _, _. split; [reflexivity |]. simpl.
    rewrite lookup_insert_eq. auto 7.
Qed.

(** X2. [writeFile] changes nothing but the file at the validated path
    and, at most, the backup path derived from it: every other path
    holds after the call what it held before, whether or not a backup
    was asked for and whether or not the file existed. *)
Theorem writeFile_touches_only_target_and_backup (w : World)
    (filePath content validated q : string) (createBackup : bool) :
  validatePath host cfg filePath = Ok validated →
  ¬ touched_by_write validated (now w) q →
  files (writeFile host cfg filePath content createBackup w).2 !! q = files w !! q.
Proof.
  intros Hv Hq.
  assert (Hq1 : validated ≠ q) by (intros ->; apply Hq; now left).
  assert (Hq2 : write_backup_path validated (now w) ≠ q)
    by (intros <-; apply Hq; now right).
  destruct (files w !! validated) as [old |] eqn:Hold.
  - destruct createBackup.
    + rewrite (writeFile_existing host cfg w _ content _ _ Hv Hold). simpl.
      now rewrite !lookup_insert_ne.
    + unfold writeFile. run_async. rewrite Hv. simpl.
      rewrite lookup_insert_eq. simpl. now rewrite lookup_insert_ne.
  - rewrite (writeFile_missing host cfg w _ content _ createBackup Hv Hold). simpl.
    now rewrite lookup_insert_ne.
Qed.

(** X3. [deleteFile] changes nothing but the file at the validated path
    and, at most, the backup path derived from it; this includes the
    calls that throw, which change nothing at all. *)
Theorem deleteFile_touches_only_target_and_backup (w : World)
    (filePath validated q : string) (createBackup : bool) :
  validatePath host cfg filePath = Ok validated →
  ¬ touched_by_delete validated (now w) q →
  files (deleteFile host cfg filePath createBackup w).2 !! q = files w !! q.
Proof.
  intros Hv Hq. destruct w as [w Hcalm]. simpl in *.
  assert (Hfree : pinned w !! validated = None) by (rewrite Hcalm; apply lookup_empty).
  assert (Hq1 : validated ≠ q) by (intros ->; apply Hq; now left).
  assert (Hq2 : delete_backup_path validated (now w) ≠ q)
    by (intros <-; apply Hq; now right).
  destruct (files w !! validated) as [old |] eqn:Hold.
  - destruct createBackup.
    + rewrite (deleteFile_existing host cfg w _ _ _ Hv Hold Hfree). simpl.
      rewrite lookup_delete_ne by assumption. now rewrite lookup_insert_ne.
    + unfold deleteFile. run_async. rewrite Hv. simpl. rewrite Hold, Hfree. simpl.
      now rewrite lookup_delete_ne.
  - destruct createBackup.
    + now rewrite (deleteFile_missing host cfg w _ _ Hv Hold).
    + unfold deleteFile. run_async. rewrite Hv. simpl. rewrite Hold. reflexivity.
Qed.

(** X4. With the backup switched off, [writeFile] and [deleteFile] make
    no copy: the only effect of the write is the write itself and its
    result says [backup_created: false]; the only effect of deleting an
    existing file is the removal and its result has [backup_path: null];
    deleting where nothing exists throws the [ENOENT] of [unlink]. *)
Theorem no_backup_when_switched_off (w : World) (filePath content validated : string) :
  validatePath host cfg filePath = Ok validated →
  (∃ r w',
     writeFile host cfg filePath content false w = (Returned r, w') ∧
     backup_created r = false ∧
     effects w' = (effects w ++ [EvWriteFile validated content])%list ∧
     files w' = <[validated := content]> (files w))
  ∧
  (∀ old, files w !! validated = Some old →
     ∃ r w',
       deleteFile host cfg filePath false w = (Returned r, w') ∧
       backup_path r = None ∧
       effects w' = (effects w ++ [EvUnlink validated])%list ∧
       files w' = delete validated (files w))
  ∧
  (files w !! validated = None →
     deleteFile host cfg filePath false w =
       (Threw (SystemError "ENOENT" "unlink" validated None), w)).
Proof.
  intros Hv. destruct w as [w Hcalm]. simpl in *.
  assert (Hfree : pinned w !! validated = None) by (rewrite Hcalm; apply lookup_empty).
  split; [| split].
  - unfold writeFile. run_async. rewrite Hv. simpl. rewrite lookup_insert_eq. simpl.
    eexists _, _. split; [reflexivity |]. simpl. auto.
  - intros old Hold. unfold deleteFile. run_async. rewrite Hv. simpl.
    rewrite Hold, Hfree. simpl. eexists _, _. split; [reflexivity |]. simpl. auto.
  - intros Hnone. unfold deleteFile. run_async. rewrite Hv. simpl.
    rewrite Hnone. reflexivity.
Qed.

(** X5. Two writes to the same permitted path, the second with the
    backup on: the second call returns, the backup it makes holds what
    the first call wrote, and the file holds what the second wrote. *)
Theorem second_write_backs_up_first (w : World) (filePath first second validated : string)
    (createBackup : bool) :
  validatePath host cfg filePath = Ok validated →
  ∃ r1 w1 r2 w2,
    writeFile host cfg filePath first createBackup w = (Returned r1, w1) ∧
    writeFile host cfg filePath second true w1 = (Returned r2, w2) ∧
    files w2 !! write_backup_path validated (now w1) = Some first ∧
    files w2 !! validated = Some second.
Proof.
  intros Hv.
  destruct (writeFile_returns w filePath first validated createBackup Hv)
    as (r1 & w1 & Hrun1 & _ & _ & _ & Hfile1 & _).
  exists r1, w1. rewrite Hrun1.
  rewrite (writeFile_existing host cfg w1 _ second _ _ Hv Hfile1).
  eexists _, _. split; [reflexivity |]. split; [reflexivity |]. simpl.
  rewrite lookup_insert_eq.
  rewrite lookup_insert_ne by (apply not_eq_sym, write_backup_path_distinct).
  rewrite lookup_insert_eq. auto.
Qed.

(** X6. What [writeFile] wrote, [readFile] reads back: after a write to
    a permitted path, reading that path as UTF-8 (under either name,
    in any case of letters) returns the content, and the size reported
    is the number of bytes of its UTF-8 encoding; nothing is changed
    by the read. *)
Theorem readFile_after_writeFile (w : World) (filePath content encoding validated : string)
    (createBackup : bool) :
  validatePath host cfg filePath = Ok validated →
  names_utf8 encoding = true →
  ∃ r1 w1,
    writeFile host cfg filePath content createBackup w = (Returned r1, w1) ∧
    wr_size r1 = Js.utf8_length content ∧
    readFile host cfg decode filePath encoding w1 =
      (Returned {| rr_success := true; rr_path := validated;
                   rr_content := Text content;
                   rr_size := Js.utf8_length content;
                   rr_encoding := encoding |}, w1).
Proof.
  intros Hv Hutf.
  destruct (writeFile_returns w filePath content validated createBackup Hv)
    as (r1 & w1 & Hrun1 & _ & Hsize & _ & Hfile1 & _).
  exists r1, w1. split; [exact Hrun1 |]. split; [exact Hsize |].
  unfold readFile, fs_readFile_as. run_async. rewrite Hv. simpl.
  rewrite (names_utf8_accepted _ Hutf), Hfile1, Hutf. simpl.
  rewrite Hfile1. reflexivity.
Qed.

(** X7. Deleting what was just written, with the backup on: the file is
    gone and the backup named in the result holds what was written. *)
Theorem delete_after_write_keeps_content (w : World) (filePath content validated : string)
    (createBackup : bool) :
  validatePath host cfg filePath = Ok validated →
  ∃ r1 w1 r2 w2,
    writeFile host cfg filePath content createBackup w = (Returned r1, w1) ∧
    deleteFile host cfg filePath true w1 = (Returned r2, w2) ∧
    backup_path r2 = Some (delete_backup_path validated (now w)) ∧
    files w2 !! delete_backup_path validated (now w) = Some content ∧
    files w2 !! validated = None.
Proof.
  intros Hv.
  destruct (writeFile_returns w filePath content validated createBackup Hv)
    as (r1 & w1 & Hrun1 & _ & _ & _ & Hfile1 & Hnow & Hpin).
  assert (Hfree : pinned w1 !! validated = None).
  { rewrite Hpin, (nothing_pinned w). apply lookup_empty. }
  exists r1, w1. rewrite Hrun1.
  rewrite (deleteFile_existing host cfg w1 _ _ _ Hv Hfile1 Hfree).
  eexists _, _. split; [reflexivity |]. split; [reflexivity |]. simpl.
  rewrite Hnow. split; [reflexivity |].
  rewrite lookup_delete_eq.
  rewrite lookup_delete_ne by (apply not_eq_sym, delete_backup_path_distinct).
  rewrite lookup_insert_eq. auto.
Qed.

(** X8. What [readFile] does on a permitted path. An encoding that is
    not empty, is not ['buffer'] and is not a name [Buffer.isEncoding]
    accepts is refused with a [TypeError] before the file is looked at,
    whether the file exists or not. Otherwise a missing file gives the
    [ENOENT] of the read; and an existing file read as UTF-8 gives its
    text, with its size in bytes and the encoding as it was passed.
    None of the three changes anything. *)
Theorem readFile_returns_content_or_ENOENT (w : World)
    (filePath encoding validated : string) :
  validatePath host cfg filePath = Ok validated →
  (encoding_refused encoding = true →
   readFile host cfg decode filePath encoding w =
     (Threw (ArgumentError "TypeError" "ERR_INVALID_ARG_VALUE" "encoding"), w)) ∧
  (encoding_refused encoding = false →
   files w !! validated = None →
   readFile host cfg decode filePath encoding w =
     (Threw (SystemError "ENOENT" "open" validated None), w)) ∧
  (names_utf8 encoding = true →
   ∀ text, files w !! validated = Some text →
     readFile host cfg decode filePath encoding w =
       (Returned {| rr_success := true; rr_path := validated;
                    rr_content := Text text;
                    rr_size := Js.utf8_length text;
                    rr_encoding := encoding |}, w)).
Proof.
  intros Hv. unfold readFile, fs_readFile_as. run_async. rewrite Hv. simpl.
  split; [| split].
  - intros ->. reflexivity.
  - intros -> ->. reflexivity.
  - intros Hutf text Hc. rewrite (names_utf8_accepted _ Hutf), Hc, Hutf. simpl.
    rewrite Hc. reflexivity.
Qed.

End FileOperationFacts.

(** ** The promise around [spawn] *)

Section PromiseFacts.
Context (L : Launch).

(** The effects of the promise around a started child: the call of
    [spawn], then one [kill] for each timer that ran its callback. *)
Lemma spawn_and_wait_effects (req : SpawnRequest) (w : State) :
  effects (spawn_and_wait L req w).2 =
    (effects w ++
     EvSpawn req ::
     repeat (EvKill "SIGTERM")
       (Nat.b2n (spawn_timer_fires req (events (children w req))) +
        Nat.b2n (timer_fires L (events (children w req)))))%list.
Proof.
  unfold spawn_and_wait. simpl. rewrite signals_of_run. now rewrite map_repeat.
Qed.



(** X11. A child that is started and closes before the timer of the
    code has run its callback: the result has the exit code of the
    child, [success] exactly when that code is [0], every chunk of
    each stream in the order received, the time that passed, and no
    error. The delay of the timer is the effective timeout when that
    lies between 1 and [2^31 - 1], and 1 ms otherwise. *)
Theorem exit_in_time_is_reported (req : SpawnRequest) (w : World)
    (pre post : list ProcEvent) (code : option Z) :
  spawn_refusal w req = None →
  events (children w req) = (pre ++ Close code :: post)%list →
  still_running pre = true →
  runs_longer_than (timer_delay (l_safeTimeout L)) 0 pre = false →
  (spawn_promise L req w).1 =
    Returned {| success := is_zero code; exit_code := code;
                stdout := written_to_stdout pre; stderr := written_to_stderr pre;
                duration_ms := time_passed pre; error := None;
                script_path := l_script_path L;
                working_directory := l_workDir L;
                code_preview := None |}
  ∧ (1 ≤ l_safeTimeout L ≤ TIMEOUT_MAX → timer_delay (l_safeTimeout L) = l_safeTimeout L)
  ∧ (l_safeTimeout L < 1 ∨ TIMEOUT_MAX < l_safeTimeout L →
     timer_delay (l_safeTimeout L) = 1).
Proof.
  intros Href Hevs Hrun Hlate. split; [| split].
  - rewrite (spawn_promise_started _ _ _ Href).
    unfold spawn_and_wait. simpl. rewrite Hevs.
    now rewrite (settle_on_exit L req _ pre post code Hrun Hlate).
  - apply timer_delay_in_range.
  - unfold timer_delay. intros [H | H].
    + destruct (Z.leb_spec 1 (l_safeTimeout L)); [lia | reflexivity].
    + destruct (Z.leb_spec (l_safeTimeout L) TIMEOUT_MAX); [lia |].
      now rewrite andb_false_r.
Qed.

End PromiseFacts.

(** ** The runners *)

Lemma adds_isolated_refl (w : State) : adds_isolated w w.
Proof. exists []. split; [now rewrite app_nil_r | constructor]. Qed.

Lemma adds_isolated_trans (w1 w2 w3 : State) :
  adds_isolated w1 w2 → adds_isolated w2 w3 → adds_isolated w1 w3.
Proof.
  intros (n1 & H1 & F1) (n2 & H2 & F2). exists (n1 ++ n2)%list.
  split; [now rewrite H2, H1, app_assoc | now apply Forall_app].
Qed.

Lemma adds_isolated_effect (e : Effect) (fs : gmap string string) (w : State) :
  spawn_isolated e → adds_isolated w (record_effect e (set_files fs w)).
Proof. intros He. exists [e]. split; [reflexivity | now repeat constructor]. Qed.

Section Keeps.
Context (R : State → State → Prop).
Context (R_refl : ∀ w, R w w) (R_trans : ∀ w1 w2 w3, R w1 w2 → R w2 w3 → R w1 w3).

Lemma keeps_ret {A} (a : A) : keeps R (ret a).
Proof. intros w. apply R_refl. Qed.

Lemma keeps_throw {A} (e : JsError) : keeps R (@throw A e).
Proof. intros w. apply R_refl. Qed.

Lemma keeps_lift {A} (r : result A) : keeps R (lift r).
Proof. destruct r; [apply keeps_ret | apply keeps_throw]. Qed.

Lemma keeps_bind {A B} (m : Async A) (k : A → Async B) :
  keeps R m → (∀ a, keeps R (k a)) → keeps R (bind m k).
Proof.
  intros Hm Hk w. unfold bind. specialize (Hm w).
  destruct (m w) as [[a | e |] w1]; simpl in *; auto.
  eapply R_trans; [exact Hm | apply Hk].
Qed.

Lemma keeps_try_catch {A} (body : Async A) (handler : JsError → Async A) :
  keeps R body → (∀ e, keeps R (handler e)) → keeps R (try_catch body handler).
Proof.
  intros Hb Hh w. unfold try_catch. specialize (Hb w).
  destruct (body w) as [[a | e |] w1]; simpl in *; auto.
  eapply R_trans; [exact Hb | apply Hh].
Qed.

Lemma keeps_try_finally {A} (body : Async A) (fin : Async unit) :
  keeps R body → keeps R fin → keeps R (try_finally body fin).
Proof.
  intros Hb Hf w. unfold try_finally. specialize (Hb w).
  destruct (body w) as [[a | e |] w1]; simpl in *; auto;
    specialize (Hf w1); destruct (fin w1) as [[[] | e' |] w2]; simpl in *;
    eapply R_trans; eassumption.
Qed.

Lemma keeps_if {A} (b : bool) (m1 m2 : Async A) :
  keeps R m1 → keeps R m2 → keeps R (if b then m1 else m2).
Proof. destruct b; auto. Qed.

End Keeps.

Lemma isolated_Date_now : keeps adds_isolated Date_now.
Proof. intros w. apply adds_isolated_refl. Qed.

Lemma isolated_Math_random : keeps adds_isolated Math_random_36.
Proof. intros w. exists []. split; [simpl; now rewrite app_nil_r | constructor]. Qed.

Lemma isolated_existsSync (p : string) : keeps adds_isolated (fs_existsSync p).
Proof. intros w. apply adds_isolated_refl. Qed.

Lemma isolated_readFile (p : string) : keeps adds_isolated (fs_readFile p).
Proof.
  intros w. unfold fs_readFile. destruct (files w !! p); apply adds_isolated_refl.
Qed.

Lemma isolated_writeFile (p c : string) : keeps adds_isolated (fs_writeFile p c).
Proof. intros w. now apply adds_isolated_effect. Qed.

Lemma isolated_unlink_quietly (p : string) : keeps adds_isolated (unlink_quietly p).
Proof.
  intros w. unfold unlink_quietly, try_catch, fs_unlink, ret.
  destruct (files w !! p); [| apply adds_isolated_refl].
  destruct (pinned w !! p); [apply adds_isolated_refl | now apply adds_isolated_effect].
Qed.

Lemma isolated_spawn_promise (L : Launch) (req : SpawnRequest) :
  spawn_isolated (EvSpawn req) → keeps adds_isolated (spawn_promise L req).
Proof.
  intros Hreq w. unfold spawn_promise. destruct (spawn_refusal w req).
  - exists [EvSpawn req]. split; [reflexivity |].
    apply Forall_cons_2; [exact Hreq | apply Forall_nil_2].
  - eexists. split; [apply spawn_and_wait_effects |].
    constructor; [exact Hreq |]. apply Forall_forall. intros e He.
    apply list_elem_of_In, repeat_spec in He. now subst e.
Qed.

Ltac isolated :=
  repeat first
    [ apply isolated_Date_now
    | apply isolated_Math_random
    | apply isolated_existsSync
    | apply isolated_readFile
    | apply isolated_writeFile
    | apply isolated_unlink_quietly
    | apply isolated_spawn_promise; split; reflexivity
    | apply keeps_lift; apply adds_isolated_refl
    | apply keeps_ret; apply adds_isolated_refl
    | apply keeps_throw; apply adds_isolated_refl
    | apply keeps_bind; [apply adds_isolated_trans | | intros ?]
    | apply keeps_try_finally; [apply adds_isolated_trans | |]
    | apply keeps_if ].

Section RunnerFacts2.
Context (host : Host) (cfg : Config).

Lemma isolated_runPythonScript (scriptPath : string) (args : list string)
    (cwd : option string) (timeout : Z) (env : gmap string string) :
  keeps adds_isolated (runPythonScript host cfg scriptPath args cwd timeout env).
Proof. unfold runPythonScript. isolated. Qed.

Lemma isolated_runPythonCode (code : string) (timeout : Z) (cwd : option string)
    (env : gmap string string) :
  keeps adds_isolated (runPythonCode host cfg code timeout cwd env).
Proof. unfold runPythonCode. isolated. Qed.

Lemma isolated_checkPythonSyntax (code scriptPath : option string) :
  keeps adds_isolated (checkPythonSyntax host cfg code scriptPath).
Proof. unfold checkPythonSyntax. isolated. Qed.

Lemma isolated_runPowerShell (command : string) (timeout : Z) (cwd : option string) :
  keeps adds_isolated (runPowerShell host cfg command timeout cwd).
Proof. unfold runPowerShell. isolated. Qed.

Lemma isolated_runPowerShellScript (scriptPath : string) (args : list string)
    (timeout : Z) (cwd : option string) :
  keeps adds_isolated (runPowerShellScript host cfg scriptPath args timeout cwd).
Proof. unfold runPowerShellScript. isolated. Qed.

(** X12. Every child that the five execution functions start is started
    with its standard input disconnected, its output and error streams
    piped and its window hidden: the effects a call adds contain no
    [spawn] of another kind, whatever the arguments and the outcome. *)
Theorem children_never_inherit_stdin (w : World) :
  (∀ scriptPath args cwd timeout env,
     adds_isolated w (runPythonScript host cfg scriptPath args cwd timeout env w).2) ∧
  (∀ code timeout cwd env,
     adds_isolated w (runPythonCode host cfg code timeout cwd env w).2) ∧
  (∀ code scriptPath,
     adds_isolated w (checkPythonSyntax host cfg code scriptPath w).2) ∧
  (∀ command timeout cwd,
     adds_isolated w (runPowerShell host cfg command timeout cwd w).2) ∧
  (∀ scriptPath args timeout cwd,
     adds_isolated w (runPowerShellScript host cfg scriptPath args timeout cwd w).2).
Proof.
  repeat split; intros.
  - apply isolated_runPythonScript.
  - apply isolated_runPythonCode.
  - apply isolated_checkPythonSyntax.
  - apply isolated_runPowerShell.
  - apply isolated_runPowerShellScript.
Qed.

End RunnerFacts2.

(** ** The safety filter *)

Lemma Matches_takes_input (r : regex) (p p' : option ascii) (s s' : string) :
  Matches r p s p' s' → consumes r = true →
  (String.length s' < String.length s)%nat.
Proof.
  induction 1 as [c prev s | c d prev s Hne | cs d prev s Hin | d prev s Hd
                 | prev s Hb
                 | r1 r2 p p1 p2 s s1 s2 H1 IH1 H2 IH2
                 | r1 r2 p p' s s' H1 IH1 | r1 r2 p p' s s' H1 IH1
                 | r p s
                 | r p p1 p2 s s1 s2 H1 IH1 H2 IH2]; simpl; intros Hc;
    try discriminate; try lia.
  - destruct (Matches_consumes _ _ _ _ _ H1) as [Hle1 _].
    destruct (Matches_consumes _ _ _ _ _ H2) as [Hle2 _].
    apply orb_true_iff in Hc. destruct Hc as [Hc | Hc].
    + specialize (IH1 Hc). lia.
    + specialize (IH2 Hc). lia.
  - apply andb_true_iff in Hc. now apply IH1.
  - apply andb_true_iff in Hc. now apply IH1.
Qed.

Lemma head_char_append (s t : string) :
  s ≠ "" → head_char (s +:+ t) = head_char s.
Proof. destruct s; [congruence | reflexivity]. Qed.

Lemma guarded_Cat (r1 r2 : regex) :
  boundaries_guarded (Cat r1 r2) = true →
  (r1 = WordBoundary ∧ consumes r2 = true ∧ boundaries_guarded r2 = true) ∨
  (boundaries_guarded r1 = true ∧ boundaries_guarded r2 = true).
Proof.
  destruct r1; simpl; intros H;
    first [ left; apply andb_true_iff in H; destruct H; now auto
          | right; apply andb_true_iff in H; exact H
          | right; split; [reflexivity | exact H] ].
Qed.

(** A match of an expression with guarded boundaries is still a match
    when text is added after the input. *)
Lemma Matches_append (r : regex) (p p' : option ascii) (s s' t : string) :
  Matches r p s p' s' → boundaries_guarded r = true →
  Matches r p (s +:+ t) p' (s' +:+ t).
Proof.
  induction 1 as [c prev s | c d prev s Hne | cs d prev s Hin | d prev s Hd
                 | prev s Hb
                 | r1 r2 p p1 p2 s s1 s2 H1 IH1 H2 IH2
                 | r1 r2 p p' s s' H1 IH1 | r1 r2 p p' s s' H1 IH1
                 | r p s
                 | r p p1 p2 s s1 s2 H1 IH1 H2 IH2]; intros Hg;
    rewrite ?append_cons.
  - constructor.
  - now constructor.
  - now constructor.
  - now constructor.
  - discriminate.
  - destruct (guarded_Cat _ _ Hg) as [(-> & Hc & Hg2) | [Hg1 Hg2]].
    + inversion H1; subst.
      pose proof (Matches_takes_input _ _ _ _ _ H2 Hc) as Hlen.
      econstructor; [| apply IH2; exact Hg2].
      constructor. rewrite head_char_append; [assumption |].
      intros ->. simpl in Hlen. lia.
    + econstructor; [apply IH1; exact Hg1 | apply IH2; exact Hg2].
  - simpl in Hg. apply andb_true_iff in Hg. apply MOrL. now apply IH1.
  - simpl in Hg. apply andb_true_iff in Hg. apply MOrR. now apply IH1.
  - constructor.
  - econstructor; [apply IH1; exact Hg | apply IH2; exact Hg].
Qed.

(** A match sees of the character before the input only whether it is
    a word character. *)
Lemma Matches_previous (r : regex) (p p' : option ascii) (s s' : string) :
  Matches r p s p' s' →
  ∀ q, is_word_opt q = is_word_opt p →
       ∃ q', Matches r q s q' s' ∧ is_word_opt q' = is_word_opt p'.
Proof.
  induction 1 as [c prev s | c d prev s Hne | cs d prev s Hin | d prev s Hd
                 | prev s Hb
                 | r1 r2 p p1 p2 s s1 s2 H1 IH1 H2 IH2
                 | r1 r2 p p' s s' H1 IH1 | r1 r2 p p' s s' H1 IH1
                 | r p s
                 | r p p1 p2 s s1 s2 H1 IH1 H2 IH2]; intros q Hq.
  - eexists. split; [constructor | reflexivity].
  - eexists. split; [now constructor | reflexivity].
  - eexists. split; [now constructor | reflexivity].
  - eexists. split; [now constructor | reflexivity].
  - exists q. split; [constructor; congruence | exact Hq].
  - destruct (IH1 q Hq) as (q1 & Hm1 & Hq1).
    destruct (IH2 q1 Hq1) as (q2 & Hm2 & Hq2).
    exists q2. split; [econstructor; eassumption | exact Hq2].
  - destruct (IH1 q Hq) as (q1 & Hm1 & Hq1).
    exists q1. split; [now apply MOrL | exact Hq1].
  - destruct (IH1 q Hq) as (q1 & Hm1 & Hq1).
    exists q1. split; [now apply MOrR | exact Hq1].
  - exists q. split; [constructor | exact Hq].
  - destruct (IH1 q Hq) as (q1 & Hm1 & Hq1).
    destruct (IH2 q1 Hq1) as (q2 & Hm2 & Hq2).
    exists q2. split; [econstructor; eassumption | exact Hq2].
Qed.

Lemma last_before_append (prev : option ascii) (u a : string) :
  last_before prev (u +:+ a) = last_before (last_before prev u) a.
Proof.
  revert prev. induction u as [|c u IH]; intros prev; [reflexivity |].
  rewrite append_cons. simpl. apply IH.
Qed.

Lemma last_before_nonempty (p q : option ascii) (c : ascii) (a : string) :
  last_before p (String c a) = last_before q (String c a).
Proof. reflexivity. Qed.

(** A pattern with guarded boundaries that matches in [s] matches in
    [s] with text around it, when the text before ends outside a word. *)
Lemma test_in_context (r : regex) (before s after : string) :
  boundaries_guarded r = true →
  ends_outside_word before = true →
  test r s = true →
  test r (before +:+ s +:+ after) = true.
Proof.
  intros Hg Hbefore Htest.
  apply test_Matches in Htest. destruct Htest as (a & b & p' & s' & -> & Hm).
  apply test_Matches.
  assert (Hprev : is_word_opt (last_before None (before +:+ a)) =
                  is_word_opt (last_before None a)).
  { rewrite last_before_append. destruct a as [|c a]; [| reflexivity].
    simpl. unfold ends_outside_word in Hbefore.
    now apply negb_true_iff in Hbefore. }
  destruct (Matches_previous _ _ _ _ _ Hm _ Hprev) as (q' & Hm' & _).
  exists (before +:+ a), (b +:+ after), q', (s' +:+ after).
  split; [now rewrite !append_assoc | now apply Matches_append].
Qed.

Lemma patterns_guarded :
  Forall (fun p => boundaries_guarded (re p) = true) DANGEROUS_PATTERNS.
Proof. repeat constructor. Qed.

Lemma unsafe_iff_some_pattern (code : string) :
  safe (checkPythonCodeSafety code) = false ↔
  ∃ pattern, pattern ∈ DANGEROUS_PATTERNS ∧ test (re pattern) code = true.
Proof.
  unfold checkPythonCodeSafety. generalize DANGEROUS_PATTERNS.
  induction l as [|p rest IH]; simpl.
  - split; [discriminate | intros (q & Hin & _); inversion Hin].
  - destruct (test (re p) code) eqn:Hp; simpl.
    + split; [intros _ | reflexivity]. exists p. split; [left | exact Hp].
    + rewrite IH. split.
      * intros (q & Hin & Hq). exists q. split; [now right | exact Hq].
      * intros (q & Hin & Hq). inversion Hin; subst; [congruence |]. eauto.
Qed.

Lemma safe_iff_no_reason (code : string) :
  safe (checkPythonCodeSafety code) = true ↔
  reason (checkPythonCodeSafety code) = None.
Proof.
  unfold checkPythonCodeSafety. generalize DANGEROUS_PATTERNS.
  induction l as [|p rest IH]; simpl; [split; reflexivity |].
  destruct (test (re p) code); simpl; [split; discriminate | exact IH].
Qed.

(** X13. What the filter decides. Code is reported unsafe exactly when
    one of the ten expressions matches some part of it; and a reason is
    given exactly when the code is reported unsafe. *)
Theorem unsafe_exactly_when_a_pattern_matches (code : string) :
  (safe (checkPythonCodeSafety code) = false ↔
   ∃ pattern before rest p' after,
     pattern ∈ DANGEROUS_PATTERNS ∧
     code = before +:+ rest ∧
     Matches (re pattern) (last_before None before) rest p' after) ∧
  (safe (checkPythonCodeSafety code) = true ↔
   reason (checkPythonCodeSafety code) = None).
Proof.
  split.
  - rewrite unsafe_iff_some_pattern. split.
    + intros (p & Hin & Hp). apply test_Matches in Hp.
      destruct Hp as (a & b & p' & s' & Heq & Hm). exists p, a, b, p', s'. auto.
    + intros (p & a & b & p' & s' & Hin & Heq & Hm). exists p. split; [exact Hin |].
      apply test_Matches. exists a, b, p', s'. auto.
  - apply safe_iff_no_reason.
Qed.

(** X14. Code with no opening round bracket is never reported: each of
    the ten expressions needs one. *)
Theorem code_without_bracket_is_safe (code : string) :
  occurs "("%char code = false →
  checkPythonCodeSafety code = {| safe := true; reason := None |}.
Proof.
  intros Hno.
  assert (Hsafe : safe (checkPythonCodeSafety code) = true).
  { destruct (safe (checkPythonCodeSafety code)) eqn:Hs; [reflexivity |].
    apply unsafe_iff_some_pattern in Hs. destruct Hs as (p & Hin & Hp).
    pose proof patterns_require_bracket as Hall. rewrite Forall_forall in Hall.
    pose proof (search_requires "("%char (re p) None code Hp (Hall p Hin)). congruence. }
  pose proof (safe_iff_no_reason code) as Hreason.
  apply Hreason in Hsafe.
  destruct (checkPythonCodeSafety code) as [sf rs] eqn:Hc. simpl in *.
  subst. destruct sf; [reflexivity |].
  exfalso. assert (Hs : safe (checkPythonCodeSafety code) = false) by now rewrite Hc.
  apply unsafe_iff_some_pattern in Hs. destruct Hs as (p & Hin & Hp).
  pose proof patterns_require_bracket as Hall. rewrite Forall_forall in Hall.
  pose proof (search_requires "("%char (re p) None code Hp (Hall p Hin)). congruence.
Qed.

(** X15. Unsafe code stays unsafe inside more code: when text is added
    after it, and when text that is empty or ends outside a word (whole
    lines, for instance) is put before it, the filter still reports the
    whole. *)
Theorem unsafe_code_stays_unsafe_in_context (before code after : string) :
  safe (checkPythonCodeSafety code) = false →
  ends_outside_word before = true →
  safe (checkPythonCodeSafety (before +:+ code +:+ after)) = false.
Proof.
  intros Hunsafe Hbefore.
  apply unsafe_iff_some_pattern in Hunsafe. destruct Hunsafe as (p & Hin & Hp).
  apply unsafe_iff_some_pattern. exists p. split; [exact Hin |].
  apply test_in_context; [| exact Hbefore | exact Hp].
  pose proof patterns_guarded as Hall. rewrite Forall_forall in Hall. now apply Hall.
Qed.

(** ** The configuration *)

Lemma split_go_nonempty (sep s cur : string) (skip : nat) :
  Js.split_go sep s cur skip ≠ [].
Proof.
  revert cur skip. induction s as [|c s IH]; intros cur skip;
    cbn [Js.split_go]; [discriminate |].
  destruct skip; [| apply IH].
  destruct (String.prefix sep (String c s)); [discriminate | apply IH].
Qed.

(** X16. What the environment can configure. The list of allowed drives
    is never empty, and an unset or empty [ALLOWED_DRIVES] gives the
    drives [C] and [F]; the list of allowed paths never holds the empty
    prefix, and an unset or empty [ALLOWED_PATHS] gives no path. *)
Theorem configured_lists (v : option string) :
  ALLOWED_DRIVES_of v ≠ [] ∧
  ("" ∉ ALLOWED_PATHS_of v) ∧
  (Js.truthy_opt v = false →
   ALLOWED_DRIVES_of v = ["C"; "F"] ∧ ALLOWED_PATHS_of v = []).
Proof.
  split; [apply split_go_nonempty |]. split.
  - unfold ALLOWED_PATHS_of. intros Hin.
    apply list_elem_of_In, filter_In in Hin. destruct Hin as [_ H]. discriminate.
  - intros Hv. unfold ALLOWED_DRIVES_of, ALLOWED_PATHS_of. rewrite Hv.
    split; reflexivity.
Qed.

(** ** Inline code and syntax checks *)

Lemma all_space_trimStart (s : string) : all_space s = true → Js.trimStart s = "".
Proof.
  induction s as [|c s IH]; simpl; [reflexivity |].
  intros H. apply andb_true_iff in H. destruct H as [Hc Hs]. rewrite Hc. now apply IH.
Qed.

Lemma not_all_space_occurs (s : string) :
  all_space s = false → ∃ c, Js.is_space c = false ∧ occurs c s = true.
Proof.
  induction s as [|c s IH]; simpl; [discriminate |].
  destruct (Js.is_space c) eqn:Hc; simpl.
  - intros H. destruct (IH H) as (d & Hd & Hocc). exists d. split; [exact Hd |].
    rewrite Hocc. apply orb_true_r.
  - intros _. exists c. split; [exact Hc |]. now rewrite Ascii.eqb_refl.
Qed.

(** The test [!s || !s.trim()] holds exactly for the strings made of
    white space only, the empty string among them. *)
Lemma blank_iff_all_space (s : string) : blank s = all_space s.
Proof.
  destruct (all_space s) eqn:Hs.
  - unfold blank, Js.trim. rewrite (all_space_trimStart s Hs). simpl.
    apply orb_true_r.
  - destruct (not_all_space_occurs s Hs) as (c & Hc & Hocc).
    now apply (occurs_not_blank c).
Qed.

Lemma choose_workDir_default (host : Host) (cfg : Config) (cwd : option string)
    (fallback : string) :
  Js.truthy_opt cwd = false → choose_workDir host cfg cwd fallback = Ok fallback.
Proof.
  unfold choose_workDir. destruct cwd as [d |]; simpl; [| reflexivity].
  now intros ->.
Qed.

Lemma substring_length (n : nat) (s : string) :
  (String.length (String.substring 0 n s) ≤ n)%nat.
Proof.
  revert s. induction n as [|n IH]; intros s; destruct s as [|c s]; simpl; try lia.
  specialize (IH s). lia.
Qed.

(** The preview of the code is never longer than 203 characters, and is
    the code itself when the code has at most 200. *)
Lemma preview_short (code : string) :
  (String.length (preview code) ≤ 203)%nat ∧
  ((String.length code ≤ 200)%nat → preview code = code).
Proof.
  unfold preview, Js.slice0.
  destruct (Nat.ltb_spec 200 (String.length code)) as [Hlong | Hshort].
  - split; [| lia]. rewrite length_append.
    pose proof (substring_length 200 code). simpl. lia.
  - split; [lia | reflexivity].
Qed.

Section ConfinedEffects.
Context (p : string).

Lemma adds_confined_refl (w : State) : adds_confined p w w.
Proof. exists []. split; [now rewrite app_nil_r | constructor]. Qed.

Lemma adds_confined_trans (w1 w2 w3 : State) :
  adds_confined p w1 w2 → adds_confined p w2 w3 → adds_confined p w1 w3.
Proof.
  intros (n1 & H1 & F1) (n2 & H2 & F2). exists (n1 ++ n2)%list.
  split; [now rewrite H2, H1, app_assoc | now apply Forall_app].
Qed.

Lemma confined_writeFile (content : string) : keeps (adds_confined p) (fs_writeFile p content).
Proof. intros w. exists [EvWriteFile p content]. split; [reflexivity | now repeat constructor]. Qed.

Lemma confined_unlink_quietly : keeps (adds_confined p) (unlink_quietly p).
Proof.
  intros w. unfold unlink_quietly, try_catch, fs_unlink, ret.
  destruct (files w !! p); [| apply adds_confined_refl].
  destruct (pinned w !! p); [apply adds_confined_refl |].
  exists [EvUnlink p]. split; [reflexivity | now repeat constructor].
Qed.

Lemma confined_spawn_promise (L : Launch) (req : SpawnRequest) :
  keeps (adds_confined p) (spawn_promise L req).
Proof.
  intros w. destruct (spawn_promise_effects L req w) as [signals Heff].
  eexists. split; [exact Heff |].
  constructor; [exact I |]. apply Forall_forall. intros e He.
  apply list_elem_of_In, in_map_iff in He. destruct He as (s & <- & _). exact I.
Qed.

Lemma confined_runPythonScript (host : Host) (cfg : Config) (scriptPath : string)
    (args : list string) (cwd : option string) (timeout : Z) (env : gmap string string) :
  keeps (adds_confined p) (runPythonScript host cfg scriptPath args cwd timeout env).
Proof.
  unfold runPythonScript.
  repeat first
    [ apply confined_spawn_promise
    | intros w; apply adds_confined_refl
    | apply keeps_lift; apply adds_confined_refl
    | apply keeps_ret; apply adds_confined_refl
    | apply keeps_throw; apply adds_confined_refl
    | apply keeps_bind; [apply adds_confined_trans | | intros ?]
    | apply keeps_if ].
Qed.

(** Staging a file, running it and removing it writes and removes no
    other file. *)
Lemma confined_staged_run {A} (host : Host) (cfg : Config) (content : string)
    (args : list string) (cwd : option string) (timeout : Z) (env : gmap string string)
    (f : ExecResult → A) :
  keeps (adds_confined p)
    (try_finally
       (fs_writeFile p content ;;;
        result <- runPythonScript host cfg p args cwd timeout env ;;
        ret (f result))
       (unlink_quietly p)).
Proof.
  apply keeps_try_finally; [apply adds_confined_trans | | apply confined_unlink_quietly].
  apply keeps_bind; [apply adds_confined_trans | apply confined_writeFile | intros _].
  apply keeps_bind; [apply adds_confined_trans | apply confined_runPythonScript | intros r].
  apply keeps_ret. apply adds_confined_refl.
Qed.

End ConfinedEffects.

Section InlineCodeFacts.
Context (host : Host) (cfg : Config).

(** X17. Empty and blank input. [runPythonCode] and [runPowerShell] take
    their text for empty exactly when it consists of white space only
    (the empty string included); they then throw [Code cannot be empty]
    and [Command cannot be empty] and touch nothing. *)
Theorem blank_input_is_refused (w : World) (text : string) (timeout : Z)
    (cwd : option string) (env : gmap string string) :
  blank text = all_space text ∧
  (all_space text = true →
   runPythonCode host cfg text timeout cwd env w =
     (Threw (Error "Code cannot be empty"), w) ∧
   runPowerShell host cfg text timeout cwd w =
     (Threw (Error "Command cannot be empty"), w)).
Proof.
  split; [apply blank_iff_all_space |].
  intros Hs. rewrite <- blank_iff_all_space in Hs.
  unfold runPythonCode, runPowerShell. run_async. rewrite Hs. auto.
Qed.

(** X18. Inline code without a working directory runs in [os.tmpdir()],
    and that directory goes through [validatePath] like one the caller
    gives. When the temporary file is permitted and the directory is
    not, the call throws the access-denied error after the file was
    written, no child is started, and the file is removed again. *)
Theorem inline_code_needs_permitted_tmpdir (w : World) (code : string) (timeout : Z)
    (cwd : option string) (env : gmap string string) (e : JsError) :
  blank code = false →
  safe (checkPythonCodeSafety code) = true →
  Js.truthy_opt cwd = false →
  Js.truthy (os_tmpdir host) = true →
  let tempFile := python_temp_file host (now w) (entropy w (draws w)) in
  validatePath host cfg tempFile = Ok tempFile →
  validatePath host cfg (os_tmpdir host) = Throw e →
  let run := runPythonCode host cfg code timeout cwd env w in
  run.1 = Threw e ∧
  effects run.2 = (effects w ++ [EvWriteFile tempFile code; EvUnlink tempFile])%list ∧
  files run.2 = delete tempFile (files w).
Proof.
  intros Hb Hsafe Hcwd Htmp tempFile Hfile Hdir run. subst run.
  rewrite (runPythonCode_stages host cfg w code timeout cwd env Hb Hsafe).
  fold tempFile. rewrite Hcwd.
  unfold try_finally, unlink_quietly, runPythonScript, choose_workDir. run_async.
  rewrite Hfile. simpl. rewrite lookup_insert_eq. simpl.
  rewrite Htmp, Hdir. simpl. rewrite lookup_insert_eq. simpl.
  rewrite (nothing_pinned w), lookup_empty. simpl.
  rewrite <- app_assoc. repeat split. apply delete_insert_eq.
Qed.

(** The value of the promise carries the script and the working
    directory of the launch. *)
Lemma run_events_fields (L : Launch) (req : SpawnRequest) (evs : list ProcEvent)
    (p : Proc) (r : ExecResult) :
  p_settled p = None →
  p_settled (run_events L req evs p) = Some r →
  script_path r = l_script_path L ∧ working_directory r = l_workDir L ∧
  code_preview r = None.
Proof.
  revert p. induction evs as [| ev evs IH]; intros p Hp; simpl.
  - rewrite Hp. discriminate.
  - rewrite Hp.
    destruct (p_settled (on_event L req p ev)) as [r0 |] eqn:Hnext.
    + rewrite (run_events_settled L req evs _ (ex_intro _ r0 Hnext)), Hnext.
      intros [= Heq]. subst r0. revert Hnext.
      destruct ev as [dt | d | d | | c | m]; simpl;
         [ unfold on_tick; simpl;
           repeat match goal with |- context [if ?b then _ else _] => destruct b end;
           simpl; rewrite Hp; discriminate
         | rewrite Hp; discriminate
         | rewrite Hp; discriminate
         | rewrite Hp; discriminate
         | unfold on_close, resolve, clearTimeout; simpl; rewrite Hp;
           destruct (p_killed p); simpl; intros [= <-]; auto
         | unfold on_error, resolve, clearTimeout; simpl; rewrite Hp;
           simpl; intros [= <-]; auto ].
    + now apply IH.
Qed.

Lemma spawn_promise_fields (L : Launch) (req : SpawnRequest) (w w' : State)
    (r : ExecResult) :
  spawn_promise L req w = (Returned r, w') →
  script_path r = l_script_path L ∧ working_directory r = l_workDir L ∧
  code_preview r = None.
Proof.
  unfold spawn_promise. destruct (spawn_refusal w req); [discriminate |].
  unfold spawn_and_wait.
  destruct (p_settled (run_events L req _ _)) as [r0 |] eqn:Hr; [| discriminate].
  intros [= <- _]. eapply run_events_fields; [| exact Hr]. reflexivity.
Qed.

(** X19. What a result of [runPythonCode] says about the code. Every
    result the call returns carries a preview of the code, the code
    itself when it has at most 200 characters and never more than 203
    characters, and names as its script the temporary file. By then the
    removal of that file has been attempted: the file is no longer
    there unless the removal failed. *)
Theorem inline_result_describes_code (w : World) (w' : State) (code : string)
    (timeout : Z) (cwd : option string) (env : gmap string string) (r : ExecResult) :
  runPythonCode host cfg code timeout cwd env w = (Returned r, w') →
  let tempFile := python_temp_file host (now w) (entropy w (draws w)) in
  code_preview r = Some (preview code) ∧
  (String.length (preview code) ≤ 203)%nat ∧
  ((String.length code ≤ 200)%nat → code_preview r = Some code) ∧
  validatePath host cfg tempFile = Ok (path_normalize host tempFile) ∧
  script_path r = Some (path_normalize host tempFile) ∧
  (pinned w' !! tempFile = None → files w' !! tempFile = None).
Proof.
  intros Hrun tempFile.
  assert (Hb : blank code = false).
  { destruct (blank code) eqn:Hb; [| reflexivity].
    unfold runPythonCode in Hrun. revert Hrun. run_async. rewrite Hb. discriminate. }
  assert (Hsafe : safe (checkPythonCodeSafety code) = true).
  { destruct (safe (checkPythonCodeSafety code)) eqn:Hs; [reflexivity |].
    unfold runPythonCode in Hrun. revert Hrun. run_async. rewrite Hb. simpl.
    rewrite Hs. discriminate. }
  rewrite (runPythonCode_stages host cfg w code timeout cwd env Hb Hsafe) in Hrun.
  cbv zeta in Hrun. fold tempFile in Hrun.
  assert (Hgone : pinned w' !! tempFile = None → files w' !! tempFile = None).
  { match type of Hrun with
    | try_finally ?body _ ?w0 = _ =>
        destruct (try_finally_cleanup body tempFile w0) as (Hout & Hfin)
    end.
    rewrite Hrun in Hout, Hfin. simpl in Hout, Hfin.
    destruct Hfin as (Hpin & _ & Hgone & _).
    - rewrite <- Hout. discriminate.
    - intros Hfree. apply Hgone. now rewrite <- Hpin. }
  revert Hrun.
  unfold try_finally, bind at 1. unfold fs_writeFile at 1.
  set (w1 := record_effect _ _).
  unfold bind.
  destruct (runPythonScript host cfg tempFile []
              (if Js.truthy_opt cwd then cwd else Some (os_tmpdir host))
              timeout env w1) as [[r0 | e0 |] w2] eqn:Hscript; cbn [ret].
  - destruct (unlink_quietly_returns tempFile w2) as (w3 & Hfin & _).
    rewrite Hfin. intros [= <- <-]. simpl.
    destruct (preview_short code) as [Hlen Hsame].
    split; [reflexivity |]. split; [exact Hlen |].
    split; [intros Hle; now rewrite Hsame |].
    revert Hscript. unfold runPythonScript. run_async.
    destruct (validatePath_cases host cfg tempFile) as [Hv | Hv]; rewrite Hv; simpl;
      [| discriminate].
    match goal with
    | |- context [match ?m !! ?k with _ => _ end] => destruct (m !! k)
    end; simpl; [| discriminate].
    destruct (choose_workDir host cfg _ _) as [wd | e1]; simpl; [| discriminate].
    intros Hsp. apply spawn_promise_fields in Hsp. simpl in Hsp.
    destruct Hsp as (Hsp & _ & _). auto.
  - destruct (unlink_quietly_returns tempFile w2) as (w3 & Hfin & _).
    rewrite Hfin. discriminate.
  - discriminate.
Qed.

End InlineCodeFacts.

Section SyntaxCheckFacts.
Context (host : Host) (cfg : Config).

(** A syntax check of inline code is the staged run of the driver,
    wrapped in the cleanup. *)
Lemma checkPythonSyntax_code_stage (w : State) (code scriptPath : option string) :
  Js.truthy_opt code = true →
  Js.truthy_opt scriptPath = false →
  checkPythonSyntax host cfg code scriptPath w =
    try_finally
      (fs_writeFile (syntax_temp_file host (now w)) (syntax_driver (default "" code)) ;;;
       result <- runPythonScript host cfg (syntax_temp_file host (now w)) []
                   (Some (os_tmpdir host)) 5000 ∅ ;;
       ret (syntax_verdict result scriptPath))
      (unlink_quietly (syntax_temp_file host (now w))) w.
Proof.
  intros Hcode Hpath. unfold checkPythonSyntax.
  unfold bind at 1. rewrite Hcode, Hpath. simpl. unfold ret at 1.
  unfold bind at 1. unfold ret at 1.
  reflexivity.
Qed.

(** A syntax check of an existing script is the same, on the content of
    the script. *)
Lemma checkPythonSyntax_script_stage (w : State) (code : option string)
    (scriptPath validated content : string) :
  Js.truthy_opt code = false →
  Js.truthy scriptPath = true →
  validatePath host cfg scriptPath = Ok validated →
  files w !! validated = Some content →
  checkPythonSyntax host cfg code (Some scriptPath) w =
    try_finally
      (fs_writeFile (syntax_temp_file host (now w)) (syntax_driver content) ;;;
       result <- runPythonScript host cfg (syntax_temp_file host (now w)) []
                   (Some (os_tmpdir host)) 5000 ∅ ;;
       ret (syntax_verdict result (Some scriptPath)))
      (unlink_quietly (syntax_temp_file host (now w))) w.
Proof.
  intros Hcode Hpath Hv Hfile. unfold checkPythonSyntax.
  unfold bind at 1. rewrite Hcode. simpl. rewrite Hpath. simpl. unfold ret at 1.
  unfold bind at 1. unfold ret at 1.
  unfold bind at 1. rewrite Hv. unfold lift, ret at 1.
  unfold bind at 1. unfold fs_existsSync at 1. rewrite Hfile.
  unfold bind at 1. unfold fs_readFile at 1. rewrite Hfile.
  reflexivity.
Qed.

Lemma checkPythonSyntax_needs_exactly_one_input_aux (w : State)
    (code scriptPath : option string) :
  (Js.truthy_opt code = false → Js.truthy_opt scriptPath = false →
   checkPythonSyntax host cfg code scriptPath w =
     (Threw (Error "Either code or script_path must be provided"), w)) ∧
  (Js.truthy_opt code = true → Js.truthy_opt scriptPath = true →
   checkPythonSyntax host cfg code scriptPath w =
     (Threw (Error "Provide either code or script_path, not both"), w)).
Proof.
  split; intros Hcode Hpath; unfold checkPythonSyntax; run_async;
    rewrite Hcode, Hpath; reflexivity.
Qed.

(** X20. Malformed requests to [checkPythonSyntax]: with neither code
    nor a script path, and with both, the call throws before anything
    is touched. An empty string counts as absent. *)
Theorem checkPythonSyntax_needs_exactly_one_input (w : World)
    (code scriptPath : option string) :
  (Js.truthy_opt code = false → Js.truthy_opt scriptPath = false →
   checkPythonSyntax host cfg code scriptPath w =
     (Threw (Error "Either code or script_path must be provided"), w)) ∧
  (Js.truthy_opt code = true → Js.truthy_opt scriptPath = true →
   checkPythonSyntax host cfg code scriptPath w =
     (Threw (Error "Provide either code or script_path, not both"), w)).
Proof.
  split; intros Hcode Hpath; unfold checkPythonSyntax; run_async;
    rewrite Hcode, Hpath; reflexivity.
Qed.

(** X21. The removal of the driver file of a syntax check is attempted
    on every exit. Whether the check is of inline code or of an existing
    script, when the call ends, with a verdict or by throwing, no file
    is left at the temporary path unless its removal failed. *)
Theorem syntax_check_temp_file_removed (w : World) (code : option string) :
  (∀ scriptPath,
     Js.truthy_opt code = true →
     Js.truthy_opt scriptPath = false →
     let run := checkPythonSyntax host cfg code scriptPath w in
     run.1 ≠ Pending →
     pinned run.2 !! syntax_temp_file host (now w) = None →
     files run.2 !! syntax_temp_file host (now w) = None) ∧
  (∀ scriptPath validated,
     Js.truthy_opt code = false →
     Js.truthy scriptPath = true →
     validatePath host cfg scriptPath = Ok validated →
     is_Some (files w !! validated) →
     let run := checkPythonSyntax host cfg code (Some scriptPath) w in
     run.1 ≠ Pending →
     pinned run.2 !! syntax_temp_file host (now w) = None →
     files run.2 !! syntax_temp_file host (now w) = None).
Proof.
  split.
  - intros scriptPath Hcode Hpath. cbv zeta.
    rewrite (checkPythonSyntax_code_stage w code scriptPath Hcode Hpath).
    match goal with
    | |- (try_finally ?body _ ?w0).1 ≠ _ → _ =>
        destruct (try_finally_cleanup body (syntax_temp_file host (now w)) w0)
          as (Hout & Hfin)
    end.
    intros Hends Hfree. rewrite Hout in Hends.
    destruct (Hfin Hends) as (Hpin & _ & Hgone & _).
    apply Hgone. now rewrite <- Hpin.
  - intros scriptPath validated Hcode Hpath Hv [content Hfile]. cbv zeta.
    rewrite (checkPythonSyntax_script_stage w code scriptPath _ _ Hcode Hpath Hv Hfile).
    match goal with
    | |- (try_finally ?body _ ?w0).1 ≠ _ → _ =>
        destruct (try_finally_cleanup body (syntax_temp_file host (now w)) w0)
          as (Hout & Hfin)
    end.
    intros Hends Hfree. rewrite Hout in Hends.
    destruct (Hfin Hends) as (Hpin & _ & Hgone & _).
    apply Hgone. now rewrite <- Hpin.
Qed.

(** X22. The server writes and removes no file of its own but the
    temporary one: whatever the arguments and the outcome, the effects
    that [runPythonCode] and [checkPythonSyntax] add are the spawn, the
    signals, and writes and removals of their temporary file; no file is
    copied, and no other path is written or removed by the server. *)
Theorem staging_confined_to_temp_file (w : World) :
  (∀ code timeout cwd env,
     adds_confined (python_temp_file host (now w) (entropy w (draws w))) w
       (runPythonCode host cfg code timeout cwd env w).2) ∧
  (∀ code scriptPath,
     adds_confined (syntax_temp_file host (now w)) w
       (checkPythonSyntax host cfg code scriptPath w).2).
Proof.
  split.
  - intros code timeout cwd env.
    destruct (blank code) eqn:Hb.
    { unfold runPythonCode. run_async. rewrite Hb. apply adds_confined_refl. }
    destruct (safe (checkPythonCodeSafety code)) eqn:Hsafe.
    + rewrite (runPythonCode_stages host cfg w code timeout cwd env Hb Hsafe).
      cbv zeta.
      eapply adds_confined_trans; [| apply confined_staged_run].
      exists []. split; [simpl; now rewrite app_nil_r | constructor].
    + unfold runPythonCode. run_async. rewrite Hb. simpl. rewrite Hsafe.
      apply adds_confined_refl.
  - intros code scriptPath.
    destruct (Js.truthy_opt code) eqn:Hcode, (Js.truthy_opt scriptPath) eqn:Hpath.
    + destruct (checkPythonSyntax_needs_exactly_one_input_aux w code scriptPath)
        as [_ H]. rewrite (H Hcode Hpath). apply adds_confined_refl.
    + rewrite (checkPythonSyntax_code_stage w code scriptPath Hcode Hpath).
      apply confined_staged_run.
    + destruct scriptPath as [sp |]; [| discriminate]. simpl in Hpath.
      destruct (validatePath host cfg sp) as [validated | e] eqn:Hv.
      * destruct (files w !! validated) as [content |] eqn:Hfile.
        -- rewrite (checkPythonSyntax_script_stage w code sp _ _ Hcode Hpath Hv Hfile).
           apply confined_staged_run.
        -- unfold checkPythonSyntax. run_async. rewrite Hcode. simpl.
           rewrite Hpath. simpl. rewrite Hv. simpl. rewrite Hfile.
           apply adds_confined_refl.
      * unfold checkPythonSyntax. run_async. rewrite Hcode. simpl.
        rewrite Hpath. simpl. rewrite Hv. apply adds_confined_refl.
    + destruct (checkPythonSyntax_needs_exactly_one_input_aux w code scriptPath)
        as [H _]. rewrite (H Hcode Hpath). apply adds_confined_refl.
Qed.

End SyntaxCheckFacts.

(** ** Working directory and timeout of the runners *)

(** The promise is rejected only with what [spawn] raised. *)
Lemma spawn_promise_throws (L : Launch) (req : SpawnRequest) (w : State) (e : JsError) :
  (spawn_promise L req w).1 = Threw e → spawn_refusal w req = Some e.
Proof.
  unfold spawn_promise. destruct (spawn_refusal w req) as [e0 |].
  - now intros [= ->].
  - unfold spawn_and_wait. simpl. destruct (p_settled _); discriminate.
Qed.

Section RunnerDefaults.
Context (host : Host) (cfg : Config).

(** X23. The working directory used when none is given is not passed
    through [validatePath]. With no [cwd] (or an empty one),
    [runPowerShell] with a non-blank command calls [spawn] with
    [os.homedir()] as the directory, and the two script runners, given a
    permitted, existing script, call [spawn] with the directory of the
    script, whether or not [validatePath] would accept that directory.
    The call throws only what [spawn] itself raised. *)
Theorem default_working_directory_is_not_validated (w : World) (cwd : option string) :
  Js.truthy_opt cwd = false →
  (∀ command timeout,
     blank command = false →
     let req := powershell_request host cfg ["-Command"; command] (os_homedir host) in
     let run := runPowerShell host cfg command timeout cwd w in
     (∀ e, run.1 = Threw e → spawn_refusal w req = Some e) ∧
     ∃ signals,
       effects run.2 = (effects w ++ EvSpawn req :: map EvKill signals)%list) ∧
  (∀ scriptPath args timeout env validated,
     validatePath host cfg scriptPath = Ok validated →
     is_Some (files w !! validated) →
     let req := python_request host cfg validated args (path_dirname host validated)
                  (safe_timeout timeout (PYTHON_MAX_TIMEOUT cfg)) env in
     let run := runPythonScript host cfg scriptPath args cwd timeout env w in
     (∀ e, run.1 = Threw e → spawn_refusal w req = Some e) ∧
     ∃ signals,
       effects run.2 = (effects w ++ EvSpawn req :: map EvKill signals)%list) ∧
  (∀ scriptPath args timeout validated,
     validatePath host cfg scriptPath = Ok validated →
     is_Some (files w !! validated) →
     let req := powershell_request host cfg ("-File" :: validated :: args)
                  (path_dirname host validated) in
     let run := runPowerShellScript host cfg scriptPath args timeout cwd w in
     (∀ e, run.1 = Threw e → spawn_refusal w req = Some e) ∧
     ∃ signals,
       effects run.2 = (effects w ++ EvSpawn req :: map EvKill signals)%list).
Proof.
  intros Hcwd. split; [| split].
  - intros command timeout Hb. cbv zeta.
    rewrite (runPowerShell_spawns host cfg w command timeout cwd _ Hb
               (choose_workDir_default host cfg cwd _ Hcwd)).
    split; [intros e; apply spawn_promise_throws | apply spawn_promise_effects].
  - intros scriptPath args timeout env validated Hv Hex. cbv zeta.
    rewrite (runPythonScript_spawns host cfg w scriptPath args cwd timeout env _ _ Hv Hex
               (choose_workDir_default host cfg cwd _ Hcwd)).
    split; [intros e; apply spawn_promise_throws | apply spawn_promise_effects].
  - intros scriptPath args timeout validated Hv Hex. cbv zeta.
    rewrite (runPowerShellScript_spawns host cfg w scriptPath args timeout cwd _ _ Hv Hex
               (choose_workDir_default host cfg cwd _ Hcwd)).
    split; [intros e; apply spawn_promise_throws | apply spawn_promise_effects].
Qed.

(** X24. A working directory that is given and not permitted stops the
    three runners before anything is spawned: the call throws the
    access-denied error of that directory and leaves the world as it
    was. *)
Theorem denied_working_directory_stops_runner (w : World) (d : string) (e : JsError) :
  Js.truthy d = true →
  validatePath host cfg d = Throw e →
  (∀ command timeout,
     blank command = false →
     runPowerShell host cfg command timeout (Some d) w = (Threw e, w)) ∧
  (∀ scriptPath args timeout env validated,
     validatePath host cfg scriptPath = Ok validated →
     is_Some (files w !! validated) →
     runPythonScript host cfg scriptPath args (Some d) timeout env w = (Threw e, w) ∧
     runPowerShellScript host cfg scriptPath args timeout (Some d) w = (Threw e, w)).
Proof.
  intros Hd Hdenied. split.
  - intros command timeout Hb. unfold runPowerShell, choose_workDir. run_async.
    rewrite Hb. simpl. rewrite Hd, Hdenied. reflexivity.
  - intros scriptPath args timeout env validated Hv [c Hc].
    unfold runPythonScript, runPowerShellScript, choose_workDir. run_async.
    rewrite Hv. simpl. rewrite Hc. simpl. rewrite Hd, Hdenied. auto.
Qed.

End RunnerDefaults.

(** X25. The effective timeout at its bounds. It never exceeds the
    configured maximum; it is at least 1000 when the maximum is; a
    request between 1000 and the maximum is taken as it is; and when
    the configured maximum is below 1000, the effective timeout is that
    maximum, whatever was requested. *)
Theorem effective_timeout_at_bounds (t max : Z) :
  safe_timeout t max ≤ max ∧
  (1000 ≤ max → 1000 ≤ safe_timeout t max) ∧
  (1000 ≤ t ≤ max → safe_timeout t max = t) ∧
  (max < 1000 → safe_timeout t max = max) ∧
  safe_timeout (safe_timeout t max) max = safe_timeout t max.
Proof. unfold safe_timeout. lia. Qed.

(** ** The further properties on the sample installation *)

Lemma denied_path_touches_nothing_witness :
  writeFile Sample.host Sample.cfg "/etc/passwd" "x" true (Sample.world ∅ []) =
    (Threw (Error
       "Access denied: Path /etc/passwd not in allowed list (drives: C, F, paths: none)"),
     Sample.world ∅ []).
Proof.
  destruct (denied_path_touches_nothing Sample.host Sample.cfg SampleRuns.decode
              (Sample.start ∅ []) "/etc/passwd" "x" "utf8" true
              (Error
                 "Access denied: Path /etc/passwd not in allowed list (drives: C, F, paths: none)"))
    as (Hw & _ & _).
  - reflexivity.
  - exact Hw.
Defined.

Lemma writeFile_touches_only_target_and_backup_witness :
  files (writeFile Sample.host Sample.cfg "/tmp/other.txt" "x" true
           (Sample.world SampleRuns.notes [])).2 !! "/tmp/notes.txt" = Some "first".
Proof.
  change (Sample.world SampleRuns.notes []) with (state (Sample.start SampleRuns.notes [])).
  rewrite (writeFile_touches_only_target_and_backup Sample.host Sample.cfg
             (Sample.start SampleRuns.notes []) "/tmp/other.txt" "x" "/tmp/other.txt"
             "/tmp/notes.txt" true).
  - reflexivity.
  - reflexivity.
  - intros [H | H]; vm_compute in H; discriminate.
Defined.

Lemma deleteFile_touches_only_target_and_backup_witness :
  let run := deleteFile Sample.host Sample.cfg "/tmp/other.txt" true
               (Sample.world SampleRuns.shelf []) in
  files run.2 !! "/tmp/notes.txt" = Some "first" ∧
  files run.2 !! "/tmp/other.txt" = None ∧
  effects run.2 =
    [EvCopyFile "/tmp/other.txt" "/tmp/other.txt.deleted_1700000000000";
     EvUnlink "/tmp/other.txt"].
Proof.
  split; [| split; vm_compute; reflexivity].
  change (Sample.world SampleRuns.shelf []) with (state (Sample.start SampleRuns.shelf [])).
  rewrite (deleteFile_touches_only_target_and_backup Sample.host Sample.cfg
             (Sample.start SampleRuns.shelf []) "/tmp/other.txt" "/tmp/other.txt"
             "/tmp/notes.txt" true).
  - reflexivity.
  - reflexivity.
  - intros [H | H]; vm_compute in H; discriminate.
Defined.

Lemma no_backup_when_switched_off_witness :
  ∃ r w',
    deleteFile Sample.host Sample.cfg "/tmp/notes.txt" false
      (Sample.world SampleRuns.notes []) = (Returned r, w') ∧
    backup_path r = None ∧ files w' = delete "/tmp/notes.txt" SampleRuns.notes.
Proof.
  destruct (no_backup_when_switched_off Sample.host Sample.cfg
              (Sample.start SampleRuns.notes []) "/tmp/notes.txt" "x" "/tmp/notes.txt")
    as (_ & Hdel & _).
  - reflexivity.
  - destruct (Hdel "first") as (r & w' & Hrun & Hb & _ & Hf); [reflexivity |].
    exists r, w'. auto.
Defined.

Lemma second_write_backs_up_first_witness :
  ∃ r1 w1 r2 w2,
    writeFile Sample.host Sample.cfg "/tmp/new.txt" "one" true (Sample.world ∅ []) =
      (Returned r1, w1) ∧
    writeFile Sample.host Sample.cfg "/tmp/new.txt" "two" true w1 = (Returned r2, w2) ∧
    files w2 !! write_backup_path "/tmp/new.txt" (now w1) = Some "one" ∧
    files w2 !! "/tmp/new.txt" = Some "two".
Proof.
  apply (second_write_backs_up_first Sample.host Sample.cfg (Sample.start ∅ [])
           "/tmp/new.txt" "one" "two" "/tmp/new.txt" true).
  reflexivity.
Defined.

Lemma readFile_after_writeFile_witness :
  ∃ r1 w1,
    writeFile Sample.host Sample.cfg "/tmp/new.txt" SampleRuns.cafe true
      (Sample.world ∅ []) = (Returned r1, w1) ∧
    wr_size r1 = 5 ∧
    readFile Sample.host Sample.cfg SampleRuns.decode "/tmp/new.txt" "UTF-8" w1 =
      (Returned {| rr_success := true; rr_path := "/tmp/new.txt";
                   rr_content := Text SampleRuns.cafe;
                   rr_size := 5;
                   rr_encoding := "UTF-8" |}, w1).
Proof.
  apply (readFile_after_writeFile Sample.host Sample.cfg SampleRuns.decode
           (Sample.start ∅ []) "/tmp/new.txt" SampleRuns.cafe "UTF-8" "/tmp/new.txt" true).
  - reflexivity.
  - reflexivity.
Defined.

Lemma delete_after_write_keeps_content_witness :
  ∃ r1 w1 r2 w2,
    writeFile Sample.host Sample.cfg "/tmp/new.txt" "hello" true (Sample.world ∅ []) =
      (Returned r1, w1) ∧
    deleteFile Sample.host Sample.cfg "/tmp/new.txt" true w1 = (Returned r2, w2) ∧
    backup_path r2 =
      Some (delete_backup_path "/tmp/new.txt" (now (Sample.world ∅ []))) ∧
    files w2 !! delete_backup_path "/tmp/new.txt" (now (Sample.world ∅ [])) =
      Some "hello" ∧
    files w2 !! "/tmp/new.txt" = None.
Proof.
  apply (delete_after_write_keeps_content Sample.host Sample.cfg (Sample.start ∅ [])
           "/tmp/new.txt" "hello" "/tmp/new.txt" true).
  reflexivity.
Defined.

Lemma readFile_returns_content_or_ENOENT_witness :
  readFile Sample.host Sample.cfg SampleRuns.decode "/tmp/notes.txt" "utf-9"
    (Sample.world SampleRuns.notes []) =
    (Threw (ArgumentError "TypeError" "ERR_INVALID_ARG_VALUE" "encoding"),
     Sample.world SampleRuns.notes []) ∧
  readFile Sample.host Sample.cfg SampleRuns.decode "/tmp/missing.txt" "latin1"
    (Sample.world SampleRuns.notes []) =
    (Threw (SystemError "ENOENT" "open" "/tmp/missing.txt" None),
     Sample.world SampleRuns.notes []) ∧
  readFile Sample.host Sample.cfg SampleRuns.decode "/tmp/notes.txt" "utf8"
    (Sample.world SampleRuns.notes []) =
    (Returned {| rr_success := true; rr_path := "/tmp/notes.txt";
                 rr_content := Text "first"; rr_size := 5; rr_encoding := "utf8" |},
     Sample.world SampleRuns.notes []).
Proof.
  split; [| split].
  - destruct (readFile_returns_content_or_ENOENT Sample.host Sample.cfg SampleRuns.decode
                (Sample.start SampleRuns.notes []) "/tmp/notes.txt" "utf-9"
                "/tmp/notes.txt") as (Hrefused & _ & _).
    + reflexivity.
    + apply Hrefused. reflexivity.
  - destruct (readFile_returns_content_or_ENOENT Sample.host Sample.cfg SampleRuns.decode
                (Sample.start SampleRuns.notes []) "/tmp/missing.txt" "latin1"
                "/tmp/missing.txt") as (_ & Hmissing & _).
    + reflexivity.
    + apply Hmissing; reflexivity.
  - destruct (readFile_returns_content_or_ENOENT Sample.host Sample.cfg SampleRuns.decode
                (Sample.start SampleRuns.notes []) "/tmp/notes.txt" "utf8"
                "/tmp/notes.txt") as (_ & _ & Htext).
    + reflexivity.
    + apply (Htext eq_refl "first"). reflexivity.
Defined.



Lemma exit_in_time_is_reported_witness :
  (runPowerShell Sample.host Sample.cfg "Get-Process" 60000 None
     (Sample.world ∅ [StdoutData "a"; StderrData "x"; Tick 20; StdoutData "b";
                      Exit; Close (Some 0)])).1 =
    Returned {| success := true; exit_code := Some 0; stdout := "ab"; stderr := "x";
                duration_ms := 20; error := None; script_path := None;
                working_directory := "/home/user"; code_preview := None |}.
Proof.
  rewrite (runPowerShell_spawns Sample.host Sample.cfg _ "Get-Process" 60000 None
             "/home/user") by reflexivity.
  match goal with
  | |- (spawn_promise ?L ?req _).1 = _ =>
      destruct (exit_in_time_is_reported L req
                  (Sample.start ∅ [StdoutData "a"; StderrData "x"; Tick 20; StdoutData "b";
                                   Exit; Close (Some 0)])
                  [StdoutData "a"; StderrData "x"; Tick 20; StdoutData "b"; Exit] []
                  (Some 0) eq_refl eq_refl eq_refl eq_refl) as [Hres _]
  end.
  exact Hres.
Defined.

Lemma code_without_bracket_is_safe_witness :
  checkPythonCodeSafety "import os; x = os.system" = {| safe := true; reason := None |}.
Proof. apply code_without_bracket_is_safe. reflexivity. Defined.

Lemma unsafe_code_stays_unsafe_in_context_witness :
  safe (checkPythonCodeSafety
          ("import os" +:+ newline +:+ "os.system('ls')" +:+ newline +:+ "print(1)")) =
    false.
Proof.
  apply (unsafe_code_stays_unsafe_in_context ("import os" +:+ newline)
           "os.system('ls')" (newline +:+ "print(1)")); reflexivity.
Defined.

Lemma configured_lists_witness :
  ALLOWED_DRIVES_of (Some "") = ["C"; "F"] ∧ ALLOWED_PATHS_of (Some "") = [].
Proof.
  destruct (configured_lists (Some "")) as (_ & _ & H). apply H. reflexivity.
Defined.

Lemma blank_input_is_refused_witness :
  runPythonCode Sample.host Sample.cfg (" " +:+ newline) 30000 None ∅ (Sample.world ∅ []) =
    (Threw (Error "Code cannot be empty"), Sample.world ∅ []) ∧
  runPowerShell Sample.host Sample.cfg (String (ascii_of_nat 160) " ") 60000 None
    (Sample.world ∅ []) =
    (Threw (Error "Command cannot be empty"), Sample.world ∅ []).
Proof.
  split.
  - destruct (blank_input_is_refused Sample.host Sample.cfg (Sample.start ∅ [])
                (" " +:+ newline) 30000 None ∅) as [_ H].
    destruct H as [Hcode _]; [reflexivity | exact Hcode].
  - destruct (blank_input_is_refused Sample.host Sample.cfg (Sample.start ∅ [])
                (String (ascii_of_nat 160) " ") 60000 None ∅) as [_ H].
    destruct H as [_ Hcommand]; [reflexivity | exact Hcommand].
Defined.

Lemma inline_code_needs_permitted_tmpdir_witness :
  let run := runPythonCode Sample.host Sample.cfg "print(1)" 1000 None ∅
               (Sample.world ∅ [Close (Some 0)]) in
  run.1 = Threw (Error
            "Access denied: Path /tmp not in allowed list (drives: C, F, paths: none)") ∧
  files run.2 = delete "/tmp/darkside_python_1700000000000_k3x9q.py" ∅.
Proof.
  destruct (inline_code_needs_permitted_tmpdir Sample.host Sample.cfg
              (Sample.start ∅ [Close (Some 0)]) "print(1)" 1000 None ∅
              (Error
                 "Access denied: Path /tmp not in allowed list (drives: C, F, paths: none)"))
    as (Hout & _ & Hfiles); try reflexivity.
  split; [exact Hout | exact Hfiles].
Defined.

Lemma inline_result_describes_code_witness :
  ∃ r w',
    runPythonCode Sample.host Sample.cfg "print(1)" 1000 (Some "/tmp/work") ∅
      (Sample.world ∅ [Close (Some 0)]) = (Returned r, w') ∧
    code_preview r = Some "print(1)" ∧
    script_path r = Some "/tmp/darkside_python_1700000000000_k3x9q.py" ∧
    files w' !! "/tmp/darkside_python_1700000000000_k3x9q.py" = None.
Proof.
  destruct (runPythonCode Sample.host Sample.cfg "print(1)" 1000 (Some "/tmp/work") ∅
              (Sample.world ∅ [Close (Some 0)])) as [o w'] eqn:Hrun.
  assert (Ho : ∃ r, o = Returned r).
  { apply (f_equal fst) in Hrun. simpl in Hrun. rewrite <- Hrun.
    vm_compute. eexists. reflexivity. }
  assert (Hfree : pinned w' !! "/tmp/darkside_python_1700000000000_k3x9q.py" = None).
  { apply (f_equal snd) in Hrun. simpl in Hrun. rewrite <- Hrun.
    vm_compute. reflexivity. }
  destruct Ho as [r ->]. exists r, w'. split; [reflexivity |].
  destruct (inline_result_describes_code Sample.host Sample.cfg
              (Sample.start ∅ [Close (Some 0)]) _ _ _ _ _ _ Hrun)
    as (_ & _ & Hp & _ & Hs & Hg).
  split; [apply Hp; simpl; lia |]. split; [exact Hs | exact (Hg Hfree)].
Defined.

Lemma checkPythonSyntax_needs_exactly_one_input_witness :
  checkPythonSyntax Sample.host Sample.cfg (Some "") None (Sample.world ∅ []) =
    (Threw (Error "Either code or script_path must be provided"), Sample.world ∅ []).
Proof.
  destruct (checkPythonSyntax_needs_exactly_one_input Sample.host Sample.cfg
              (Sample.start ∅ []) (Some "") None) as [H _].
  apply H; reflexivity.
Defined.

Lemma syntax_check_temp_file_removed_witness :
  files (checkPythonSyntax Sample.host Sample.cfg (Some "x = 1") None
           (Sample.world ∅ [StdoutData "SYNTAX_OK"; Close (Some 0)])).2
    !! "/tmp/syntax_check_1700000000000.py" = None.
Proof.
  destruct (syntax_check_temp_file_removed Sample.host Sample.cfg
              (Sample.start ∅ [StdoutData "SYNTAX_OK"; Close (Some 0)]) (Some "x = 1"))
    as [H _].
  apply (H None); [reflexivity | reflexivity | |].
  - vm_compute. discriminate.
  - vm_compute. reflexivity.
Defined.

Lemma default_working_directory_is_not_validated_witness :
  validatePath SampleRuns.host_root Sample.cfg "/root" =
    Throw (Error "Access denied: Path /root not in allowed list (drives: C, F, paths: none)") ∧
  ∃ signals,
    effects (runPowerShell SampleRuns.host_root Sample.cfg "Get-Process" 60000 None
               (Sample.world ∅ [Close (Some 0)])).2 =
      EvSpawn (powershell_request SampleRuns.host_root Sample.cfg
                 ["-Command"; "Get-Process"] "/root") :: map EvKill signals.
Proof.
  split; [reflexivity |].
  destruct (default_working_directory_is_not_validated SampleRuns.host_root Sample.cfg
              (Sample.start ∅ [Close (Some 0)]) None) as (Hps & _ & _); [reflexivity |].
  destruct (Hps "Get-Process" 60000) as [_ (signals & Heff)]; [reflexivity |].
  exists signals. exact Heff.
Defined.

Lemma denied_working_directory_stops_runner_witness :
  runPowerShell Sample.host Sample.cfg "Get-Process" 60000 (Some "/etc")
    (Sample.world ∅ [Close (Some 0)]) =
    (Threw (Error "Access denied: Path /etc not in allowed list (drives: C, F, paths: none)"),
     Sample.world ∅ [Close (Some 0)]).
Proof.
  destruct (denied_working_directory_stops_runner Sample.host Sample.cfg
              (Sample.start ∅ [Close (Some 0)]) "/etc"
              (Error "Access denied: Path /etc not in allowed list (drives: C, F, paths: none)"))
    as [Hps _]; [reflexivity | reflexivity |].
  apply Hps. reflexivity.
Defined.

Lemma effective_timeout_at_bounds_witness :
  safe_timeout 30000 500 = 500 ∧ safe_timeout 5000 300000 = 5000.
Proof.
  destruct (effective_timeout_at_bounds 30000 500) as (_ & _ & _ & Hlow & _).
  destruct (effective_timeout_at_bounds 5000 300000) as (_ & _ & Hin & _ & _).
  split; [apply Hlow; lia | apply Hin; lia].
Defined.
